(** * vid2Quiz backend: transcript assembler and quiz synthesizer

    A shallow embedding of [src/transcript.js] and of
    [generateQuizQuestions] in [src/server.js].

    JavaScript strings are sequences of UTF-16 code units: a string is a
    [list N].  A JavaScript value is a [JsVal]; a function that may throw
    and that talks to the outside world (the captions provider, [fetch],
    the console) is a computation in the [Eff] monad, which carries the
    ordered log of the effects performed and either the value returned
    or the value thrown.  An [async] function that returns is a promise
    that resolves, one that throws is a promise that rejects. *)

From Stdlib Require Import List NArith ZArith Bool String Ascii Lia Arith.
From Stdlib Require Import DecimalString.
Import ListNotations.

Set Implicit Arguments.
Set Warnings "-register-all".

(* ================================================================== *)
(** * Strings *)
(* ================================================================== *)

Definition jsstring := list N.

(** A string literal of the source (ASCII only), as code units. *)
Definition lit (s : string) : jsstring :=
  List.map N_of_ascii (list_ascii_of_string s).

Fixpoint str_eqb (a b : jsstring) : bool :=
  match a, b with
  | [], [] => true
  | x :: a', y :: b' => N.eqb x y && str_eqb a' b'
  | _, _ => false
  end.

Fixpoint starts_with (needle s : jsstring) : bool :=
  match needle, s with
  | [], _ => true
  | x :: n', y :: s' => N.eqb x y && starts_with n' s'
  | _ :: _, [] => false
  end.

(** [s.includes(needle)] *)
Fixpoint includes (s needle : jsstring) : bool :=
  starts_with needle s ||
  match s with
  | [] => false
  | _ :: s' => includes s' needle
  end.

(** [parts.join(sep)] *)
Fixpoint join (sep : jsstring) (parts : list jsstring) : jsstring :=
  match parts with
  | [] => []
  | [p] => p
  | p :: rest => p ++ sep ++ join sep rest
  end.

(** [s.split(sep)] for a separator of one code unit: the pieces between
    the separators, empty pieces included; never an empty array. *)
Fixpoint split_acc (sep : N) (s cur : jsstring) : list jsstring :=
  match s with
  | [] => [rev cur]
  | c :: s' =>
      if N.eqb c sep then rev cur :: split_acc sep s' []
      else split_acc sep s' (c :: cur)
  end.

Definition str_split (sep : N) (s : jsstring) : list jsstring :=
  split_acc sep s [].

(** [s.substring(0, n)] *)
Definition substring0 (n : nat) (s : jsstring) : jsstring := firstn n s.

(** The class [\s] of regular expressions, which is also what [trim]
    removes: WhiteSpace and LineTerminator of ECMAScript. *)
Definition is_space (c : N) : bool :=
  ((9 <=? c) && (c <=? 13) || (c =? 32) || (c =? 160) || (c =? 5760)
   || (8192 <=? c) && (c <=? 8202) || (c =? 8232) || (c =? 8233)
   || (c =? 8239) || (c =? 8287) || (c =? 12288) || (c =? 65279))%N.

Fixpoint drop_space (s : jsstring) : jsstring :=
  match s with
  | c :: s' => if is_space c then drop_space s' else s
  | [] => []
  end.

(** [s.trim()] *)
Definition trim (s : jsstring) : jsstring :=
  rev (drop_space (rev (drop_space s))).

(** Decimal digits of a natural number, as [String(n)] prints them. *)
Definition str_of_N (n : N) : jsstring :=
  lit (NilEmpty.string_of_uint (N.to_uint n)).

Definition ch_space : N := 32.
Definition ch_newline : N := 10.

(* ================================================================== *)
(** * Values, completions and effects *)
(* ================================================================== *)

(** The constructors of the errors the code and the runtime create. *)
Inductive ErrorKind := KError | KTypeError | KSyntaxError.

(** JavaScript values.  A number is kept as the exact decimal
    [m * 10^e] it was written as; the rounding to binary64 is not
    modelled.  An object is the list of its own properties in insertion
    order; [JError] is an instance of [Error] (or of a subclass), whose
    [message] is a string. *)
Inductive JsVal :=
| JUndefined
| JNull
| JBool (b : bool)
| JNum (m e : Z)
| JStr (s : jsstring)
| JArr (items : list JsVal)
| JObj (props : list (jsstring * JsVal))
| JError (kind : ErrorKind) (message : jsstring).

Definition JInt (n : Z) : JsVal := JNum n 0.

(** [!!v] *)
Definition truthy (v : JsVal) : bool :=
  match v with
  | JUndefined | JNull => false
  | JBool b => b
  | JNum m _ => negb (Z.eqb m 0)
  | JStr s => match s with [] => false | _ => true end
  | JArr _ | JObj _ | JError _ _ => true
  end.

(** [typeof v === 'string'] *)
Definition is_string (v : JsVal) : bool :=
  match v with JStr _ => true | _ => false end.

(** An own property of an object; a later binding of a key replaces an
    earlier one. *)
Fixpoint own_prop (props : list (jsstring * JsVal)) (key : jsstring)
  : option JsVal :=
  match props with
  | [] => None
  | (k, v) :: rest =>
      match own_prop rest key with
      | Some v' => Some v'
      | None => if str_eqb k key then Some v else None
      end
  end.

(** What a computation completes with: a value, or a thrown value. *)
Inductive Completion (A : Type) :=
| Normal (a : A)
| Throw (v : JsVal).

Arguments Normal {A} a.
Arguments Throw {A} v.

(** The request handed to [fetch]; [req_body] is the value given to
    [JSON.stringify]. *)
Record Request := {
  req_url : jsstring;
  req_method : jsstring;
  req_authorization : jsstring;
  req_content_type : jsstring;
  req_body : JsVal
}.

(** The effects the two functions perform, in the order they happen. *)
Inductive Event :=
| EvGetSubtitles (videoID : JsVal) (lang : jsstring)
| EvFetch (req : Request)
| EvConsoleLog (args : list JsVal)
| EvConsoleError (args : list JsVal).

(** A computation: the log of its effects and its completion. *)
Definition Eff (A : Type) : Type := (list Event * Completion A)%type.

Definition ret {A} (a : A) : Eff A := ([], Normal a).

Definition throw {A} (v : JsVal) : Eff A := ([], Throw v).

Definition bind {A B} (m : Eff A) (f : A -> Eff B) : Eff B :=
  match m with
  | (l, Normal a) => let (l', c) := f a in (l ++ l', c)
  | (l, Throw v) => (l, Throw v)
  end.

(** [try { m } catch (e) { h e }] *)
Definition try_catch {A} (m : Eff A) (h : JsVal -> Eff A) : Eff A :=
  match m with
  | (l, Normal a) => (l, Normal a)
  | (l, Throw v) => let (l', c) := h v in (l ++ l', c)
  end.

Definition emit (e : Event) : Eff unit := ([e], Normal tt).

(** A pure step that may throw, lifted to a computation. *)
Definition lift {A} (c : Completion A) : Eff A := ([], c).

Declare Scope eff_scope.
Delimit Scope eff_scope with eff.
Notation "x <- m ;; k" := (bind m (fun x => k))
  (at level 61, m at next level, right associativity) : eff_scope.
Notation "m ;;; k" := (bind m (fun _ => k))
  (at level 61, right associativity) : eff_scope.
Open Scope eff_scope.

Definition new_Error (message : jsstring) : JsVal := JError KError message.

(** The [TypeError] of the runtime for [v.key] when [v] is [undefined]
    or [null], and for a call of something that is not a function.  The
    text of the message is the engine's; nothing below depends on it. *)
Definition type_error_read (key : jsstring) : JsVal :=
  JError KTypeError (lit "Cannot read properties of undefined or null: " ++ key).

Definition type_error_call (key : jsstring) : JsVal :=
  JError KTypeError (key ++ lit " is not a function").

(** [v.key] for a key that no prototype defines ([message], [choices],
    [content], [error]): an own property of an object, the message of
    an error, [undefined] on any other value but [undefined] and
    [null], on which the access throws. *)
Definition get_prop (v : JsVal) (key : jsstring) : Completion JsVal :=
  match v with
  | JUndefined | JNull => Throw (type_error_read key)
  | JObj props =>
      match own_prop props key with
      | Some x => Normal x
      | None => Normal JUndefined
      end
  | JError _ m =>
      if str_eqb key (lit "message") then Normal (JStr m) else Normal JUndefined
  | _ => Normal JUndefined
  end.

(** [v[0]]: the first element of an array, the first code unit of a
    string, the own property ["0"] of an object. *)
Definition get_index0 (v : JsVal) : Completion JsVal :=
  match v with
  | JUndefined | JNull => Throw (type_error_read (lit "0"))
  | JArr (x :: _) => Normal x
  | JStr (c :: _) => Normal (JStr [c])
  | JObj props =>
      match own_prop props (lit "0") with
      | Some x => Normal x
      | None => Normal JUndefined
      end
  | _ => Normal JUndefined
  end.

Definition is_str_eq (needle : jsstring) (v : JsVal) : bool :=
  match v with JStr s => str_eqb s needle | _ => false end.

(** [v.includes(needle)] for a string [needle]: the substring test of
    [String.prototype], the membership test of [Array.prototype]; on
    [undefined] and [null] reading [includes] throws, on any other value
    [includes] is [undefined] and the call throws. *)
Definition call_includes (v : JsVal) (needle : jsstring) : Completion bool :=
  match v with
  | JStr s => Normal (includes s needle)
  | JArr items => Normal (existsb (is_str_eq needle) items)
  | JUndefined | JNull => Throw (type_error_read (lit "includes"))
  | _ => Throw (type_error_call (lit "includes"))
  end.

(* ================================================================== *)
(** * [src/transcript.js] *)
(* ================================================================== *)

(** A caption fragment of the provider; only [text] is read. *)
Record Caption := {
  start : jsstring;
  dur : jsstring;
  text : jsstring
}.

(** What [await getSubtitles(...)] does: the promise resolves with an
    array of fragments, or with [undefined]/[null] ([None]), or it
    rejects with a value the provider chose. *)
Inductive ProviderBehaviour :=
| Resolves (captions : option (list Caption))
| Rejects (thrown : JsVal).

Definition Provider := JsVal -> jsstring -> ProviderBehaviour.

Definition await_getSubtitles (getSubtitles : Provider)
  (videoID : JsVal) (lang : jsstring) : Eff (option (list Caption)) :=
  ([EvGetSubtitles videoID lang],
   match getSubtitles videoID lang with
   | Resolves captions => Normal captions
   | Rejects v => Throw v
   end).

Definition error_object (message : jsstring) : JsVal :=
  JObj [(lit "error", JStr message)].

Definition msg_not_enough : jsstring :=
  lit "Not enough reliable information in the transcript".
Definition msg_no_captions : jsstring :=
  lit "No captions available for this video. Please try a video with subtitles.".
Definition msg_invalid_id : jsstring :=
  lit "Invalid YouTube video ID provided".
Definition msg_failed : jsstring :=
  lit "Failed to extract transcript. Please try another video.".

(** [captions.map(c => c.text).join(" ")] *)
Definition joined_text (captions : list Caption) : jsstring :=
  join (lit " ") (List.map text captions).

(** The body of the [try] block. *)
Definition transcript_try (getSubtitles : Provider) (videoId : JsVal)
  : Eff JsVal :=
  if negb (truthy videoId) || negb (is_string videoId) then
    throw (new_Error (lit "Invalid video ID provided"))
  else
    captions <- await_getSubtitles getSubtitles videoId (lit "en") ;;
    match captions with
    | None | Some [] =>
        throw (new_Error (lit "No captions found for this video"))
    | Some (c :: cs) =>
        let transcript := joined_text (c :: cs) in
        if (List.length (str_split ch_space transcript) <? 50)%nat then
          ret (error_object msg_not_enough)
        else
          ret (JStr transcript)
    end.

(** The [catch] block: [error.message.includes(...)] is evaluated on
    whatever was thrown. *)
Definition transcript_catch (error : JsVal) : Eff JsVal :=
  message <- lift (get_prop error (lit "message")) ;;
  no_captions <- lift (call_includes message (lit "No captions")) ;;
  if no_captions then ret (error_object msg_no_captions)
  else
    message' <- lift (get_prop error (lit "message")) ;;
    invalid <- lift (call_includes message' (lit "Invalid video ID")) ;;
    if invalid then ret (error_object msg_invalid_id)
    else ret (error_object msg_failed).

Definition getYouTubeTranscript (getSubtitles : Provider) (videoId : JsVal)
  : Eff JsVal :=
  try_catch (transcript_try getSubtitles videoId) transcript_catch.

(** Whether a value has the shape [{error: string}]. *)
Definition is_error_object (v : JsVal) : bool :=
  match v with
  | JObj props =>
      match own_prop props (lit "error") with
      | Some (JStr _) => true
      | _ => false
      end
  | _ => false
  end.

(** The word count the specification describes for the quality gate:
    the text is split on white space and the tokens, the maximal runs
    of code units that are not white space, are counted. *)
Fixpoint spec_words (s : jsstring) (in_word : bool) : nat :=
  match s with
  | [] => 0
  | c :: s' =>
      if is_space c then spec_words s' false
      else if in_word then spec_words s' true
      else S (spec_words s' true)
  end.

Definition spec_word_count (s : jsstring) : nat := spec_words s false.

(** Test data: a fragment with a given text, and a provider that
    behaves the same way for every request. *)
Definition caption (t : jsstring) : Caption :=
  {| start := lit "0"; dur := lit "1"; text := t |}.

Definition const_provider (b : ProviderBehaviour) : Provider := fun _ _ => b.

Definition sample_id : jsstring := lit "dQw4w9WgXcQ".

(** 25 fragments that each end in a space: 25 words, 49 spaces. *)
Definition padded_fragments : list Caption := repeat (caption (lit "hi ")) 25.

(** 25 fragments of two words on two lines: 50 words, 24 spaces. *)
Definition two_line_fragments : list Caption :=
  repeat (caption (lit "hello" ++ [ch_newline] ++ lit "world")) 25.

(** 50 fragments of one word. *)
Definition fifty_fragments : list Caption := repeat (caption (lit "word")) 50.

(* ================================================================== *)
(** * Regular expressions *)
(* ================================================================== *)

Definition ch_tab : N := 9.
Definition ch_cr : N := 13.
Definition ch_quote : N := 34.
Definition ch_plus : N := 43.
Definition ch_comma : N := 44.
Definition ch_minus : N := 45.
Definition ch_dot : N := 46.
Definition ch_slash : N := 47.
Definition ch_colon : N := 58.
Definition ch_lbracket : N := 91.
Definition ch_backslash : N := 92.
Definition ch_rbracket : N := 93.
Definition ch_backtick : N := 96.
Definition ch_lbrace : N := 123.
Definition ch_rbrace : N := 125.

(** The fragment of the regular expressions of ECMAScript that the
    source uses: a class of code units, concatenation, a greedy or lazy
    star on a class, a greedy optional group and one capture group. *)
Inductive regex :=
| Eps
| Cls (p : N -> bool)
| Cat (r1 r2 : regex)
| Star (greedy : bool) (p : N -> bool)
| Opt (r : regex)
| Grp (r : regex).

Definition is_char (x : N) : N -> bool := N.eqb x.

(** [[\s\S]] *)
Definition any_char : N -> bool := fun _ => true.

(** [[}\]]] *)
Definition is_closer (c : N) : bool :=
  N.eqb c ch_rbrace || N.eqb c ch_rbracket.

Definition Chr (x : N) : regex := Cls (is_char x).

(** A literal run of code units. *)
Fixpoint Word (w : jsstring) : regex :=
  match w with
  | [] => Eps
  | c :: w' => Cat (Chr c) (Word w')
  end.

(** [p+], greedy. *)
Definition Plus (p : N -> bool) : regex := Cat (Cls p) (Star true p).

Section Matcher.

Variable A : Type.

(** [p*] followed by the continuation [k]: the longest run first. *)
Fixpoint star_greedy (p : N -> bool) (k : jsstring -> option A)
  (s : jsstring) : option A :=
  match s with
  | c :: s' =>
      if p c then
        match star_greedy p k s' with
        | Some x => Some x
        | None => k s
        end
      else k s
  | [] => k []
  end.

(** [p*?] followed by the continuation [k]: the shortest run first. *)
Fixpoint star_lazy (p : N -> bool) (k : jsstring -> option A)
  (s : jsstring) : option A :=
  match k s with
  | Some x => Some x
  | None =>
      match s with
      | c :: s' => if p c then star_lazy p k s' else None
      | [] => None
      end
  end.

(** The backtracking matcher, in continuation-passing style: [r] is
    matched at the start of [s], then [k] is given what is left of [s]
    and the text of the capture group; the first success is kept. *)
Fixpoint rmatch (r : regex) (s : jsstring) (cap : option jsstring)
  (k : jsstring -> option jsstring -> option A) : option A :=
  match r with
  | Eps => k s cap
  | Cls p =>
      match s with
      | c :: s' => if p c then k s' cap else None
      | [] => None
      end
  | Cat r1 r2 => rmatch r1 s cap (fun s' cap' => rmatch r2 s' cap' k)
  | Star true p => star_greedy p (fun s' => k s' cap) s
  | Star false p => star_lazy p (fun s' => k s' cap) s
  | Opt r1 =>
      match rmatch r1 s cap k with
      | Some x => Some x
      | None => k s cap
      end
  | Grp r1 =>
      rmatch r1 s cap
        (fun s' _ => k s' (Some (firstn (List.length s - List.length s') s)))
  end.

End Matcher.

(** A match at the start of [s]: what follows the match, and group 1. *)
Definition match_here (r : regex) (s : jsstring)
  : option (jsstring * option jsstring) :=
  rmatch r s None (fun s' cap => Some (s', cap)).

(** The array [s.match(r)] returns for a pattern without the [g] flag:
    element 0 is the matched text, element 1 the text of group 1
    ([None] is [undefined]). *)
Record MatchArray := {
  at0 : option jsstring;
  at1 : option jsstring
}.

(** [s.match(r)]: the leftmost match, or [null]. *)
Fixpoint search (r : regex) (s : jsstring) : option MatchArray :=
  match match_here r s with
  | Some (rest, cap) =>
      Some {| at0 := Some (firstn (List.length s - List.length rest) s);
              at1 := cap |}
  | None =>
      match s with
      | [] => None
      | _ :: s' => search r s'
      end
  end.

(** A replacement text: literal text and [$1]. *)
Inductive Piece := Text (t : jsstring) | Group1.

Definition expand_piece (cap : option jsstring) (p : Piece) : jsstring :=
  match p with
  | Text t => t
  | Group1 => match cap with Some g => g | None => [] end
  end.

Definition expand (tpl : list Piece) (cap : option jsstring) : jsstring :=
  List.concat (List.map (expand_piece cap) tpl).

(** [s.replace(r, tpl)] for a pattern with the [g] flag: the matches are
    found from left to right without overlap, each is replaced, and
    after an empty match the scan moves on by one code unit.  The fuel
    is the number of positions of [s]. *)
Fixpoint replace_fuel (fuel : nat) (r : regex) (tpl : list Piece)
  (s : jsstring) : jsstring :=
  match fuel with
  | O => s
  | S fuel' =>
      match match_here r s with
      | Some (rest, cap) =>
          if (List.length rest <? List.length s)%nat then
            expand tpl cap ++ replace_fuel fuel' r tpl rest
          else
            expand tpl cap ++
            match s with
            | [] => []
            | c :: s' => c :: replace_fuel fuel' r tpl s'
            end
      | None =>
          match s with
          | [] => []
          | c :: s' => c :: replace_fuel fuel' r tpl s'
          end
      end
  end.

Definition replace_all (r : regex) (tpl : list Piece) (s : jsstring)
  : jsstring :=
  replace_fuel (S (List.length s)) r tpl s.

(* ================================================================== *)
(** * [JSON.parse] *)
(* ================================================================== *)

(** The tokens of the JSON lexical grammar. *)
Inductive Token :=
| TLBracket | TRBracket | TLBrace | TRBrace | TComma | TColon
| TString (s : jsstring)
| TNumber (m e : Z)
| TTrue | TFalse | TNull.

(** Where the scan of a number stands: after the sign, after a leading
    zero, in the integer digits, after the point, in the fraction, after
    the exponent mark, after the sign of the exponent, in its digits. *)
Inductive NumState :=
| NMinus | NZero | NInt | NDot | NFrac | NExpMark | NExpSign | NExp.

(** The digits read so far. *)
Record NumAcc := {
  neg : bool;
  mant : N;
  frac_digits : N;
  exp_neg : bool;
  expo : N
}.

Definition num_start (negative : bool) (digit : N) : NumAcc :=
  {| neg := negative; mant := digit; frac_digits := 0;
     exp_neg := false; expo := 0 |}.

Definition num_value (a : NumAcc) : Token :=
  TNumber (if neg a then - Z.of_N (mant a) else Z.of_N (mant a))
          ((if exp_neg a then - Z.of_N (expo a) else Z.of_N (expo a))
           - Z.of_N (frac_digits a)).

Definition is_digit (c : N) : bool := ((48 <=? c) && (c <=? 57))%N.

Definition digit_value (c : N) : N := c - 48.

Definition is_exp_mark (c : N) : bool := ((c =? 101) || (c =? 69))%N.

Definition num_final (st : NumState) : bool :=
  match st with
  | NZero | NInt | NFrac | NExp => true
  | NMinus | NDot | NExpMark | NExpSign => false
  end.

Definition push_int (a : NumAcc) (c : N) : NumAcc :=
  {| neg := neg a; mant := mant a * 10 + digit_value c;
     frac_digits := frac_digits a; exp_neg := exp_neg a; expo := expo a |}.

Definition push_frac (a : NumAcc) (c : N) : NumAcc :=
  {| neg := neg a; mant := mant a * 10 + digit_value c;
     frac_digits := frac_digits a + 1; exp_neg := exp_neg a; expo := expo a |}.

Definition push_exp (a : NumAcc) (c : N) : NumAcc :=
  {| neg := neg a; mant := mant a; frac_digits := frac_digits a;
     exp_neg := exp_neg a; expo := expo a * 10 + digit_value c |}.

Definition set_exp_neg (a : NumAcc) : NumAcc :=
  {| neg := neg a; mant := mant a; frac_digits := frac_digits a;
     exp_neg := true; expo := expo a |}.

(** One more code unit of a number, when it continues the number. *)
Definition num_step (st : NumState) (a : NumAcc) (c : N)
  : option (NumState * NumAcc) :=
  match st with
  | NMinus =>
      if N.eqb c 48 then Some (NZero, a)
      else if is_digit c then Some (NInt, push_int a c)
      else None
  | NZero =>
      if N.eqb c ch_dot then Some (NDot, a)
      else if is_exp_mark c then Some (NExpMark, a)
      else None
  | NInt =>
      if is_digit c then Some (NInt, push_int a c)
      else if N.eqb c ch_dot then Some (NDot, a)
      else if is_exp_mark c then Some (NExpMark, a)
      else None
  | NDot => if is_digit c then Some (NFrac, push_frac a c) else None
  | NFrac =>
      if is_digit c then Some (NFrac, push_frac a c)
      else if is_exp_mark c then Some (NExpMark, a)
      else None
  | NExpMark =>
      if is_digit c then Some (NExp, push_exp a c)
      else if N.eqb c ch_plus then Some (NExpSign, a)
      else if N.eqb c ch_minus then Some (NExpSign, set_exp_neg a)
      else None
  | NExpSign => if is_digit c then Some (NExp, push_exp a c) else None
  | NExp => if is_digit c then Some (NExp, push_exp a c) else None
  end.

(** The state of the scanner. *)
Inductive LexState :=
| LBetween
| LString (acc : jsstring)
| LEscape (acc : jsstring)
| LUnicode (acc : jsstring) (more : nat) (code : N)
| LLiteral (tok : Token) (rest : jsstring)
| LNumber (st : NumState) (a : NumAcc).

(** JSON white space: tab, line feed, carriage return, space. *)
Definition is_json_ws (c : N) : bool :=
  N.eqb c ch_tab || N.eqb c ch_newline || N.eqb c ch_cr || N.eqb c ch_space.

Definition hex_value (c : N) : option N :=
  if ((48 <=? c) && (c <=? 57))%N then Some (c - 48)%N
  else if ((97 <=? c) && (c <=? 102))%N then Some (c - 87)%N
  else if ((65 <=? c) && (c <=? 70))%N then Some (c - 55)%N
  else None.

(** The code unit a one-letter escape stands for. *)
Definition unescape (c : N) : option N :=
  if N.eqb c ch_quote then Some ch_quote
  else if N.eqb c ch_backslash then Some ch_backslash
  else if N.eqb c ch_slash then Some ch_slash
  else if N.eqb c 98 then Some 8%N
  else if N.eqb c 102 then Some 12%N
  else if N.eqb c 110 then Some 10%N
  else if N.eqb c 114 then Some 13%N
  else if N.eqb c 116 then Some 9%N
  else None.

Definition step_between (c : N) : option (LexState * list Token) :=
  if is_json_ws c then Some (LBetween, [])
  else if N.eqb c ch_lbracket then Some (LBetween, [TLBracket])
  else if N.eqb c ch_rbracket then Some (LBetween, [TRBracket])
  else if N.eqb c ch_lbrace then Some (LBetween, [TLBrace])
  else if N.eqb c ch_rbrace then Some (LBetween, [TRBrace])
  else if N.eqb c ch_comma then Some (LBetween, [TComma])
  else if N.eqb c ch_colon then Some (LBetween, [TColon])
  else if N.eqb c ch_quote then Some (LString [], [])
  else if N.eqb c ch_minus then Some (LNumber NMinus (num_start true 0), [])
  else if N.eqb c 48 then Some (LNumber NZero (num_start false 0), [])
  else if is_digit c then
    Some (LNumber NInt (num_start false (digit_value c)), [])
  else if N.eqb c 116 then Some (LLiteral TTrue (lit "rue"), [])
  else if N.eqb c 102 then Some (LLiteral TFalse (lit "alse"), [])
  else if N.eqb c 110 then Some (LLiteral TNull (lit "ull"), [])
  else None.

(** One code unit: the next state and the tokens completed by it.  The
    content of a string is collected in reverse. *)
Definition lex_step (st : LexState) (c : N) : option (LexState * list Token) :=
  match st with
  | LBetween => step_between c
  | LString acc =>
      if N.eqb c ch_quote then Some (LBetween, [TString (rev acc)])
      else if N.eqb c ch_backslash then Some (LEscape acc, [])
      else if (c <? 32)%N then None
      else Some (LString (c :: acc), [])
  | LEscape acc =>
      match unescape c with
      | Some d => Some (LString (d :: acc), [])
      | None => if N.eqb c 117 then Some (LUnicode acc 4 0%N, []) else None
      end
  | LUnicode acc more code =>
      match hex_value c with
      | None => None
      | Some d =>
          match more with
          | S (S l) => Some (LUnicode acc (S l) (code * 16 + d)%N, [])
          | _ => Some (LString ((code * 16 + d)%N :: acc), [])
          end
      end
  | LLiteral tok rest =>
      match rest with
      | [] => None
      | x :: rest' =>
          if N.eqb c x then
            match rest' with
            | [] => Some (LBetween, [tok])
            | _ => Some (LLiteral tok rest', [])
            end
          else None
      end
  | LNumber ns a =>
      match num_step ns a c with
      | Some (ns', a') => Some (LNumber ns' a', [])
      | None =>
          if num_final ns then
            match step_between c with
            | Some (st', out) => Some (st', num_value a :: out)
            | None => None
            end
          else None
      end
  end.

(** The end of the text. *)
Definition lex_finish (st : LexState) : option (list Token) :=
  match st with
  | LBetween => Some []
  | LNumber ns a => if num_final ns then Some [num_value a] else None
  | _ => None
  end.

Fixpoint lex_run (st : LexState) (s : jsstring) : option (list Token) :=
  match s with
  | [] => lex_finish st
  | c :: s' =>
      match lex_step st c with
      | None => None
      | Some (st', out) =>
          match lex_run st' s' with
          | None => None
          | Some ts => Some (out ++ ts)
          end
      end
  end.

Definition tokenize (s : jsstring) : option (list Token) := lex_run LBetween s.

(** The containers that are open: an array with the elements read so
    far, an object that waits for a key, or an object that waits for the
    value of [key]; elements and members are collected in reverse. *)
Inductive Frame :=
| FArr (done : list JsVal)
| FObj (done : list (jsstring * JsVal))
| FObjVal (done : list (jsstring * JsVal)) (key : jsstring).

(** What the parser expects next. *)
Inductive Mode :=
| MValue
| MValueOrClose
| MKey
| MKeyOrClose
| MColon
| MAfter
| MDone (v : JsVal).

Definition PState := (Mode * list Frame)%type.

(** A value is complete: it is the result, or it joins the container
    that is open. *)
Definition deliver (v : JsVal) (stack : list Frame) : option PState :=
  match stack with
  | [] => Some (MDone v, [])
  | FArr d :: st => Some (MAfter, FArr (v :: d) :: st)
  | FObjVal d k :: st => Some (MAfter, FObj ((k, v) :: d) :: st)
  | FObj _ :: _ => None
  end.

Definition scalar_of (t : Token) : option JsVal :=
  match t with
  | TString s => Some (JStr s)
  | TNumber m e => Some (JNum m e)
  | TTrue => Some (JBool true)
  | TFalse => Some (JBool false)
  | TNull => Some JNull
  | _ => None
  end.

(** One token.  [trailing] says whether a comma may be followed by the
    closing bracket or brace; the JSON grammar does not allow it. *)
Definition parse_step (trailing : bool) (ps : PState) (t : Token)
  : option PState :=
  let (mode, stack) := ps in
  match mode with
  | MValue | MValueOrClose =>
      match t with
      | TLBracket => Some (MValueOrClose, FArr [] :: stack)
      | TLBrace => Some (MKeyOrClose, FObj [] :: stack)
      | TRBracket =>
          match mode, stack with
          | MValueOrClose, FArr d :: st => deliver (JArr (rev d)) st
          | _, _ => None
          end
      | _ =>
          match scalar_of t with
          | Some v => deliver v stack
          | None => None
          end
      end
  | MKey | MKeyOrClose =>
      match t, stack with
      | TString k, FObj d :: st => Some (MColon, FObjVal d k :: st)
      | TRBrace, FObj d :: st =>
          match mode with
          | MKeyOrClose => deliver (JObj (rev d)) st
          | _ => None
          end
      | _, _ => None
      end
  | MColon =>
      match t with
      | TColon => Some (MValue, stack)
      | _ => None
      end
  | MAfter =>
      match t, stack with
      | TComma, FArr _ :: _ =>
          Some (if trailing then MValueOrClose else MValue, stack)
      | TComma, FObj _ :: _ =>
          Some (if trailing then MKeyOrClose else MKey, stack)
      | TRBracket, FArr d :: st => deliver (JArr (rev d)) st
      | TRBrace, FObj d :: st => deliver (JObj (rev d)) st
      | _, _ => None
      end
  | MDone _ => None
  end.

Fixpoint parse_run (trailing : bool) (ps : PState) (ts : list Token)
  : option JsVal :=
  match ts with
  | [] => match ps with (MDone v, _) => Some v | _ => None end
  | t :: ts' =>
      match parse_step trailing ps t with
      | None => None
      | Some ps' => parse_run trailing ps' ts'
      end
  end.

Definition parse_tokens (trailing : bool) (ts : list Token) : option JsVal :=
  parse_run trailing (MValue, []) ts.

Definition parse_text (trailing : bool) (s : jsstring) : option JsVal :=
  match tokenize s with
  | None => None
  | Some ts => parse_tokens trailing ts
  end.

(** The [SyntaxError] of [JSON.parse]; the text of the message is the
    engine's. *)
Definition syntax_error : JsVal :=
  JError KSyntaxError (lit "Unexpected token in JSON").

(** [JSON.parse(s)] *)
Definition JSON_parse (s : jsstring) : Completion JsVal :=
  match parse_text false s with
  | Some v => Normal v
  | None => Throw syntax_error
  end.

(** Text that is JSON but for commas before closing brackets and
    braces: the same grammar with those commas allowed. *)
Definition parse_lenient (s : jsstring) : option JsVal := parse_text true s.

(* ================================================================== *)
(** * [generateQuizQuestions] of [src/server.js] *)
(* ================================================================== *)

(** The response of [fetch]: [ok], [status], and what [text()] and
    [json()] complete with. *)
Record Response := {
  ok : bool;
  status : N;
  body_text : Completion jsstring;
  body_json : Completion JsVal
}.

(** The network: what [await fetch(...)] completes with. *)
Definition Network := Request -> Completion Response.

Definition await_fetch (fetch : Network) (req : Request) : Eff Response :=
  ([EvFetch req], fetch req).

(** A word between double quotes. *)
Definition quoted (w : jsstring) : jsstring := [ch_quote] ++ w ++ [ch_quote].

Definition placeholder_key : jsstring := lit "your_openrouter_api_key_here".

Definition msg_no_key : jsstring :=
  lit "OpenRouter API key not configured. Please add your API key to the .env file.".
Definition msg_bad_key : jsstring :=
  lit "Invalid OpenRouter API key. Please check your API key in the .env file.".
Definition msg_rate_limit : jsstring :=
  lit "Rate limit exceeded. Please try again later.".
Definition msg_no_json : jsstring :=
  lit "Could not find valid JSON in AI response".

(** The lines of the template literal before the transcript. *)
Definition prompt_lines : list jsstring := [
  lit "Based on the following YouTube video transcript, generate exactly 5 multiple-choice quiz questions to help users practice and test their understanding of the content.";
  [];
  lit "IMPORTANT: Respond ONLY with valid JSON. Do not include any explanations, code blocks, or additional text.";
  [];
  lit "Format your response as a JSON array with this exact structure:";
  lit "[";
  lit "  {";
  lit "    " ++ quoted (lit "question") ++ lit ": "
    ++ quoted (lit "Question text here") ++ lit ",";
  lit "    " ++ quoted (lit "options") ++ lit ": ["
    ++ quoted (lit "Option A") ++ lit ", " ++ quoted (lit "Option B")
    ++ lit ", " ++ quoted (lit "Option C") ++ lit ", "
    ++ quoted (lit "Option D") ++ lit "],";
  lit "    " ++ quoted (lit "correct") ++ lit ": 0";
  lit "  }";
  lit "]";
  [];
  lit "Requirements:";
  lit "- " ++ quoted (lit "correct")
    ++ lit " is the index (0-3) of the correct answer";
  lit "- Use simple, clear question text without special characters";
  lit "- Avoid quotes within question text and options";
  lit "- Make questions based directly on the transcript content";
  lit "- Include varied difficulty levels";
  lit "- Create plausible wrong answers";
  [];
  lit "Transcript:"
].

(** [transcript.substring(0, 3000)] *)
Definition call_substring (transcript : JsVal) : Completion jsstring :=
  match transcript with
  | JStr s => Normal (substring0 3000 s)
  | JUndefined | JNull => Throw (type_error_read (lit "substring"))
  | _ => Throw (type_error_call (lit "substring"))
  end.

Definition make_prompt (excerpt : jsstring) : jsstring :=
  join [ch_newline] prompt_lines ++ [ch_newline] ++ excerpt.

Definition make_request (key prompt : jsstring) : Request :=
  {| req_url := lit "https://openrouter.ai/api/v1/chat/completions";
     req_method := lit "POST";
     req_authorization := lit "Bearer " ++ key;
     req_content_type := lit "application/json";
     req_body :=
       JObj [(lit "model", JStr (lit "deepseek/deepseek-r1:free"));
             (lit "messages",
              JArr [JObj [(lit "role", JStr (lit "user"));
                          (lit "content", JStr prompt)]])] |}.

(** [/\[[\s\S]*\]/] *)
Definition re_array : regex :=
  Cat (Chr ch_lbracket) (Cat (Star true any_char) (Chr ch_rbracket)).

(** [/```(?:json)?\s*(\[[\s\S]*?\])\s*```/] *)
Definition re_fenced : regex :=
  Cat (Word (lit "```"))
    (Cat (Opt (Word (lit "json")))
       (Cat (Star true is_space)
          (Cat (Grp (Cat (Chr ch_lbracket)
                       (Cat (Star false any_char) (Chr ch_rbracket))))
             (Cat (Star true is_space) (Word (lit "```")))))).

(** [/,(\s*[}\]])/g] *)
Definition re_trailing_comma : regex :=
  Cat (Chr ch_comma) (Grp (Cat (Star true is_space) (Cls is_closer))).

(** The pattern of the second [replace]: a backslash followed by a
    double quote. *)
Definition re_escaped_quote : regex :=
  Cat (Chr ch_backslash) (Chr ch_quote).

(** [/"\s*\n\s*"/g] *)
Definition re_broken_string : regex :=
  Cat (Chr ch_quote)
    (Cat (Star true is_space)
       (Cat (Chr ch_newline) (Cat (Star true is_space) (Chr ch_quote)))).

(** [/\n/g] *)
Definition re_newline : regex := Chr ch_newline.

(** [/\s+/g] *)
Definition re_spaces : regex := Plus is_space.

(** The chain of [replace] calls and the [trim] of the repair pass. *)
Definition repair (jsonString : jsstring) : jsstring :=
  trim
    (replace_all re_spaces [Text (lit " ")]
       (replace_all re_newline [Text (lit " ")]
          (replace_all re_broken_string [Text (quoted (lit " "))]
             (replace_all re_escaped_quote [Text [ch_quote]]
                (replace_all re_trailing_comma [Group1] jsonString))))).

Definition question (q : jsstring) (o1 o2 o3 o4 : jsstring) (c : Z) : JsVal :=
  JObj [(lit "question", JStr q);
        (lit "options", JArr [JStr o1; JStr o2; JStr o3; JStr o4]);
        (lit "correct", JInt c)].

(** The array literal of the last [catch] block. *)
Definition fallback_questions : JsVal :=
  JArr [
    question (lit "Based on the transcript, what was the main topic discussed?")
      (lit "Technology") (lit "Education") (lit "Entertainment")
      (lit "Business") 0;
    question (lit "What key concept was emphasized in the content?")
      (lit "Innovation") (lit "Learning") (lit "Growth") (lit "Success") 1;
    question (lit "According to the transcript, what approach was recommended?")
      (lit "Traditional methods") (lit "Modern techniques")
      (lit "Hybrid approach") (lit "Custom solutions") 2;
    question (lit "What was the primary goal mentioned?")
      (lit "Efficiency") (lit "Quality") (lit "Understanding")
      (lit "Implementation") 2;
    question (lit "What conclusion can be drawn from the content?")
      (lit "More research needed") (lit "Goals achieved")
      (lit "Progress made") (lit "Challenges remain") 2
  ].

Definition opt_str (o : option jsstring) : JsVal :=
  match o with Some s => JStr s | None => JUndefined end.

(** [JSON.parse(jsonString)]; [undefined] is converted to a text that is
    not JSON. *)
Definition JSON_parse_opt (jsonString : option jsstring) : Completion JsVal :=
  match jsonString with
  | Some s => JSON_parse s
  | None => Throw syntax_error
  end.

(** The chain of [replace] calls on [jsonString]; on [undefined] the
    first call throws. *)
Definition repair_opt (jsonString : option jsstring) : Completion jsstring :=
  match jsonString with
  | Some s => Normal (repair s)
  | None => Throw (type_error_read (lit "replace"))
  end.

(** The two [match] calls: the candidate array, or [null]. *)
Definition find_json (content : jsstring) : option MatchArray :=
  match search re_array content with
  | Some m => Some m
  | None =>
      match search re_fenced content with
      | Some m => Some {| at0 := at1 m; at1 := at1 m |}
      | None => None
      end
  end.

(** The last [catch] block.  [jsonString] is the variable at that
    moment: the repaired text when the chain of [replace] calls
    returned and was assigned, the candidate when the chain threw. *)
Definition second_catch (jsonString : option jsstring) (secondError : JsVal)
  : Eff JsVal :=
  emit (EvConsoleError
          [JStr (lit "Cleaned JSON still invalid:"); opt_str jsonString]) ;;;
  message <- lift (get_prop secondError (lit "message")) ;;
  emit (EvConsoleError [JStr (lit "Parse error:"); message]) ;;;
  ret fallback_questions.

(** From the first [match] to the end of the inner [try] blocks, for a
    model output [content] that is a string. *)
Definition extract_questions (content : jsstring) : Eff JsVal :=
  match find_json content with
  | None =>
      emit (EvConsoleError
              [JStr (lit "No JSON found in AI response:"); JStr content]) ;;;
      throw (new_Error msg_no_json)
  | Some jsonMatch =>
      let jsonString := at0 jsonMatch in
      try_catch
        (questions <- lift (JSON_parse_opt jsonString) ;; ret questions)
        (fun firstError =>
           message <- lift (get_prop firstError (lit "message")) ;;
           emit (EvConsoleLog
                   [JStr (lit "First parse failed, trying to clean JSON:");
                    message]) ;;;
           match repair_opt jsonString with
           | Throw secondError => second_catch jsonString secondError
           | Normal cleaned =>
               try_catch
                 (questions <- lift (JSON_parse cleaned) ;; ret questions)
                 (second_catch (Some cleaned))
           end)
  end.

(** [content.match(...)] when [content] is not a string. *)
Definition extract_from (content : JsVal) : Eff JsVal :=
  match content with
  | JStr s => extract_questions s
  | JUndefined | JNull => throw (type_error_read (lit "match"))
  | _ => throw (type_error_call (lit "match"))
  end.

(** [data.choices[0].message.content] *)
Definition content_of (data : JsVal) : Completion JsVal :=
  match get_prop data (lit "choices") with
  | Throw e => Throw e
  | Normal choices =>
      match get_index0 choices with
      | Throw e => Throw e
      | Normal choice =>
          match get_prop choice (lit "message") with
          | Throw e => Throw e
          | Normal message => get_prop message (lit "content")
          end
      end
  end.

(** The body of the outer [try] block. *)
Definition quiz_try (fetch : Network) (key prompt : jsstring) : Eff JsVal :=
  response <- await_fetch fetch (make_request key prompt) ;;
  if negb (ok response) then
    errorText <- lift (body_text response) ;;
    emit (EvConsoleError
            [JStr (lit "OpenRouter API error response:"); JStr errorText]) ;;;
    if N.eqb (status response) 401 then throw (new_Error msg_bad_key)
    else if N.eqb (status response) 429 then throw (new_Error msg_rate_limit)
    else
      throw (new_Error (lit "OpenRouter API error: "
                          ++ str_of_N (status response)
                          ++ lit " - " ++ errorText))
  else
    data <- lift (body_json response) ;;
    content <- lift (content_of data) ;;
    emit (EvConsoleLog [JStr (lit "AI Response:"); content]) ;;;
    extract_from content.

(** [process.env.OPENROUTER_API_KEY] is a string or [undefined]. *)
Definition generateQuizQuestions (OPENROUTER_API_KEY : option jsstring)
  (fetch : Network) (transcript : JsVal) : Eff JsVal :=
  match OPENROUTER_API_KEY with
  | None | Some [] => throw (new_Error msg_no_key)
  | Some key =>
      if str_eqb key placeholder_key then throw (new_Error msg_no_key)
      else
        excerpt <- lift (call_substring transcript) ;;
        try_catch (quiz_try fetch key (make_prompt excerpt))
          (fun error =>
             emit (EvConsoleError
                     [JStr (lit "Error generating quiz:"); error]) ;;;
             throw error)
  end.

(** A response with status 200 whose body is the chat completion with
    the given model output. *)
Definition completion_with (content : jsstring) : Response :=
  {| ok := true; status := 200;
     body_text := Normal [];
     body_json :=
       Normal (JObj [(lit "choices",
                      JArr [JObj [(lit "message",
                                   JObj [(lit "content", JStr content)])]])]) |}.

Definition model_says (content : jsstring) : Network :=
  fun _ => Normal (completion_with content).

Definition sample_key : jsstring := lit "sk-or-v1-0123".

(* ================================================================== *)
(** * Notions the properties are stated with *)
(* ================================================================== *)

(** The text holds a ['['] that is followed, later, by a [']']. *)
Definition bracket_pair (s : jsstring) : Prop :=
  exists a b c, s = a ++ ch_lbracket :: b ++ ch_rbracket :: c.

(** What follows the last occurrence of [x] in [s]. *)
Fixpoint after_last (x : N) (s : jsstring) : option jsstring :=
  match s with
  | [] => None
  | c :: s' =>
      match after_last x s' with
      | Some r => Some r
      | None => if N.eqb c x then Some s' else None
      end
  end.

(** The invariant of a QuizQuestion in the data model: [question] is a
    string, [options] an array of exactly 4 strings, [correct] an
    integer from 0 to 3 that is an index of [options]. *)
Definition valid_question (v : JsVal) : bool :=
  match get_prop v (lit "question"),
        get_prop v (lit "options"),
        get_prop v (lit "correct") with
  | Normal (JStr _), Normal (JArr options), Normal (JNum c 0) =>
      Nat.eqb (List.length options) 4
      && forallb is_string options
      && (0 <=? c)%Z && (c <=? 3)%Z
      && (c <? Z.of_nat (List.length options))%Z
  | _, _, _ => false
  end.

(** The model output of the example in the specification: prose, then
    an array with one question. *)
Definition sure_array : jsstring :=
  lit "[{" ++ quoted (lit "question") ++ lit ":" ++ quoted (lit "Q")
  ++ lit "," ++ quoted (lit "options") ++ lit ":[" ++ quoted (lit "A")
  ++ lit "," ++ quoted (lit "B") ++ lit "," ++ quoted (lit "C") ++ lit ","
  ++ quoted (lit "D") ++ lit "]," ++ quoted (lit "correct") ++ lit ":1}]".

Definition sure_output : jsstring := lit "Sure! " ++ sure_array.

Definition sure_quiz : JsVal :=
  JArr [question (lit "Q") (lit "A") (lit "B") (lit "C") (lit "D") 1].

Definition plain_output : jsstring := lit "I am sorry, I cannot help with that.".

Definition is_suffix (t s : jsstring) : Prop := exists pre, s = pre ++ t.

(** A key that passes the check of the first lines: neither empty nor
    the placeholder of the sample [.env] file. *)
Definition usable_key (key : jsstring) : Prop :=
  key <> [] /\ str_eqb key placeholder_key = false.

(** The request [generateQuizQuestions] sends for a transcript. *)
Definition request_for (key t : jsstring) : Request :=
  make_request key (make_prompt (substring0 3000 t)).

(** The network answers the request with a response whose status is in
    the 2xx range and whose body is a chat completion with model output
    [content]. *)
Definition answers_with (fetch : Network) (req : Request)
  (content : jsstring) : Prop :=
  exists resp data,
    fetch req = Normal resp /\ ok resp = true
    /\ body_json resp = Normal data
    /\ content_of data = Normal (JStr content).

(* ================================================================== *)
(** * Shapes: tokens, scanner and parser states up to string contents *)
(* ================================================================== *)

(** The repair pass changes the contents of strings; whether a text is
    accepted depends on its tokens up to those contents only. *)
Definition shape_tok (t : Token) : Token :=
  match t with
  | TString _ => TString []
  | _ => t
  end.

Definition shape_st (st : LexState) : LexState :=
  match st with
  | LString _ => LString []
  | LEscape _ => LEscape []
  | LUnicode _ more _ => LUnicode [] more 0%N
  | _ => st
  end.

Definition shape_frame (f : Frame) : Frame :=
  match f with
  | FArr _ => FArr []
  | FObj _ => FObj []
  | FObjVal _ _ => FObjVal [] []
  end.

(** Of a result only whether it is an array is kept. *)
Definition shape_val (v : JsVal) : JsVal :=
  match v with
  | JArr _ => JArr []
  | _ => JNull
  end.

Definition shape_mode (m : Mode) : Mode :=
  match m with
  | MDone v => MDone (shape_val v)
  | _ => m
  end.

Definition shape_ps (ps : PState) : PState :=
  (shape_mode (fst ps), List.map shape_frame (snd ps)).

Definition is_closer_tok (t : Token) : bool :=
  match t with
  | TRBracket | TRBrace => true
  | _ => false
  end.

Definition is_comma_tok (t : Token) : bool :=
  match t with
  | TComma => true
  | _ => false
  end.

(** The tokens without the commas that stand before a closing bracket
    or brace. *)
Fixpoint strip_tc (ts : list Token) : list Token :=
  match ts with
  | [] => []
  | t :: ts' =>
      if is_comma_tok t
         && match ts' with t' :: _ => is_closer_tok t' | [] => false end
      then strip_tc ts'
      else t :: strip_tc ts'
  end.

(** The states of the lenient parser and of the parser of JSON after
    the same tokens: equal, or the lenient one has just read a comma
    and would also accept the closing bracket or brace. *)
Definition lenient_of (strict lenient : PState) : Prop :=
  lenient = strict
  \/ (exists stack, strict = (MValue, stack) /\ lenient = (MValueOrClose, stack))
  \/ (exists stack, strict = (MKey, stack) /\ lenient = (MKeyOrClose, stack)).

Definition starts_with_closer (ts : list Token) : bool :=
  match ts with
  | t :: _ => is_closer_tok t
  | [] => false
  end.

Definition is_lower (c : N) : bool := ((97 <=? c) && (c <=? 122))%N.

(** The states the scanner can be in: a literal is a word of lower-case
    letters that stands for [true], [false] or [null]. *)
Definition state_ok (st : LexState) : Prop :=
  match st with
  | LLiteral tok rest =>
      forallb is_lower rest = true
      /\ is_closer_tok tok = false /\ is_comma_tok tok = false
  | _ => True
  end.

(** The scanner is inside a token. *)
Definition inside_token (st : LexState) : bool :=
  match st with
  | LBetween => false
  | _ => true
  end.

(** The scanner has just read white space: it is between tokens or in a
    string. *)
Definition after_space (st : LexState) : bool :=
  match st with
  | LBetween | LString _ => true
  | _ => false
  end.

Definition shape_out (r : LexState * list Token) : LexState * list Token :=
  (shape_st (fst r), List.map shape_tok (snd r)).

(** The tokens of a text, up to the contents of strings. *)
Definition lex_shape (st : LexState) (s : jsstring) : option (list Token) :=
  option_map (List.map shape_tok) (lex_run st s).

(* ================================================================== *)
(** * The [replace] calls of the repair pass, one code unit at a time *)
(* ================================================================== *)

(** A closing bracket or brace comes next, after white space at most. *)
Definition closer_ahead (s : jsstring) : bool :=
  match drop_space s with
  | d :: _ => is_closer d
  | [] => false
  end.

(** The text without the commas that [/,(\s*[}\]])/g] matches. *)
Fixpoint strip_commas (s : jsstring) : jsstring :=
  match s with
  | [] => []
  | c :: s' =>
      if N.eqb c ch_comma && closer_ahead s' then strip_commas s'
      else c :: strip_commas s'
  end.

(** The text holds a backslash that is followed by a double quote. *)
Fixpoint has_escaped_quote (s : jsstring) : bool :=
  match s with
  | [] => false
  | c :: s' =>
      (N.eqb c ch_backslash
       && match s' with d :: _ => N.eqb d ch_quote | [] => false end)
      || has_escaped_quote s'
  end.

(** The run of white space at the start of the text holds a line feed. *)
Fixpoint newline_in_run (s : jsstring) : bool :=
  match s with
  | c :: s' => is_space c && (N.eqb c ch_newline || newline_in_run s')
  | [] => false
  end.

Definition nl_to_space (c : N) : N :=
  if N.eqb c ch_newline then ch_space else c.

(** Every run of white space becomes one space; [in_run] says that the
    code unit before was white space. *)
Fixpoint collapse_from (in_run : bool) (s : jsstring) : jsstring :=
  match s with
  | [] => []
  | c :: s' =>
      if is_space c then
        if in_run then collapse_from true s'
        else ch_space :: collapse_from true s'
      else c :: collapse_from false s'
  end.

(** A double quote comes first: what follows it. *)
Definition after_quote (s : jsstring) : option (jsstring * option jsstring) :=
  match s with
  | d :: t => if N.eqb d ch_quote then Some (t, None) else None
  | [] => None
  end.

(** A fenced code block, with the tag [json] or without, around [body],
    with white space [w1] and [w2] between the fences and the body. *)
Definition fenced (tagged : bool) (w1 body w2 : jsstring) : jsstring :=
  lit "```" ++ (if tagged then lit "json" else []) ++ w1 ++ body ++ w2
  ++ lit "```".

(** A question with trailing commas after the last option, the last
    member and the last element; [trailing_inner] is what stands between
    the outer brackets. *)
Definition trailing_inner : jsstring :=
  lit "{" ++ quoted (lit "question") ++ lit ":" ++ quoted (lit "Q")
  ++ lit "," ++ quoted (lit "options") ++ lit ":[" ++ quoted (lit "A")
  ++ lit "," ++ quoted (lit "B") ++ lit "," ++ quoted (lit "C") ++ lit ","
  ++ quoted (lit "D") ++ lit ",]," ++ quoted (lit "correct")
  ++ lit ":1,}," ++ [ch_newline].

Definition trailing_array : jsstring :=
  ch_lbracket :: trailing_inner ++ [ch_rbracket].

(** A question whose text holds escaped quotes, the word hi between
    them, with a comma before the closing brace or without it. *)
Definition escaped_question (comma : bool) : jsstring :=
  lit "[{" ++ quoted (lit "question") ++ lit ":"
  ++ quoted (lit "Say " ++ [ch_backslash]
             ++ quoted (lit "hi" ++ [ch_backslash]))
  ++ lit "," ++ quoted (lit "correct") ++ lit ":1"
  ++ (if comma then lit "," else []) ++ lit "}]".

Definition escaped_array : jsstring := escaped_question true.

Definition escaped_quiz : JsVal :=
  JArr [JObj [(lit "question",
               JStr (lit "Say " ++ quoted (lit "hi")));
              (lit "correct", JInt 1)]].

Definition first_parse_failed : Event :=
  EvConsoleLog [JStr (lit "First parse failed, trying to clean JSON:");
                JStr (lit "Unexpected token in JSON")].

(** A comma stands before a closing bracket or brace. *)
Fixpoint trailing_comma_in (ts : list Token) : bool :=
  match ts with
  | [] => false
  | t :: ts' =>
      (is_comma_tok t && starts_with_closer ts') || trailing_comma_in ts'
  end.

Definition has_trailing_comma (s : jsstring) : bool :=
  match tokenize s with
  | Some ts => trailing_comma_in ts
  | None => false
  end.

(* ================================================================== *)
(** * The route handlers of [src/server.js] *)
(* ================================================================== *)

(** What a handler sends: [res.status(code).json(body)], or
    [res.json(body)] with the status 200; [http_body] is the value given
    to [json]. *)
Record HttpResponse := {
  http_status : N;
  http_body : JsVal
}.

(** The effects of a handler: those of the function it calls and of its
    own console calls, and [console.log] of a template literal, kept as
    the chunks of the literal and the values put between them, in
    order (their conversion to text is not modelled). *)
Inductive RouteEvent :=
| Core (e : Event)
| LogTemplate (chunks : list JsVal).

(** A handler run: the log and the response sent, or the value the
    handler's promise rejects with when nothing was sent. *)
Definition Route (A : Type) : Type := (list RouteEvent * Completion A)%type.

Definition rret {A} (a : A) : Route A := ([], Normal a).

Definition rbind {A B} (m : Route A) (f : A -> Route B) : Route B :=
  match m with
  | (l, Normal a) => let (l', c) := f a in (l ++ l', c)
  | (l, Throw v) => (l, Throw v)
  end.

Definition rtry {A} (m : Route A) (h : JsVal -> Route A) : Route A :=
  match m with
  | (l, Normal a) => (l, Normal a)
  | (l, Throw v) => let (l', c) := h v in (l ++ l', c)
  end.

Definition remit (e : RouteEvent) : Route unit := ([e], Normal tt).

Definition rlift {A} (c : Completion A) : Route A := ([], c).

(** A call of one of the two functions, with its effects. *)
Definition core {A} (m : Eff A) : Route A := (List.map Core (fst m), snd m).

Definition respond (code : N) (body : JsVal) : Route HttpResponse :=
  rret {| http_status := code; http_body := body |}.

Declare Scope route_scope.
Delimit Scope route_scope with route.
Notation "x <- m ;; k" := (rbind m (fun x => k))
  (at level 61, m at next level, right associativity) : route_scope.
Notation "m ;;; k" := (rbind m (fun _ => k))
  (at level 61, right associativity) : route_scope.

(** [v.length]: of a string and of an array their length, of an object
    its own property. *)
Definition get_length (v : JsVal) : Completion JsVal :=
  match v with
  | JUndefined | JNull => Throw (type_error_read (lit "length"))
  | JStr s => Normal (JInt (Z.of_nat (List.length s)))
  | JArr items => Normal (JInt (Z.of_nat (List.length items)))
  | JObj props =>
      match own_prop props (lit "length") with
      | Some x => Normal x
      | None => Normal JUndefined
      end
  | _ => Normal JUndefined
  end.

(** [v.split(' ').length] *)
Definition split_count (v : JsVal) : Completion JsVal :=
  match v with
  | JStr s => Normal (JInt (Z.of_nat (List.length (str_split ch_space s))))
  | JUndefined | JNull => Throw (type_error_read (lit "split"))
  | _ => Throw (type_error_call (lit "split"))
  end.

(** [v && v.key], as a condition. *)
Definition and_prop (v : JsVal) (key : jsstring) : Completion bool :=
  if truthy v then
    match get_prop v key with
    | Normal x => Normal (truthy x)
    | Throw e => Throw e
    end
  else Normal false.

Definition msg_id_required : jsstring := lit "Video ID is required".
Definition msg_transcript_required : jsstring := lit "Transcript is required".
Definition msg_invalid_quiz : jsstring :=
  lit "Failed to generate valid quiz questions".
Definition msg_quiz_failed : jsstring :=
  lit "Failed to generate quiz questions. Please try again.".

(** The body of the success response of [/get-transcript]. *)
Definition transcript_payload (videoId transcript len words : JsVal) : JsVal :=
  JObj [(lit "success", JBool true);
        (lit "message", JStr (lit "Transcript extracted successfully"));
        (lit "videoId", videoId);
        (lit "transcript", transcript);
        (lit "transcriptLength", len);
        (lit "wordCount", words)].

(** [app.post("/get-transcript", ...)]; [body] is [req.body]. *)
Definition get_transcript_route (getSubtitles : Provider) (body : JsVal)
  : Route HttpResponse :=
  (videoId <- rlift (get_prop body (lit "videoId")) ;;
   if negb (truthy videoId) then
     respond 400 (error_object msg_id_required)
   else
     rtry
       (transcript <- core (getYouTubeTranscript getSubtitles videoId) ;;
        failed <- rlift (and_prop transcript (lit "error")) ;;
        if failed then
          message <- rlift (get_prop transcript (lit "error")) ;;
          respond 404 (JObj [(lit "error", message)])
        else
          remit (LogTemplate
                   [JStr ([ch_newline] ++ lit "=== TRANSCRIPT FOR VIDEO: ");
                    videoId; JStr (lit " ===")]) ;;;
          remit (Core (EvConsoleLog [transcript])) ;;;
          remit (Core (EvConsoleLog
                         [JStr (lit "=== END OF TRANSCRIPT ==="
                                  ++ [ch_newline])])) ;;;
          len <- rlift (get_length transcript) ;;
          words <- rlift (split_count transcript) ;;
          respond 200 (transcript_payload videoId transcript len words))
       (fun error =>
          remit (Core (EvConsoleError
                         [JStr (lit "Error in transcript route:"); error])) ;;;
          respond 500 (error_object msg_failed)))%route.

(** [error.message.includes(phrase)] *)
Definition message_includes (error : JsVal) (phrase : jsstring)
  : Completion bool :=
  match get_prop error (lit "message") with
  | Normal message => call_includes message phrase
  | Throw e => Throw e
  end.

(** The [catch] block of [/generate-quiz]. *)
Definition quiz_route_catch (error : JsVal) : Route HttpResponse :=
  (remit (Core (EvConsoleError
                  [JStr (lit "Error generating quiz:"); error])) ;;;
   no_key <- rlift (message_includes error (lit "API key not configured")) ;;
   credential <-
     (if no_key then rret true
      else rlift (message_includes error (lit "Invalid OpenRouter API key"))) ;;
   if credential then
     message <- rlift (get_prop error (lit "message")) ;;
     respond 400 (JObj [(lit "error", message)])
   else
     rate <- rlift (message_includes error (lit "Rate limit")) ;;
     if rate then
       message <- rlift (get_prop error (lit "message")) ;;
       respond 429 (JObj [(lit "error", message)])
     else
       parse <- rlift (message_includes error (lit "parse")) ;;
       if parse then respond 500 (error_object msg_invalid_quiz)
       else respond 500 (error_object msg_quiz_failed))%route.

(** [app.post("/generate-quiz", ...)]; [body] is [req.body]. *)
Definition generate_quiz_route (OPENROUTER_API_KEY : option jsstring)
  (fetch : Network) (body : JsVal) : Route HttpResponse :=
  (transcript <- rlift (get_prop body (lit "transcript")) ;;
   if negb (truthy transcript) then
     respond 400 (error_object msg_transcript_required)
   else
     rtry
       (remit (Core (EvConsoleLog
                       [JStr (lit "Generating quiz questions from transcript...")])) ;;;
        questions <- core (generateQuizQuestions OPENROUTER_API_KEY fetch
                             transcript) ;;
        count <- rlift (get_length questions) ;;
        remit (LogTemplate
                 [JStr (lit "Generated "); count;
                  JStr (lit " quiz questions")]) ;;;
        respond 200 (JObj [(lit "success", JBool true);
                           (lit "questions", questions)]))
       quiz_route_catch)%route.

(** A request body [{key: value}]. *)
Definition body_with (key : jsstring) (value : JsVal) : JsVal :=
  JObj [(key, value)].

(** An [Error] instance. *)
Definition is_error (v : JsVal) : bool :=
  match v with JError _ _ => true | _ => false end.

Definition is_array (v : JsVal) : bool :=
  match v with JArr _ => true | _ => false end.

Definition is_fetch (e : Event) : bool :=
  match e with EvFetch _ => true | _ => false end.

(** The state of the parser is that of a text that started with ['[']:
    the outermost open container is an array, or the result is one. *)
Fixpoint bottom_array (stack : list Frame) : bool :=
  match stack with
  | [] => false
  | [f] => match f with FArr _ => true | _ => false end
  | _ :: st => bottom_array st
  end.

Definition in_array (ps : PState) : bool :=
  match ps with
  | (MDone v, _) => is_array v
  | (_, stack) => bottom_array stack
  end.

(** The network rejects with [Error] instances only: [fetch], and
    [text()] and [json()] of its responses. *)
Definition rejects_with_errors (fetch : Network) : Prop :=
  forall req,
    match fetch req with
    | Throw e => is_error e = true
    | Normal resp =>
        match body_text resp with Throw e => is_error e = true | _ => True end
        /\ match body_json resp with Throw e => is_error e = true | _ => True end
    end.

(** White space in the text is the single space, and no two of them are
    adjacent; [after_space] says that the code unit before was one (or
    that the text starts here, where a space is not accepted either). *)
Fixpoint spaced_singly (after_space : bool) (s : jsstring) : bool :=
  match s with
  | [] => true
  | c :: s' =>
      if is_space c then
        N.eqb c ch_space && negb after_space && spaced_singly true s'
      else spaced_singly false s'
  end.

(** The response the [catch] block of [/generate-quiz] gives for an
    error with message [m]. *)
Definition error_response (m : jsstring) : HttpResponse :=
  if includes m (lit "API key not configured")
     || includes m (lit "Invalid OpenRouter API key")
  then {| http_status := 400; http_body := error_object m |}
  else if includes m (lit "Rate limit")
  then {| http_status := 429; http_body := error_object m |}
  else if includes m (lit "parse")
  then {| http_status := 500; http_body := error_object msg_invalid_quiz |}
  else {| http_status := 500; http_body := error_object msg_quiz_failed |}.

(** The message of the error thrown for a response whose status is not
    in the 2xx range. *)
Definition status_message (code : N) (errorText : jsstring) : jsstring :=
  if N.eqb code 401 then msg_bad_key
  else if N.eqb code 429 then msg_rate_limit
  else lit "OpenRouter API error: " ++ str_of_N code ++ lit " - " ++ errorText.

(** A network that answers every request with the given status, outside
    the 2xx range, and body text. *)
Definition refuses_with (code : N) (errorText : jsstring) : Network :=
  fun _ => Normal {| ok := false; status := code;
                     body_text := Normal errorText;
                     body_json := Throw (JError KSyntaxError
                                           (lit "Unexpected token in JSON")) |}.

(** A network that is down. *)
Definition unreachable : Network :=
  fun _ => Throw (JError KTypeError (lit "fetch failed")).


(** The first line [/generate-quiz] logs, and the body of its success
    response. *)
Definition log_generating : RouteEvent :=
  Core (EvConsoleLog [JStr (lit "Generating quiz questions from transcript...")]).

Definition quiz_payload (questions : JsVal) : JsVal :=
  JObj [(lit "success", JBool true); (lit "questions", questions)].

Definition log_generated (items : list JsVal) : RouteEvent :=
  LogTemplate [JStr (lit "Generated "); JInt (Z.of_nat (List.length items));
               JStr (lit " quiz questions")].


(* ================================================================== *)
(** * Part II: properties *)
(* ================================================================== *)

(* ------------------------------------------------------------------ *)
(** ** The transcript assembler *)
(* ------------------------------------------------------------------ *)

Section TranscriptAssembler.

Variable getSubtitles : Provider.

Lemma split_acc_length (sep : N) (s cur : jsstring) :
  List.length (split_acc sep s cur) = S (count_occ N.eq_dec s sep).
Proof.
  revert cur; induction s as [|c s IH]; intros cur; simpl.
  - reflexivity.
  - destruct (N.eqb_spec c sep) as [->|Hne].
    + destruct (N.eq_dec sep sep) as [_|Hc]; [|congruence].
      simpl. now rewrite IH.
    + destruct (N.eq_dec c sep) as [Hc|_]; [congruence|]. apply IH.
Qed.

(** [s.split(' ').length] is one more than the number of spaces. *)
Lemma split_length (sep : N) (s : jsstring) :
  List.length (str_split sep s) = S (count_occ N.eq_dec s sep).
Proof. apply split_acc_length. Qed.

Lemma catch_invalid_id :
  transcript_catch (new_Error (lit "Invalid video ID provided"))
  = ([], Normal (error_object msg_invalid_id)).
Proof. reflexivity. Qed.

Lemma catch_no_captions :
  transcript_catch (new_Error (lit "No captions found for this video"))
  = ([], Normal (error_object msg_no_captions)).
Proof. reflexivity. Qed.

(** Whatever the message of a thrown [Error] is, the [catch] block
    returns one of its three error objects. *)
Lemma catch_error_instance (k : ErrorKind) (m : jsstring) :
  exists v, transcript_catch (JError k m) = ([], Normal v)
            /\ is_error_object v = true.
Proof.
  unfold transcript_catch, lift, bind, get_prop, call_includes.
  change (str_eqb (lit "message") (lit "message")) with true. cbv iota beta.
  destruct (includes m (lit "No captions")).
  - eexists; split; reflexivity.
  - cbv iota beta. destruct (includes m (lit "Invalid video ID")).
    + eexists; split; reflexivity.
    + eexists; split; reflexivity.
Qed.

Lemma try_valid_id (id : jsstring) :
  id <> [] ->
  transcript_try getSubtitles (JStr id)
  = (captions <- await_getSubtitles getSubtitles (JStr id) (lit "en") ;;
     match captions with
     | None | Some [] =>
         throw (new_Error (lit "No captions found for this video"))
     | Some (c :: cs) =>
         if (List.length (str_split ch_space (joined_text (c :: cs))) <? 50)%nat
         then ret (error_object msg_not_enough)
         else ret (JStr (joined_text (c :: cs)))
     end).
Proof.
  intros Hid. unfold transcript_try.
  destruct id as [|c id]; [congruence|]. reflexivity.
Qed.

(** C8: a [videoId] that is missing, not a string or the empty string
    yields [{error: "Invalid YouTube video ID provided"}], and the
    captions provider is not contacted (the log of effects is empty). *)
Theorem invalid_videoId_rejected (videoId : JsVal) :
  is_string videoId = false \/ videoId = JStr [] ->
  getYouTubeTranscript getSubtitles videoId
  = ([], Normal (error_object msg_invalid_id)).
Proof.
  intros H. unfold getYouTubeTranscript, transcript_try.
  assert (G : negb (truthy videoId) || negb (is_string videoId) = true).
  { destruct H as [H| ->]; [rewrite H; apply orb_true_r | reflexivity]. }
  rewrite G. unfold throw, try_catch. now rewrite catch_invalid_id.
Qed.

(** C3, as the code has it: the gate counts the pieces of
    [transcript.split(' ')], one more than the number of U+0020 in the
    text, and below 50 pieces the error object is returned as a value. *)
Theorem short_transcript_gate (id : jsstring) (captions : list Caption) :
  id <> [] ->
  getSubtitles (JStr id) (lit "en") = Resolves (Some captions) ->
  captions <> [] ->
  (List.length (str_split ch_space (joined_text captions)) < 50)%nat ->
  List.length (str_split ch_space (joined_text captions))
    = S (count_occ N.eq_dec (joined_text captions) ch_space)
  /\ getYouTubeTranscript getSubtitles (JStr id)
     = ([EvGetSubtitles (JStr id) (lit "en")],
        Normal (error_object msg_not_enough)).
Proof.
  intros Hid Hp Hne Hlt. split; [apply split_length|].
  unfold getYouTubeTranscript. rewrite (try_valid_id Hid).
  unfold await_getSubtitles. rewrite Hp.
  destruct captions as [|c cs]; [congruence|].
  unfold bind. apply Nat.ltb_lt in Hlt. rewrite Hlt. reflexivity.
Qed.

(** C4, as the code has it: when [transcript.split(' ')] has at least
    50 pieces, the result is the texts of the fragments joined with one
    space, in the order the provider gave them. *)
Theorem long_transcript_returned (id : jsstring) (captions : list Caption) :
  id <> [] ->
  getSubtitles (JStr id) (lit "en") = Resolves (Some captions) ->
  captions <> [] ->
  (50 <= List.length (str_split ch_space (joined_text captions)))%nat ->
  getYouTubeTranscript getSubtitles (JStr id)
  = ([EvGetSubtitles (JStr id) (lit "en")],
     Normal (JStr (join (lit " ") (List.map text captions)))).
Proof.
  intros Hid Hp Hne Hge.
  unfold getYouTubeTranscript. rewrite (try_valid_id Hid).
  unfold await_getSubtitles. rewrite Hp.
  destruct captions as [|c cs]; [congruence|].
  unfold bind. apply Nat.ltb_ge in Hge. rewrite Hge. reflexivity.
Qed.

(** When everything the provider throws is an [Error] instance, the
    promise of [getYouTubeTranscript] resolves, with the transcript or
    with an error object. *)
Lemma transcript_resolves_on_error_instances (videoId : JsVal) :
  (forall v, getSubtitles videoId (lit "en") = Rejects v ->
             exists k m, v = JError k m) ->
  exists l v, getYouTubeTranscript getSubtitles videoId = (l, Normal v)
              /\ (is_error_object v = true \/ is_string v = true).
Proof.
  intros Herr. unfold getYouTubeTranscript, transcript_try.
  destruct (negb (truthy videoId) || negb (is_string videoId)).
  - unfold throw, try_catch. rewrite catch_invalid_id.
    do 2 eexists; split; [reflexivity | left; reflexivity].
  - unfold await_getSubtitles.
    destruct (getSubtitles videoId (lit "en")) as [captions|v] eqn:Hp.
    + destruct captions as [[|c cs]|]; unfold bind, throw, try_catch;
        try (rewrite catch_no_captions;
             do 2 eexists; split; [reflexivity | left; reflexivity]).
      destruct (_ <? 50)%nat;
        do 2 eexists; (split; [reflexivity|]); [left | right]; reflexivity.
    + destruct (Herr v eq_refl) as (k & m & ->).
      destruct (catch_error_instance k m) as (v & Hv & Hshape).
      unfold bind, try_catch. rewrite Hv.
      do 2 eexists; split; [reflexivity | now left].
Qed.

End TranscriptAssembler.

Lemma invalid_videoId_rejected_witness :
  getYouTubeTranscript (const_provider (Resolves None)) (JInt 42)
  = ([], Normal (error_object msg_invalid_id)).
Proof. apply invalid_videoId_rejected. left. reflexivity. Defined.

Lemma short_transcript_gate_witness :
  List.length (str_split ch_space (joined_text [caption (lit "too short")]))
    = S (count_occ N.eq_dec (joined_text [caption (lit "too short")]) ch_space)
  /\ getYouTubeTranscript
       (const_provider (Resolves (Some [caption (lit "too short")])))
       (JStr sample_id)
     = ([EvGetSubtitles (JStr sample_id) (lit "en")],
        Normal (error_object msg_not_enough)).
Proof.
  apply short_transcript_gate.
  - discriminate.
  - reflexivity.
  - discriminate.
  - vm_compute. lia.
Defined.

(** C3 fails for a count of white-space separated words: 25 fragments
    ["hi "] hold 25 words, [split(' ')] yields 50 pieces, and the text
    is returned instead of the error object. *)
Lemma short_transcript_gate_counterexample :
  padded_fragments <> []
  /\ (spec_word_count (joined_text padded_fragments) < 50)%nat
  /\ getYouTubeTranscript
       (const_provider (Resolves (Some padded_fragments))) (JStr sample_id)
     = ([EvGetSubtitles (JStr sample_id) (lit "en")],
        Normal (JStr (joined_text padded_fragments)))
  /\ JStr (joined_text padded_fragments) <> error_object msg_not_enough.
Proof.
  split; [discriminate|]. split; [vm_compute; lia|].
  split; [vm_compute; reflexivity | discriminate].
Qed.

Lemma long_transcript_returned_witness :
  getYouTubeTranscript
    (const_provider (Resolves (Some fifty_fragments))) (JStr sample_id)
  = ([EvGetSubtitles (JStr sample_id) (lit "en")],
     Normal (JStr (join (lit " ") (List.map text fifty_fragments)))).
Proof.
  apply long_transcript_returned.
  - discriminate.
  - reflexivity.
  - discriminate.
  - vm_compute. lia.
Defined.

(** C4 fails for a count of white-space separated words: 25 fragments
    of two lines hold 50 words, [split(' ')] yields 25 pieces, and the
    error object is returned instead of the joined text. *)
Lemma long_transcript_returned_counterexample :
  two_line_fragments <> []
  /\ (50 <= spec_word_count (joined_text two_line_fragments))%nat
  /\ getYouTubeTranscript
       (const_provider (Resolves (Some two_line_fragments))) (JStr sample_id)
     = ([EvGetSubtitles (JStr sample_id) (lit "en")],
        Normal (error_object msg_not_enough))
  /\ error_object msg_not_enough
     <> JStr (join (lit " ") (List.map text two_line_fragments)).
Proof.
  split; [discriminate|]. split; [vm_compute; lia|].
  split; [vm_compute; reflexivity | discriminate].
Qed.

(** C2 fails on the code: when the provider rejects with a value that
    is not an [Error] (here a string), [error.message] is [undefined],
    the call of [includes] throws inside the [catch] block, and the
    promise of [getYouTubeTranscript] rejects with that [TypeError]. *)
Theorem rejection_escapes_catch :
  getYouTubeTranscript
    (const_provider (Rejects (JStr (lit "Request timed out"))))
    (JStr sample_id)
  = ([EvGetSubtitles (JStr sample_id) (lit "en")],
     Throw (type_error_read (lit "includes"))).
Proof. vm_compute. reflexivity. Qed.

(** The same for every thrown value whose [message] is neither a string
    nor an array: nothing is returned, a [TypeError] escapes. *)
Lemma rejection_escapes_without_message (id : jsstring) (v : JsVal) :
  id <> [] ->
  match v with JError _ _ | JObj _ => False | _ => True end ->
  exists e,
    getYouTubeTranscript (const_provider (Rejects v)) (JStr id)
    = ([EvGetSubtitles (JStr id) (lit "en")], Throw (JError KTypeError e)).
Proof.
  intros Hid Hv. unfold getYouTubeTranscript. rewrite (try_valid_id _ Hid).
  destruct v; try contradiction; eexists; reflexivity.
Qed.

(* ------------------------------------------------------------------ *)
(** ** The matcher *)
(* ------------------------------------------------------------------ *)

Lemma is_suffix_refl (s : jsstring) : is_suffix s s.
Proof. now exists []. Qed.

Lemma is_suffix_cons (c : N) (t s : jsstring) :
  is_suffix t s -> is_suffix t (c :: s).
Proof. intros [pre ->]. now exists (c :: pre). Qed.

Lemma is_suffix_trans (u t s : jsstring) :
  is_suffix u t -> is_suffix t s -> is_suffix u s.
Proof. intros [p ->] [q ->]. exists (q ++ p). now rewrite app_assoc. Qed.

Lemma star_greedy_suffix A (p : N -> bool) (k : jsstring -> option A) s x :
  star_greedy p k s = Some x -> exists s', is_suffix s' s /\ k s' = Some x.
Proof.
  induction s as [|c s IH]; simpl; intros H.
  - exists []. split; [apply is_suffix_refl | exact H].
  - destruct (p c).
    + destruct (star_greedy p k s) as [y|] eqn:E.
      * destruct (IH H) as (s' & Hs & Hk).
        exists s'. split; [now apply is_suffix_cons | exact Hk].
      * exists (c :: s). split; [apply is_suffix_refl | exact H].
    + exists (c :: s). split; [apply is_suffix_refl | exact H].
Qed.

Lemma star_lazy_suffix A (p : N -> bool) (k : jsstring -> option A) s x :
  star_lazy p k s = Some x -> exists s', is_suffix s' s /\ k s' = Some x.
Proof.
  induction s as [|c s IH]; simpl; intros H.
  - destruct (k []) eqn:E; [|discriminate].
    exists []. split; [apply is_suffix_refl | congruence].
  - destruct (k (c :: s)) eqn:E.
    + exists (c :: s). split; [apply is_suffix_refl | congruence].
    + destruct (p c); [|discriminate].
      destruct (IH H) as (s' & Hs & Hk).
      exists s'. split; [now apply is_suffix_cons | exact Hk].
Qed.

Lemma rmatch_cat A (r1 r2 : regex) s cap
  (k : jsstring -> option jsstring -> option A) :
  rmatch (Cat r1 r2) s cap k
  = rmatch r1 s cap (fun s' cap' => rmatch r2 s' cap' k).
Proof. reflexivity. Qed.

Lemma rmatch_grp A (r : regex) s cap
  (k : jsstring -> option jsstring -> option A) :
  rmatch (Grp r) s cap k
  = rmatch r s cap
      (fun s' _ => k s' (Some (firstn (List.length s - List.length s') s))).
Proof. reflexivity. Qed.

(** A successful match has called its continuation on a suffix of the
    text. *)
Lemma rmatch_suffix A (r : regex) :
  forall s cap (k : jsstring -> option jsstring -> option A) x,
    rmatch r s cap k = Some x ->
    exists s' cap', is_suffix s' s /\ k s' cap' = Some x.
Proof.
  induction r as [|p|r1 IH1 r2 IH2|g p|r IH|r IH]; intros s cap k x H; simpl in H.
  - exists s, cap. split; [apply is_suffix_refl | exact H].
  - destruct s as [|c s]; [discriminate|]. destruct (p c); [|discriminate].
    exists s, cap. split; [apply is_suffix_cons, is_suffix_refl | exact H].
  - destruct (IH1 _ _ _ _ H) as (s1 & c1 & Hs1 & H1).
    destruct (IH2 _ _ _ _ H1) as (s2 & c2 & Hs2 & H2).
    exists s2, c2. split; [eapply is_suffix_trans; eassumption | exact H2].
  - destruct g.
    + destruct (star_greedy_suffix _ _ _ H) as (s' & Hs & Hk).
      now exists s', cap.
    + destruct (star_lazy_suffix _ _ _ H) as (s' & Hs & Hk).
      now exists s', cap.
  - destruct (rmatch r s cap k) as [y|] eqn:E.
    + injection H as <-. exact (IH _ _ _ _ E).
    + exists s, cap. split; [apply is_suffix_refl | exact H].
  - destruct (IH _ _ _ _ H) as (s' & c' & Hs & Hk).
    exists s', (Some (firstn (List.length s - List.length s') s)).
    split; assumption.
Qed.

Lemma search_some_suffix (r : regex) (s : jsstring) (m : MatchArray) :
  search r s = Some m ->
  exists t, is_suffix t s /\ match_here r t <> None.
Proof.
  induction s as [|c s IH]; simpl; intros H.
  - exists []. split; [apply is_suffix_refl|].
    destruct (match_here r []); [discriminate | discriminate].
  - destruct (match_here r (c :: s)) eqn:E.
    + exists (c :: s). split; [apply is_suffix_refl | congruence].
    + destruct (IH H) as (t & Ht & Hm).
      exists t. split; [now apply is_suffix_cons | exact Hm].
Qed.

Lemma search_none_suffix (r : regex) (s t : jsstring) :
  search r s = None -> is_suffix t s -> match_here r t = None.
Proof.
  intros H [pre ->]. induction pre as [|c pre IH]; simpl in *.
  - destruct t; simpl in H; destruct (match_here r _) as [[]|];
      congruence.
  - destruct (match_here r (c :: pre ++ t)) as [[]|]; [discriminate|].
    now apply IH.
Qed.

(** *** The array pattern *)

Lemma after_last_none (x : N) (s : jsstring) :
  after_last x s = None <-> ~ In x s.
Proof.
  induction s as [|c s IH]; simpl.
  - tauto.
  - destruct (after_last x s) as [r|].
    + split; [discriminate|]. intros H. exfalso.
      assert (G : ~ In x s) by tauto. apply IH in G. discriminate.
    + destruct (N.eqb_spec c x) as [->|Hne].
      * split; [discriminate | tauto].
      * split; [|reflexivity]. intros _ [Hc|Hin]; [congruence|].
        now apply IH in Hin.
Qed.

Lemma after_last_split (x : N) (s r : jsstring) :
  after_last x s = Some r ->
  exists pre, s = pre ++ x :: r /\ ~ In x r.
Proof.
  revert r. induction s as [|c s IH]; simpl; intros r H; [discriminate|].
  destruct (after_last x s) as [r'|] eqn:E.
  - injection H as <-. destruct (IH r' eq_refl) as (pre & -> & Hn).
    now exists (c :: pre).
  - destruct (N.eqb_spec c x) as [->|]; [|discriminate].
    injection H as <-. exists []. split; [reflexivity|].
    now apply after_last_none.
Qed.

Lemma greedy_to_rbracket (s : jsstring) (cap : option jsstring) :
  star_greedy any_char
    (fun s' => rmatch (Chr ch_rbracket) s' cap (fun t c => Some (t, c))) s
  = option_map (fun r => (r, cap)) (after_last ch_rbracket s).
Proof.
  induction s as [|c s IH]; [reflexivity|].
  cbn [star_greedy after_last any_char]. rewrite IH.
  destruct (after_last ch_rbracket s); [reflexivity|].
  cbn [rmatch Chr option_map]. unfold is_char. rewrite (N.eqb_sym c).
  now destruct (N.eqb ch_rbracket c).
Qed.

(** At the start of the text the array pattern matches an opening
    bracket and runs to the last closing bracket. *)
Lemma match_here_array (s : jsstring) :
  match_here re_array s
  = match s with
    | c :: s' =>
        if N.eqb c ch_lbracket
        then option_map (fun r => (r, None)) (after_last ch_rbracket s')
        else None
    | [] => None
    end.
Proof.
  unfold match_here, re_array. destruct s as [|c s]; [reflexivity|].
  cbn [rmatch Chr]. unfold is_char at 1. rewrite (N.eqb_sym c).
  destruct (N.eqb ch_lbracket c); [|reflexivity].
  apply greedy_to_rbracket.
Qed.

Lemma bracket_pair_cons (c : N) (s : jsstring) :
  bracket_pair (c :: s) <->
  (c = ch_lbracket /\ In ch_rbracket s) \/ bracket_pair s.
Proof.
  split.
  - intros (a & b & d & H). destruct a as [|x a]; simpl in H.
    + injection H as -> ->. left. split; [reflexivity|].
      apply in_or_app. right. now left.
    + injection H as -> ->. right. now exists a, b, d.
  - intros [[-> Hin]|(a & b & d & ->)].
    + apply in_split in Hin. destruct Hin as (b & d & ->).
      now exists [], b, d.
    + now exists (c :: a), b, d.
Qed.

Lemma search_array_none (s : jsstring) :
  search re_array s = None <-> ~ bracket_pair s.
Proof.
  induction s as [|c s IH].
  - cbn [search]. rewrite match_here_array. split; [|reflexivity].
    intros _ (a & b & d & H). destruct a; discriminate.
  - cbn [search]. rewrite match_here_array, bracket_pair_cons.
    destruct (N.eqb_spec c ch_lbracket) as [->|Hne].
    + destruct (after_last ch_rbracket s) as [r|] eqn:E; simpl.
      * split; [discriminate|]. intros H. exfalso. apply H. left.
        split; [reflexivity|].
        destruct (after_last_split _ _ E) as (pre & -> & _).
        apply in_or_app. right. now left.
      * apply after_last_none in E. rewrite IH. tauto.
    + rewrite IH. tauto.
Qed.

(** *** The fenced pattern *)

Lemma word_suffix A (w : jsstring) :
  forall s cap (k : jsstring -> option jsstring -> option A) x,
    rmatch (Word w) s cap k = Some x ->
    exists s', is_suffix s' s /\ k s' cap = Some x.
Proof.
  induction w as [|c w IH]; intros s cap k x H; simpl in H.
  - exists s. split; [apply is_suffix_refl | exact H].
  - destruct s as [|d s]; [discriminate|].
    destruct (is_char c d); [|discriminate].
    destruct (IH _ _ _ _ H) as (s' & Hs & Hk).
    exists s'. split; [now apply is_suffix_cons | exact Hk].
Qed.

(** Wherever the fenced pattern matches, its group has matched a ['[']
    and, later, a [']']. *)
Lemma match_here_fenced_pair (s : jsstring) :
  match_here re_fenced s <> None -> bracket_pair s.
Proof.
  unfold match_here, re_fenced. intros H.
  destruct (rmatch _ s None _) as [x|] eqn:E; [clear H|congruence].
  rewrite rmatch_cat in E.
  apply rmatch_suffix in E. destruct E as (s1 & c1 & Hs1 & E).
  rewrite rmatch_cat in E.
  apply rmatch_suffix in E. destruct E as (s2 & c2 & Hs2 & E).
  rewrite rmatch_cat in E.
  apply rmatch_suffix in E. destruct E as (s3 & c3 & Hs3 & E).
  rewrite rmatch_cat, rmatch_grp, rmatch_cat in E.
  destruct s3 as [|b s3]; [discriminate|].
  cbn [rmatch Chr] in E. unfold is_char at 1 in E.
  destruct (N.eqb_spec ch_lbracket b) as [<-|]; [|discriminate].
  apply star_lazy_suffix in E. destruct E as (s4 & Hs4 & E).
  destruct s4 as [|d s4]; [discriminate|].
  unfold is_char at 1 in E.
  destruct (N.eqb_spec ch_rbracket d) as [<-|]; [|discriminate].
  destruct Hs4 as [mid ->].
  assert (Hs : is_suffix (ch_lbracket :: mid ++ ch_rbracket :: s4) s).
  { eapply is_suffix_trans; [|eassumption].
    eapply is_suffix_trans; eassumption. }
  destruct Hs as [pre ->]. now exists pre, mid, s4.
Qed.

Lemma bracket_pair_suffix (t s : jsstring) :
  is_suffix t s -> bracket_pair t -> bracket_pair s.
Proof.
  intros [pre ->] (a & b & c & ->). exists (pre ++ a), b, c.
  now rewrite app_assoc.
Qed.

Lemma search_fenced_pair (s : jsstring) (m : MatchArray) :
  search re_fenced s = Some m -> bracket_pair s.
Proof.
  intros H. apply search_some_suffix in H. destruct H as (t & Ht & Hm).
  eapply bracket_pair_suffix; [eassumption|].
  now apply match_here_fenced_pair.
Qed.

Lemma find_json_is_array_search (content : jsstring) :
  find_json content = search re_array content.
Proof.
  unfold find_json.
  destruct (search re_array content) eqn:E; [reflexivity|].
  destruct (search re_fenced content) as [m|] eqn:F; [|reflexivity].
  apply search_fenced_pair in F. now apply search_array_none in E.
Qed.

(* ------------------------------------------------------------------ *)
(** ** The quiz synthesizer: credential, extraction, fallback *)
(* ------------------------------------------------------------------ *)

Lemma bind_lift_normal A B (a : A) (f : A -> Eff B) :
  bind (lift (Normal a)) f = f a.
Proof. unfold bind, lift. now destruct (f a). Qed.

Lemma bind_lift_throw A B (e : JsVal) (f : A -> Eff B) :
  bind (lift (Throw e)) f = ([], Throw e).
Proof. reflexivity. Qed.

Lemma bind_emit B (e : Event) (k : Eff B) :
  bind (emit e) (fun _ => k) = (e :: fst k, snd k).
Proof. unfold bind, emit. now destruct k. Qed.

Lemma get_message_of_error (k : ErrorKind) (m : jsstring) :
  get_prop (JError k m) (lit "message") = Normal (JStr m).
Proof. reflexivity. Qed.

Lemma JSON_parse_cases (s : jsstring) :
  (exists v, JSON_parse s = Normal v) \/ JSON_parse s = Throw syntax_error.
Proof.
  unfold JSON_parse. destruct (parse_text false s) as [v|];
    [left; now exists v | now right].
Qed.

Lemma extract_none (content : jsstring) :
  find_json content = None ->
  extract_questions content
  = ([EvConsoleError [JStr (lit "No JSON found in AI response:"); JStr content]],
     Throw (new_Error msg_no_json)).
Proof. unfold extract_questions. now intros ->. Qed.

(** The direct parse succeeds: nothing is logged, nothing repaired. *)
Lemma extract_direct (content cand : jsstring) (m : MatchArray) (v : JsVal) :
  find_json content = Some m -> at0 m = Some cand ->
  JSON_parse cand = Normal v ->
  extract_questions content = ([], Normal v).
Proof.
  unfold extract_questions. intros -> Hc Hp. rewrite Hc. cbn [JSON_parse_opt].
  rewrite Hp. reflexivity.
Qed.

(** The direct parse fails and the parse of the repaired text succeeds. *)
Lemma extract_repaired (content cand : jsstring) (m : MatchArray) (v : JsVal) :
  find_json content = Some m -> at0 m = Some cand ->
  JSON_parse cand = Throw syntax_error ->
  JSON_parse (repair cand) = Normal v ->
  extract_questions content
  = ([EvConsoleLog [JStr (lit "First parse failed, trying to clean JSON:");
                    JStr (lit "Unexpected token in JSON")]],
     Normal v).
Proof.
  unfold extract_questions. intros -> Hc Hp Hr. rewrite Hc.
  cbn [JSON_parse_opt repair_opt]. rewrite Hp.
  unfold lift, bind, try_catch at 1. unfold syntax_error at 1.
  rewrite get_message_of_error. cbn [emit app]. rewrite Hr. reflexivity.
Qed.

(** Both parses fail: the fallback questions are returned. *)
Lemma extract_fallback (content cand : jsstring) (m : MatchArray) :
  find_json content = Some m -> at0 m = Some cand ->
  JSON_parse cand = Throw syntax_error ->
  JSON_parse (repair cand) = Throw syntax_error ->
  extract_questions content
  = ([EvConsoleLog [JStr (lit "First parse failed, trying to clean JSON:");
                    JStr (lit "Unexpected token in JSON")];
      EvConsoleError [JStr (lit "Cleaned JSON still invalid:");
                      JStr (repair cand)];
      EvConsoleError [JStr (lit "Parse error:");
                      JStr (lit "Unexpected token in JSON")]],
     Normal fallback_questions).
Proof.
  unfold extract_questions. intros -> Hc Hp Hr. rewrite Hc.
  cbn [JSON_parse_opt repair_opt]. rewrite Hp.
  unfold lift, bind, try_catch at 1. unfold syntax_error at 1.
  rewrite get_message_of_error. cbn [emit app]. rewrite Hr.
  reflexivity.
Qed.

(** Once a candidate is found, nothing is thrown. *)
Lemma extract_some_returns (content : jsstring) (m : MatchArray) :
  find_json content = Some m ->
  exists l v, extract_questions content = (l, Normal v).
Proof.
  intros Hf. rewrite find_json_is_array_search in Hf.
  assert (Hc : exists cand, at0 m = Some cand).
  { clear -Hf. induction content as [|c s IH]; cbn [search] in Hf.
    - destruct (match_here re_array []) as [[r cap]|]; [|discriminate].
      injection Hf as <-. eexists; reflexivity.
    - destruct (match_here re_array (c :: s)) as [[r cap]|].
      + injection Hf as <-. eexists; reflexivity.
      + now apply IH. }
  destruct Hc as [cand Hc]. rewrite <- find_json_is_array_search in Hf.
  destruct (JSON_parse_cases cand) as [[v Hp]|Hp].
  - rewrite (extract_direct _ Hf Hc Hp). now do 2 eexists.
  - destruct (JSON_parse_cases (repair cand)) as [[v Hr]|Hr].
    + rewrite (extract_repaired _ Hf Hc Hp Hr). now do 2 eexists.
    + rewrite (extract_fallback _ Hf Hc Hp Hr). now do 2 eexists.
Qed.

Section QuizSynthesizer.

Variable fetch : Network.

Lemma generate_with_key (key : jsstring) (transcript : JsVal) :
  usable_key key ->
  generateQuizQuestions (Some key) fetch transcript
  = (excerpt <- lift (call_substring transcript) ;;
     try_catch (quiz_try fetch key (make_prompt excerpt))
       (fun error =>
          emit (EvConsoleError [JStr (lit "Error generating quiz:"); error]) ;;;
          throw error)).
Proof.
  intros [Hne Hph]. unfold generateQuizQuestions.
  destruct key as [|c key]; [congruence|]. now rewrite Hph.
Qed.

Lemma quiz_try_answer (key prompt content : jsstring) :
  answers_with fetch (make_request key prompt) content ->
  quiz_try fetch key prompt
  = (EvFetch (make_request key prompt)
       :: EvConsoleLog [JStr (lit "AI Response:"); JStr content]
       :: fst (extract_questions content),
     snd (extract_questions content)).
Proof.
  intros (resp & data & Hf & Hok & Hj & Hc).
  unfold quiz_try, await_fetch. rewrite Hf. unfold bind at 1.
  rewrite Hok. cbn [negb]. rewrite Hj, bind_lift_normal, Hc, bind_lift_normal.
  rewrite bind_emit. cbn [extract_from app]. reflexivity.
Qed.

(** The whole function on an answer of the model: the request, the log
    of the answer, then the extraction; what the extraction throws is
    logged and thrown again. *)
Lemma generate_on_answer (key t content : jsstring) :
  usable_key key ->
  answers_with fetch (request_for key t) content ->
  generateQuizQuestions (Some key) fetch (JStr t)
  = match extract_questions content with
    | (l, Normal v) =>
        (EvFetch (request_for key t)
           :: EvConsoleLog [JStr (lit "AI Response:"); JStr content] :: l,
         Normal v)
    | (l, Throw e) =>
        (EvFetch (request_for key t)
           :: EvConsoleLog [JStr (lit "AI Response:"); JStr content]
           :: l ++ [EvConsoleError [JStr (lit "Error generating quiz:"); e]],
         Throw e)
    end.
Proof.
  intros Hk Ha. rewrite (generate_with_key _ Hk).
  cbn [call_substring]. rewrite bind_lift_normal.
  unfold request_for in *. rewrite (quiz_try_answer Ha).
  destruct (extract_questions content) as [l [v|e]]; reflexivity.
Qed.

(** C7: without a credential, or with the placeholder of the sample
    configuration, [generateQuizQuestions] throws the error that names
    the missing key, whatever the transcript, and the log of effects is
    empty: no request was sent. *)
Theorem missing_credential_fails_before_network
  (OPENROUTER_API_KEY : option jsstring) (transcript : JsVal) :
  OPENROUTER_API_KEY = None \/ OPENROUTER_API_KEY = Some placeholder_key ->
  generateQuizQuestions OPENROUTER_API_KEY fetch transcript
  = ([], Throw (new_Error msg_no_key)).
Proof. intros [-> | ->]; reflexivity. Qed.

(** C1, as the code has it: when the model output holds no ['['] that
    is followed by a [']'], the error ["Could not find valid JSON in AI
    response"] is logged and thrown to the caller; the fallback
    questions are what is returned when a candidate is found and
    neither it nor its repaired text parses. *)
Theorem no_json_is_thrown (key t content : jsstring) :
  usable_key key ->
  answers_with fetch (request_for key t) content ->
  (~ bracket_pair content ->
   generateQuizQuestions (Some key) fetch (JStr t)
   = ([EvFetch (request_for key t);
       EvConsoleLog [JStr (lit "AI Response:"); JStr content];
       EvConsoleError [JStr (lit "No JSON found in AI response:");
                       JStr content];
       EvConsoleError [JStr (lit "Error generating quiz:");
                       new_Error msg_no_json]],
      Throw (new_Error msg_no_json)))
  /\ (forall m cand,
        find_json content = Some m -> at0 m = Some cand ->
        JSON_parse cand = Throw syntax_error ->
        JSON_parse (repair cand) = Throw syntax_error ->
        snd (generateQuizQuestions (Some key) fetch (JStr t))
        = Normal fallback_questions).
Proof.
  intros Hk Ha. rewrite (generate_on_answer Hk Ha). split.
  - intros Hn. apply search_array_none in Hn.
    rewrite <- find_json_is_array_search in Hn.
    now rewrite (extract_none _ Hn).
  - intros m cand Hf Hc Hp Hr. now rewrite (extract_fallback _ Hf Hc Hp Hr).
Qed.

End QuizSynthesizer.

Lemma sample_key_usable : usable_key sample_key.
Proof. split; [discriminate | reflexivity]. Defined.

Lemma model_says_answers (content : jsstring) (req : Request) :
  answers_with (model_says content) req content.
Proof. do 2 eexists. repeat split; reflexivity. Defined.

Lemma missing_credential_witness :
  generateQuizQuestions None (model_says sure_output) (JStr (lit "a transcript"))
  = ([], Throw (new_Error msg_no_key)).
Proof. apply missing_credential_fails_before_network. now left. Defined.

Lemma plain_output_no_pair : ~ bracket_pair plain_output.
Proof. apply search_array_none. vm_compute. reflexivity. Defined.

Lemma no_json_is_thrown_witness :
  generateQuizQuestions (Some sample_key) (model_says plain_output)
    (JStr (lit "a transcript"))
  = ([EvFetch (request_for sample_key (lit "a transcript"));
      EvConsoleLog [JStr (lit "AI Response:"); JStr plain_output];
      EvConsoleError [JStr (lit "No JSON found in AI response:");
                      JStr plain_output];
      EvConsoleError [JStr (lit "Error generating quiz:");
                      new_Error msg_no_json]],
     Throw (new_Error msg_no_json)).
Proof.
  apply (proj1 (no_json_is_thrown sample_key_usable
                  (model_says_answers plain_output
                     (request_for sample_key (lit "a transcript"))))).
  exact plain_output_no_pair.
Defined.

(** C1 fails on the code: for a model output with no bracket and no
    fence, nothing is returned; the error is thrown to the caller. *)
Lemma fallback_on_no_json_counterexample :
  search re_array plain_output = None
  /\ search re_fenced plain_output = None
  /\ ~ In ch_backtick plain_output
  /\ snd (generateQuizQuestions (Some sample_key) (model_says plain_output)
            (JStr (lit "a transcript")))
     = Throw (new_Error msg_no_json)
  /\ snd (generateQuizQuestions (Some sample_key) (model_says plain_output)
            (JStr (lit "a transcript")))
     <> Normal fallback_questions.
Proof.
  assert (H : snd (generateQuizQuestions (Some sample_key)
                     (model_says plain_output) (JStr (lit "a transcript")))
              = Throw (new_Error msg_no_json)) by (vm_compute; reflexivity).
  split; [vm_compute; reflexivity|]. split; [vm_compute; reflexivity|].
  split.
  - intros Hin. vm_compute in Hin. repeat destruct Hin as [Hin|Hin];
      try discriminate; try contradiction.
  - split; [exact H | rewrite H; discriminate].
Qed.

(** C9: when the array pattern finds nothing, the fenced pattern finds
    nothing either, so the candidate is always the match of the array
    pattern; no candidate is found, and the error of the no-JSON branch
    is thrown, exactly when the text holds no ['['] followed by a
    [']']. *)
Theorem fenced_branch_never_decides (content : jsstring) :
  (search re_array content = None -> search re_fenced content = None)
  /\ find_json content = search re_array content
  /\ (find_json content = None <-> ~ bracket_pair content)
  /\ ((exists l, extract_questions content = (l, Throw (new_Error msg_no_json)))
      <-> ~ bracket_pair content).
Proof.
  split; [|split; [|split]].
  - intros Hn. destruct (search re_fenced content) as [m|] eqn:F;
      [|reflexivity].
    apply search_fenced_pair in F. now apply search_array_none in Hn.
  - apply find_json_is_array_search.
  - rewrite find_json_is_array_search. apply search_array_none.
  - rewrite <- search_array_none, <- find_json_is_array_search. split.
    + intros [l Hx]. destruct (find_json content) as [m|] eqn:F;
        [|reflexivity].
      destruct (extract_some_returns _ F) as (l' & v & Hv). congruence.
    + intros Hn. eexists. now apply extract_none.
Qed.

(** C6: in the output ["Sure! [...]"] the array pattern finds the array
    from its first bracket to its last, [JSON.parse] accepts it as it
    is (nothing is logged, nothing is repaired), and the result is one
    question whose [correct] is 1. *)
Theorem sure_output_parsed (transcript : jsstring) :
  search re_array sure_output = Some {| at0 := Some sure_array; at1 := None |}
  /\ JSON_parse sure_array = Normal sure_quiz
  /\ extract_questions sure_output = ([], Normal sure_quiz)
  /\ (exists q, sure_quiz = JArr [q]
                /\ get_prop q (lit "correct") = Normal (JInt 1))
  /\ snd (generateQuizQuestions (Some sample_key) (model_says sure_output)
            (JStr transcript))
     = Normal sure_quiz.
Proof.
  assert (He : extract_questions sure_output = ([], Normal sure_quiz))
    by (vm_compute; reflexivity).
  split; [vm_compute; reflexivity|]. split; [vm_compute; reflexivity|].
  split; [exact He|]. split.
  - eexists. split; reflexivity.
  - rewrite (generate_on_answer sample_key_usable
               (model_says_answers sure_output
                  (request_for sample_key transcript))).
    now rewrite He.
Qed.

(** C10: the fallback is an array of exactly 5 questions, each with
    exactly 4 options and a [correct] that is an integer from 0 to 3
    and an index of its options. *)
Theorem fallback_is_valid_quiz :
  exists questions,
    fallback_questions = JArr questions
    /\ List.length questions = 5%nat
    /\ forallb valid_question questions = true.
Proof.
  eexists. split; [reflexivity|]. split; vm_compute; reflexivity.
Qed.

(* ------------------------------------------------------------------ *)
(** ** The parser and commas before closing brackets *)
(* ------------------------------------------------------------------ *)

Lemma parse_step_flag (ps : PState) (t : Token) :
  is_comma_tok t = false -> parse_step true ps t = parse_step false ps t.
Proof.
  intros Ht. destruct ps as [mode stack].
  destruct mode; destruct t; try discriminate; reflexivity.
Qed.

Lemma parse_step_lenient_of (strict lenient : PState) (t : Token) :
  lenient_of strict lenient ->
  lenient <> strict -> is_closer_tok t = false ->
  parse_step true lenient t = parse_step false strict t.
Proof.
  intros [-> | [(stack & -> & ->) | (stack & -> & ->)]] Hne Ht;
    [congruence | |]; destruct t; try discriminate; reflexivity.
Qed.

Lemma strip_tc_keep (t : Token) (ts : list Token) :
  is_comma_tok t = false -> strip_tc (t :: ts) = t :: strip_tc ts.
Proof. intros H. cbn [strip_tc]. now rewrite H. Qed.

Lemma strip_tc_comma (ts : list Token) :
  strip_tc (TComma :: ts)
  = if starts_with_closer ts then strip_tc ts else TComma :: strip_tc ts.
Proof. reflexivity. Qed.

(** What the lenient parser accepts, the parser of JSON accepts once
    the commas before closing brackets are taken out, with the same
    result. *)
Lemma parse_run_strip (n : nat) :
  forall ts strict lenient v,
    (List.length ts <= n)%nat ->
    lenient_of strict lenient ->
    (lenient <> strict -> starts_with_closer ts = false) ->
    parse_run true lenient ts = Some v ->
    parse_run false strict (strip_tc ts) = Some v.
Proof.
  induction n as [|n IH]; intros ts strict lenient v Hlen HR Hside Hrun.
  - destruct ts; [|simpl in Hlen; lia]. cbn [parse_run strip_tc] in *.
    destruct HR as [-> | [(stack & -> & ->) | (stack & -> & ->)]];
      [exact Hrun | discriminate | discriminate].
  - destruct ts as [|t ts].
    + cbn [parse_run strip_tc] in *.
      destruct HR as [-> | [(stack & -> & ->) | (stack & -> & ->)]];
        [exact Hrun | discriminate | discriminate].
    + cbn [List.length] in Hlen. cbn [parse_run] in Hrun.
      destruct (parse_step true lenient t) as [ps1|] eqn:Hstep;
        [|discriminate].
      assert (Hd : lenient = strict \/ lenient <> strict).
      { destruct HR as [-> | [(stack & -> & ->) | (stack & -> & ->)]];
          [now left | right; discriminate | right; discriminate]. }
      destruct Hd as [-> | Hne].
      * (* the two parsers are in the same state *)
        destruct (is_comma_tok t) eqn:Hc.
        -- destruct t; try discriminate. rewrite strip_tc_comma.
           destruct strict as [mode stack].
           destruct mode; try discriminate.
           destruct stack as [|[d|d|d k] stack]; try discriminate;
             cbn [parse_step] in Hstep; injection Hstep as <-.
           ++ destruct ts as [|t2 ts]; [discriminate|].
              cbn [starts_with_closer].
              destruct (is_closer_tok t2) eqn:Hc2.
              ** destruct t2; try discriminate.
                 rewrite strip_tc_keep by reflexivity.
                 cbn [parse_run parse_step] in *.
                 destruct (deliver (JArr (rev d)) stack) as [ps2|];
                   [|discriminate].
                 apply (IH ts ps2 ps2); [simpl in Hlen; lia | now left
                                        | congruence | exact Hrun].
              ** cbn [parse_run parse_step].
                 apply (IH (t2 :: ts) (MValue, FArr d :: stack)
                          (MValueOrClose, FArr d :: stack));
                   [simpl in *; lia | right; left; now eexists
                   | intros _; exact Hc2 | exact Hrun].
           ++ destruct ts as [|t2 ts]; [discriminate|].
              cbn [starts_with_closer].
              destruct (is_closer_tok t2) eqn:Hc2.
              ** destruct t2; try discriminate.
                 rewrite strip_tc_keep by reflexivity.
                 cbn [parse_run parse_step] in *.
                 destruct (deliver (JObj (rev d)) stack) as [ps2|];
                   [|discriminate].
                 apply (IH ts ps2 ps2); [simpl in Hlen; lia | now left
                                        | congruence | exact Hrun].
              ** cbn [parse_run parse_step].
                 apply (IH (t2 :: ts) (MKey, FObj d :: stack)
                          (MKeyOrClose, FObj d :: stack));
                   [simpl in *; lia | right; right; now eexists
                   | intros _; exact Hc2 | exact Hrun].
        -- rewrite strip_tc_keep by exact Hc. cbn [parse_run].
           rewrite <- (parse_step_flag _ _ Hc), Hstep.
           apply (IH ts ps1 ps1); [lia | now left | congruence | exact Hrun].
      * (* the lenient parser has just read a comma *)
        specialize (Hside Hne). cbn [starts_with_closer] in Hside.
        assert (Hc : is_comma_tok t = false).
        { destruct t; try reflexivity. exfalso.
          destruct HR as [-> | [(stack & -> & ->) | (stack & -> & ->)]];
            [congruence | discriminate | discriminate]. }
        rewrite strip_tc_keep by exact Hc. cbn [parse_run].
        rewrite <- (parse_step_lenient_of t HR Hne Hside), Hstep.
        apply (IH ts ps1 ps1); [lia | now left | congruence | exact Hrun].
Qed.

Lemma parse_tokens_strip (ts : list Token) (v : JsVal) :
  parse_tokens true ts = Some v -> parse_tokens false (strip_tc ts) = Some v.
Proof.
  unfold parse_tokens. intros H.
  apply (parse_run_strip (n := List.length ts) ts (strict := (MValue, []))
           (lenient := (MValue, []))); [lia | now left | congruence | exact H].
Qed.

(* ------------------------------------------------------------------ *)
(** ** Shapes *)
(* ------------------------------------------------------------------ *)

Lemma deliver_shape (v v' : JsVal) (stack stack' : list Frame) :
  shape_val v = shape_val v' ->
  List.map shape_frame stack = List.map shape_frame stack' ->
  option_map shape_ps (deliver v stack)
  = option_map shape_ps (deliver v' stack').
Proof.
  intros Hv Hs. destruct stack as [|[d|d|d k] stack];
    destruct stack' as [|[d'|d'|d' k'] stack']; try discriminate;
    cbn [deliver option_map]; unfold shape_ps; cbn [fst snd shape_mode];
    try reflexivity.
  - now rewrite Hv.
  - cbn [List.map shape_frame] in *. congruence.
  - cbn [List.map shape_frame] in *. congruence.
Qed.

Ltac shape_step_tac :=
  cbn [parse_step scalar_of option_map shape_tok] in *;
  try reflexivity; try discriminate;
  try (apply deliver_shape;
       [reflexivity | cbn [List.map shape_frame] in *; congruence]);
  try (unfold shape_ps; cbn [fst snd shape_mode List.map shape_frame] in *;
       congruence).

Lemma parse_step_shape (trailing : bool) (ps1 ps2 : PState) (t1 t2 : Token) :
  shape_ps ps1 = shape_ps ps2 -> shape_tok t1 = shape_tok t2 ->
  option_map shape_ps (parse_step trailing ps1 t1)
  = option_map shape_ps (parse_step trailing ps2 t2).
Proof.
  destruct ps1 as [m1 s1], ps2 as [m2 s2]. unfold shape_ps at 1 2.
  cbn [fst snd]. intros H Ht. injection H as Hm Hs.
  destruct m1, m2; try discriminate; clear Hm;
    destruct t1, t2; try discriminate; try (injection Ht as -> ->);
    destruct s1 as [|[d1|d1|d1 k1] s1], s2 as [|[d2|d2|d2 k2] s2];
    try discriminate; shape_step_tac.
Qed.

Lemma parse_run_shape (trailing : bool) (ts1 : list Token) :
  forall ts2 ps1 ps2,
    shape_ps ps1 = shape_ps ps2 ->
    List.map shape_tok ts1 = List.map shape_tok ts2 ->
    option_map shape_val (parse_run trailing ps1 ts1)
    = option_map shape_val (parse_run trailing ps2 ts2).
Proof.
  induction ts1 as [|t1 ts1 IH]; intros [|t2 ts2] ps1 ps2 Hps Hts;
    try discriminate.
  - destruct ps1 as [m1 s1], ps2 as [m2 s2]. unfold shape_ps in Hps.
    cbn [fst snd] in Hps. injection Hps as Hm _.
    destruct m1, m2; try discriminate; try reflexivity.
    cbn [parse_run option_map]. cbn [shape_mode] in Hm. congruence.
  - cbn [List.map] in Hts. injection Hts as Ht Hts. cbn [parse_run].
    pose proof (@parse_step_shape trailing ps1 ps2 t1 t2 Hps Ht) as Hstep.
    destruct (parse_step trailing ps1 t1) as [q1|],
             (parse_step trailing ps2 t2) as [q2|]; try discriminate.
    + cbn [option_map] in Hstep. apply IH; [congruence | exact Hts].
    + reflexivity.
Qed.

Lemma strip_tc_shape (ts : list Token) :
  strip_tc (List.map shape_tok ts) = List.map shape_tok (strip_tc ts).
Proof.
  induction ts as [|t ts IH]; [reflexivity|].
  cbn [List.map strip_tc].
  assert (Hc : is_comma_tok (shape_tok t) = is_comma_tok t) by now destruct t.
  assert (Hn : match List.map shape_tok ts with
               | t' :: _ => is_closer_tok t' | [] => false end
               = match ts with t' :: _ => is_closer_tok t' | [] => false end).
  { destruct ts as [|t' ts]; [reflexivity | now destruct t']. }
  rewrite Hc, Hn, IH. now destruct (_ && _).
Qed.

(** If the lenient parser makes an array of some tokens, the parser of
    JSON makes an array of any tokens that have the shape of those
    tokens without the commas before closing brackets. *)
Lemma parse_tokens_repaired (ts ts' : list Token) (items : list JsVal) :
  parse_tokens true ts = Some (JArr items) ->
  List.map shape_tok ts' = strip_tc (List.map shape_tok ts) ->
  exists items', parse_tokens false ts' = Some (JArr items').
Proof.
  intros Hp Hs. apply parse_tokens_strip in Hp. rewrite strip_tc_shape in Hs.
  pose proof (@parse_run_shape false ts' (strip_tc ts)
                (MValue, []) (MValue, []) eq_refl Hs) as H.
  unfold parse_tokens in *. rewrite Hp in H. cbn [option_map shape_val] in H.
  destruct (parse_run false (MValue, []) ts') as [[]|]; try discriminate.
  now eexists.
Qed.

Unset Implicit Arguments.

(* ------------------------------------------------------------------ *)
(** ** The scanner *)
(* ------------------------------------------------------------------ *)

Ltac unfold_chars :=
  unfold is_space, is_json_ws, is_closer, is_digit, is_exp_mark, is_char,
    is_lower, ch_tab, ch_cr, ch_quote, ch_plus, ch_comma, ch_minus, ch_dot,
    ch_slash, ch_colon, ch_lbracket, ch_backslash, ch_rbracket, ch_backtick,
    ch_lbrace, ch_rbrace, ch_space, ch_newline in *.

(** Case analysis on the comparisons of the code unit [c] with
    constants; a case in which [c] is known is settled by computation,
    an impossible one by arithmetic. *)
Ltac char_split c :=
  repeat (match goal with
          | |- context [N.eqb c ?k] =>
              destruct (N.eqb_spec c k) as [?E|?E]; [try subst c|]
          | |- context [N.eqb ?k c] =>
              destruct (N.eqb_spec k c) as [?E|?E]; [try subst c|]
          | |- context [N.leb ?a c] => destruct (N.leb_spec a c)
          | |- context [N.leb c ?a] => destruct (N.leb_spec c a)
          | |- context [N.ltb c ?a] => destruct (N.ltb_spec c a)
          | H : context [N.eqb c ?k] |- _ =>
              destruct (N.eqb_spec c k) as [?E|?E]; [try subst c|]
          | H : context [N.leb ?a c] |- _ => destruct (N.leb_spec a c)
          | H : context [N.leb c ?a] |- _ => destruct (N.leb_spec c a)
          end; cbn in *; try discriminate; try (exfalso; lia)).

Lemma step_between_space (c : N) :
  is_space c = true ->
  step_between c = if is_json_ws c then Some (LBetween, []) else None.
Proof.
  intros H. unfold step_between. unfold_chars. char_split c; reflexivity.
Qed.

Lemma num_step_delimiter (ns : NumState) (a : NumAcc) (c : N) :
  is_space c || is_closer c || N.eqb c ch_comma || N.eqb c ch_quote = true ->
  num_step ns a c = None.
Proof.
  intros H. destruct ns; unfold num_step; unfold_chars;
    char_split c; reflexivity.
Qed.

Lemma literal_rejects (tok : Token) (rest : jsstring) (c : N) :
  state_ok (LLiteral tok rest) -> is_lower c = false ->
  lex_step (LLiteral tok rest) c = None.
Proof.
  intros (Hl & _) Hc. destruct rest as [|x rest]; [reflexivity|].
  cbn [forallb] in Hl. apply andb_prop in Hl. destruct Hl as [Hx _].
  cbn [lex_step]. destruct (N.eqb_spec c x) as [->|]; [congruence|reflexivity].
Qed.

Lemma space_not_lower (c : N) : is_space c = true -> is_lower c = false.
Proof. intros H. unfold_chars. char_split c; reflexivity. Qed.

(** What the scanner does with a code unit of the class [\s]. *)
Lemma space_step (st : LexState) (c : N) :
  state_ok st -> is_space c = true ->
  lex_step st c
  = match st with
    | LBetween => if is_json_ws c then Some (LBetween, []) else None
    | LString acc =>
        if (c <? 32)%N then None else Some (LString (c :: acc), [])
    | LNumber ns a =>
        if num_final ns && is_json_ws c
        then Some (LBetween, [num_value a]) else None
    | _ => None
    end.
Proof.
  intros Hok Hc. destruct st as [|acc|acc|acc more code|tok rest|ns a].
  - now apply step_between_space.
  - unfold lex_step. unfold_chars. char_split c; reflexivity.
  - unfold lex_step, unescape. unfold_chars. char_split c; reflexivity.
  - unfold lex_step, hex_value. unfold_chars. char_split c; reflexivity.
  - apply literal_rejects; [exact Hok | now apply space_not_lower].
  - cbn [lex_step]. rewrite num_step_delimiter by now rewrite Hc.
    rewrite (step_between_space _ Hc).
    destruct (num_final ns), (is_json_ws c); reflexivity.
Qed.

(** What the scanner does with a comma. *)
Lemma comma_step (st : LexState) :
  state_ok st ->
  lex_step st ch_comma
  = match st with
    | LBetween => Some (LBetween, [TComma])
    | LString acc => Some (LString (ch_comma :: acc), [])
    | LNumber ns a =>
        if num_final ns then Some (LBetween, [num_value a; TComma]) else None
    | _ => None
    end.
Proof.
  intros Hok. destruct st as [|acc|acc|acc more code|tok rest|ns a];
    try reflexivity.
  - now apply literal_rejects.
  - destruct ns; reflexivity.
Qed.

(** What the scanner does with a double quote. *)
Lemma quote_step (st : LexState) :
  state_ok st ->
  lex_step st ch_quote
  = match st with
    | LBetween => Some (LString [], [])
    | LString acc => Some (LBetween, [TString (rev acc)])
    | LEscape acc => Some (LString (ch_quote :: acc), [])
    | LNumber ns a =>
        if num_final ns then Some (LString [], [num_value a]) else None
    | _ => None
    end.
Proof.
  intros Hok. destruct st as [|acc|acc|acc more code|tok rest|ns a];
    try reflexivity.
  - now apply literal_rejects.
  - destruct ns; reflexivity.
Qed.

Lemma step_between_ok (c : N) (st : LexState) (out : list Token) :
  step_between c = Some (st, out) -> state_ok st.
Proof.
  unfold step_between.
  repeat match goal with
         | |- (if ?b then _ else _) = _ -> _ => destruct b
         end;
    intros H; try discriminate; injection H as <- _; cbn; auto.
Qed.

Lemma lex_step_ok (st st1 : LexState) (c : N) (out : list Token) :
  state_ok st -> lex_step st c = Some (st1, out) -> state_ok st1.
Proof.
  intros Hok H. destruct st as [|acc|acc|acc more code|tok rest|ns a];
    cbn [lex_step] in H.
  - eapply step_between_ok; eassumption.
  - repeat match type of H with
           | (if ?b then _ else _) = _ => destruct b
           end; try discriminate; injection H as <- _; exact I.
  - destruct (unescape c); [injection H as <- _; exact I|].
    destruct (N.eqb c 117); [injection H as <- _; exact I | discriminate].
  - destruct (hex_value c); [|discriminate].
    destruct more as [|[|more]]; injection H as <- _; exact I.
  - destruct rest as [|x rest]; [discriminate|].
    destruct (N.eqb c x); [|discriminate].
    destruct Hok as (Hl & Hc1 & Hc2). cbn [forallb] in Hl.
    apply andb_prop in Hl. destruct Hl as [_ Hl].
    destruct rest; injection H as <- _; cbn; auto.
  - destruct (num_step ns a c) as [[ns' a']|].
    + injection H as <- _. exact I.
    + destruct (num_final ns); [|discriminate].
      destruct (step_between c) as [[st' out']|] eqn:E; [|discriminate].
      injection H as <- _. eapply step_between_ok; eassumption.
Qed.

Lemma lex_step_shape (st1 st2 : LexState) (c : N) :
  shape_st st1 = shape_st st2 ->
  option_map shape_out (lex_step st1 c) = option_map shape_out (lex_step st2 c).
Proof.
  intros H.
  destruct st1 as [|a1|a1|a1 m1 c1|t1 r1|n1 b1],
           st2 as [|a2|a2|a2 m2 c2|t2 r2|n2 b2];
    try discriminate; try (injection H as -> ->); try reflexivity;
    cbn [lex_step].
  - repeat match goal with
           | |- context [if ?b then _ else _] => destruct b
           end; reflexivity.
  - destruct (unescape c); [reflexivity|].
    destruct (N.eqb c 117); reflexivity.
  - cbn [shape_st] in H. injection H as ->.
    destruct (hex_value c); [|reflexivity].
    destruct m2 as [|[|m2]]; reflexivity.
Qed.

Lemma lex_shape_nil (st : LexState) :
  lex_shape st [] = option_map (List.map shape_tok) (lex_finish st).
Proof. reflexivity. Qed.

Lemma lex_shape_cons (st : LexState) (c : N) (s : jsstring) :
  lex_shape st (c :: s)
  = match lex_step st c with
    | None => None
    | Some (st1, out) =>
        option_map (app (List.map shape_tok out)) (lex_shape st1 s)
    end.
Proof.
  unfold lex_shape. cbn [lex_run].
  destruct (lex_step st c) as [[st1 out]|]; [|reflexivity].
  destruct (lex_run st1 s); [|reflexivity].
  cbn [option_map]. now rewrite map_app.
Qed.

(** The shapes of the tokens depend on the shape of the state only. *)
Lemma lex_shape_st (s : jsstring) :
  forall st1 st2, shape_st st1 = shape_st st2 ->
                  lex_shape st1 s = lex_shape st2 s.
Proof.
  induction s as [|c s IH]; intros st1 st2 H.
  - rewrite !lex_shape_nil.
    destruct st1, st2; try discriminate; try reflexivity.
    now injection H as -> ->.
  - rewrite !lex_shape_cons. pose proof (@lex_step_shape st1 st2 c H) as Hs.
    destruct (lex_step st1 c) as [[x1 o1]|], (lex_step st2 c) as [[x2 o2]|];
      try discriminate; [|reflexivity].
    unfold shape_out in Hs. cbn [option_map fst snd] in Hs.
    injection Hs as Hx Ho. now rewrite Ho, (IH _ _ Hx).
Qed.

Lemma lex_shape_string (acc acc' : jsstring) (s : jsstring) :
  lex_shape (LString acc) s = lex_shape (LString acc') s.
Proof. now apply lex_shape_st. Qed.

Lemma option_map_transfer A B (f : A -> B) (a b : option A) (y : B) :
  (forall x, a = Some x -> b = Some x) ->
  option_map f a = Some y -> option_map f b = Some y.
Proof.
  intros H. destruct a as [x|]; [|discriminate].
  now rewrite (H x eq_refl).
Qed.

Lemma option_map_app_nil A (a : option (list A)) :
  option_map (app []) a = a.
Proof. now destruct a. Qed.

(** *** Line feeds become spaces *)

Lemma newline_step (st st1 : LexState) (out : list Token) :
  state_ok st ->
  lex_step st ch_newline = Some (st1, out) ->
  lex_step st ch_space = Some (st1, out).
Proof.
  intros Hok. rewrite !(space_step _ _ Hok) by reflexivity.
  destruct st; try discriminate; try (intros H; exact H).
Qed.

Lemma newline_pass (s : jsstring) :
  forall st ts, state_ok st -> lex_shape st s = Some ts ->
                lex_shape st (List.map nl_to_space s) = Some ts.
Proof.
  induction s as [|c s IH]; intros st ts Hok H; [exact H|].
  cbn [List.map]. rewrite lex_shape_cons in *.
  destruct (lex_step st c) as [[st1 out]|] eqn:E; [|discriminate].
  assert (E' : lex_step st (nl_to_space c) = Some (st1, out)).
  { unfold nl_to_space. destruct (N.eqb_spec c ch_newline) as [->|];
      [now apply newline_step | exact E]. }
  rewrite E'. revert H. apply option_map_transfer. intros x.
  apply IH. eapply lex_step_ok; eassumption.
Qed.

(** *** Runs of white space become one space *)

Lemma collapse_pass (s : jsstring) :
  forall b st ts,
    state_ok st -> (b = true -> after_space st = true) ->
    lex_shape st s = Some ts ->
    lex_shape st (collapse_from b s) = Some ts.
Proof.
  induction s as [|c s IH]; intros b st ts Hok Hb H; [exact H|].
  cbn [collapse_from]. rewrite lex_shape_cons in H.
  destruct (is_space c) eqn:Hc.
  - rewrite (space_step _ _ Hok Hc) in H. destruct b.
    + (* a further code unit of the run is dropped *)
      specialize (Hb eq_refl). destruct st; try discriminate.
      * destruct (is_json_ws c); [|discriminate].
        rewrite option_map_app_nil in H. now apply IH.
      * destruct (c <? 32)%N; [discriminate|].
        rewrite option_map_app_nil in H.
        rewrite (lex_shape_string _ acc) in H. now apply IH.
    + (* the first code unit of the run becomes a space *)
      rewrite lex_shape_cons, (space_step _ _ Hok) by reflexivity.
      destruct st; try discriminate.
      * destruct (is_json_ws c); [|discriminate].
        change (is_json_ws ch_space) with true. cbv iota.
        revert H. apply option_map_transfer. intros x. now apply IH.
      * destruct (c <? 32)%N; [discriminate|].
        change (ch_space <? 32)%N with false. cbv iota.
        rewrite (lex_shape_string _ (ch_space :: acc)) in H.
        revert H. apply option_map_transfer. intros x. now apply IH.
      * destruct (num_final st); [|discriminate].
        destruct (is_json_ws c); [|discriminate].
        change (is_json_ws ch_space) with true. cbn [andb] in *.
        revert H. apply option_map_transfer. intros x. now apply IH.
  - rewrite lex_shape_cons.
    destruct (lex_step st c) as [[st1 out]|] eqn:E; [|discriminate].
    revert H. apply option_map_transfer. intros x.
    apply IH; [eapply lex_step_ok; eassumption | discriminate].
Qed.

(** *** [trim] *)

Lemma between_drop_space (s : jsstring) (ts : list Token) :
  lex_shape LBetween s = Some ts ->
  lex_shape LBetween (drop_space s) = Some ts.
Proof.
  induction s as [|c s IH]; intros H; [exact H|].
  cbn [drop_space]. destruct (is_space c) eqn:Hc; [|exact H].
  rewrite lex_shape_cons, (space_step LBetween _ I Hc) in H.
  destruct (is_json_ws c); [|discriminate].
  rewrite option_map_app_nil in H. now apply IH.
Qed.

Lemma lex_shape_snoc_space (c : N) (s : jsstring) :
  forall st ts,
    state_ok st -> is_space c = true ->
    lex_shape st (s ++ [c]) = Some ts -> lex_shape st s = Some ts.
Proof.
  induction s as [|d s IH]; intros st ts Hok Hc H.
  - cbn [app] in H. rewrite lex_shape_cons, (space_step _ _ Hok Hc) in H.
    rewrite lex_shape_nil in *.
    destruct st; try discriminate.
    + destruct (is_json_ws c); [exact H | discriminate].
    + destruct (c <? 32)%N; discriminate.
    + cbn [lex_finish]. destruct (num_final st); [|discriminate].
      destruct (is_json_ws c); [|discriminate]. cbn in *. exact H.
  - cbn [app] in H. rewrite lex_shape_cons in *.
    destruct (lex_step st d) as [[st1 out]|] eqn:E; [|discriminate].
    revert H. apply option_map_transfer. intros x Hx.
    apply IH; [eapply lex_step_ok; eassumption | exact Hc | exact Hx].
Qed.

Lemma trim_end_pass (st : LexState) (s : jsstring) :
  forall ts, state_ok st -> lex_shape st s = Some ts ->
             lex_shape st (rev (drop_space (rev s))) = Some ts.
Proof.
  induction s as [|c s IH] using rev_ind; intros ts Hok H; [exact H|].
  rewrite rev_unit. cbn [drop_space].
  destruct (is_space c) eqn:Hc.
  - apply IH; [exact Hok|]. eapply lex_shape_snoc_space; eassumption.
  - cbn [rev]. now rewrite rev_involutive.
Qed.

Lemma trim_pass (s : jsstring) (ts : list Token) :
  lex_shape LBetween s = Some ts -> lex_shape LBetween (trim s) = Some ts.
Proof.
  intros H. unfold trim. apply trim_end_pass; [exact I|].
  now apply between_drop_space.
Qed.

(* ------------------------------------------------------------------ *)
(** ** The [replace] calls *)
(* ------------------------------------------------------------------ *)

Lemma is_suffix_length (t s : jsstring) :
  is_suffix t s -> (List.length t <= List.length s)%nat.
Proof. intros [pre ->]. rewrite length_app. lia. Qed.

Lemma match_here_suffix (r : regex) (s rest : jsstring) cap :
  match_here r s = Some (rest, cap) -> is_suffix rest s.
Proof.
  unfold match_here. intros H. apply rmatch_suffix in H.
  destruct H as (s' & cap' & Hs & H). now injection H as <- _.
Qed.

Lemma replace_fuel_S (f : nat) (r : regex) (tpl : list Piece) (s : jsstring) :
  replace_fuel (S f) r tpl s
  = match match_here r s with
    | Some (rest, cap) =>
        if (List.length rest <? List.length s)%nat
        then expand tpl cap ++ replace_fuel f r tpl rest
        else expand tpl cap ++
             match s with
             | [] => []
             | c :: s' => c :: replace_fuel f r tpl s'
             end
    | None =>
        match s with
        | [] => []
        | c :: s' => c :: replace_fuel f r tpl s'
        end
    end.
Proof. reflexivity. Qed.

Lemma replace_fuel_stable (r : regex) (tpl : list Piece) :
  forall f1 f2 s,
    (List.length s < f1)%nat -> (List.length s < f2)%nat ->
    replace_fuel f1 r tpl s = replace_fuel f2 r tpl s.
Proof.
  induction f1 as [|f1 IH]; intros f2 s H1 H2; [lia|].
  destruct f2 as [|f2]; [lia|]. rewrite !replace_fuel_S.
  destruct (match_here r s) as [[rest cap]|] eqn:E.
  - destruct (List.length rest <? List.length s)%nat eqn:L.
    + apply Nat.ltb_lt in L. f_equal. apply IH; lia.
    + destruct s as [|c s]; [reflexivity|]. cbn [List.length] in *.
      do 2 f_equal. apply IH; lia.
  - destruct s as [|c s]; [reflexivity|]. cbn [List.length] in *.
    f_equal. apply IH; lia.
Qed.

(** The equation of [replace] on a text that is not empty. *)
Lemma replace_all_cons (r : regex) (tpl : list Piece) (c : N) (s : jsstring) :
  replace_all r tpl (c :: s)
  = match match_here r (c :: s) with
    | Some (rest, cap) =>
        if (List.length rest <? S (List.length s))%nat
        then expand tpl cap ++ replace_all r tpl rest
        else expand tpl cap ++ c :: replace_all r tpl s
    | None => c :: replace_all r tpl s
    end.
Proof.
  unfold replace_all. rewrite replace_fuel_S. cbn [List.length].
  destruct (match_here r (c :: s)) as [[rest cap]|] eqn:E.
  - destruct (List.length rest <? S (List.length s))%nat eqn:L.
    + apply Nat.ltb_lt in L. f_equal. apply replace_fuel_stable; lia.
    + reflexivity.
  - reflexivity.
Qed.

Lemma drop_space_split (s : jsstring) :
  exists sp, s = sp ++ drop_space s /\ forallb is_space sp = true.
Proof.
  induction s as [|c s (sp & Hs & Hsp)]; [now exists []|].
  cbn [drop_space]. destruct (is_space c) eqn:Hc.
  - exists (c :: sp). cbn [app forallb]. rewrite Hc, Hsp.
    split; [now f_equal | reflexivity].
  - now exists [].
Qed.

Lemma drop_space_length (s : jsstring) :
  (List.length (drop_space s) <= List.length s)%nat.
Proof.
  destruct (drop_space_split s) as (sp & Hs & _).
  rewrite Hs at 2. rewrite length_app. lia.
Qed.

(** The greedy [\s*] ends where the white space ends when what follows
    cannot start with white space. *)
Lemma star_greedy_drop A (k : jsstring -> option A) (s : jsstring) :
  (forall x t, is_space x = true -> k (x :: t) = None) ->
  star_greedy is_space k s = k (drop_space s).
Proof.
  intros Hk. induction s as [|c s IH]; [reflexivity|].
  cbn [star_greedy drop_space]. destruct (is_space c) eqn:Hc; [|reflexivity].
  rewrite IH. destruct (k (drop_space s)); [reflexivity|]. now apply Hk.
Qed.

(** ... and also when what follows accepts the text after it. *)
Lemma star_greedy_longest A (k : jsstring -> option A) (s : jsstring) (x : A) :
  k (drop_space s) = Some x -> star_greedy is_space k s = Some x.
Proof.
  induction s as [|c s IH]; intros H; [exact H|].
  cbn [star_greedy drop_space] in *. destruct (is_space c); [|exact H].
  now rewrite (IH H).
Qed.

(** *** Line feeds *)

Lemma match_here_newline (c : N) (s : jsstring) :
  match_here re_newline (c :: s)
  = if N.eqb c ch_newline then Some (s, None) else None.
Proof.
  unfold match_here, re_newline, Chr. cbn [rmatch]. unfold is_char.
  now rewrite (N.eqb_sym ch_newline c).
Qed.

Lemma replace_newline (s : jsstring) :
  replace_all re_newline [Text (lit " ")] s = List.map nl_to_space s.
Proof.
  induction s as [|c s IH]; [reflexivity|].
  rewrite replace_all_cons, match_here_newline. cbn [List.map].
  unfold nl_to_space at 1. destruct (N.eqb c ch_newline).
  - rewrite (proj2 (Nat.ltb_lt _ _) (Nat.lt_succ_diag_r _)).
    rewrite IH. reflexivity.
  - now rewrite IH.
Qed.

(** *** Runs of white space *)

Lemma match_here_spaces (c : N) (s : jsstring) :
  match_here re_spaces (c :: s)
  = if is_space c then Some (drop_space s, None) else None.
Proof.
  unfold match_here, re_spaces, Plus. cbn [rmatch].
  destruct (is_space c); [|reflexivity].
  now apply star_greedy_longest.
Qed.

Lemma collapse_in_run (s : jsstring) :
  collapse_from true s = collapse_from false (drop_space s).
Proof.
  induction s as [|c s IH]; [reflexivity|].
  cbn [collapse_from drop_space]. destruct (is_space c) eqn:Hc; [exact IH|].
  cbn [collapse_from]. now rewrite Hc.
Qed.

Lemma replace_spaces_bounded (n : nat) :
  forall s, (List.length s <= n)%nat ->
            replace_all re_spaces [Text (lit " ")] s = collapse_from false s.
Proof.
  induction n as [|n IH]; intros s Hn.
  - destruct s; [reflexivity | cbn in Hn; lia].
  - destruct s as [|c s]; [reflexivity|]. cbn [List.length] in Hn.
    rewrite replace_all_cons, match_here_spaces. cbn [collapse_from].
    destruct (is_space c).
    + pose proof (drop_space_length s) as Hl.
      rewrite (proj2 (Nat.ltb_lt _ _)) by lia.
      rewrite collapse_in_run, IH by lia. reflexivity.
    + rewrite IH by lia. reflexivity.
Qed.

Lemma replace_spaces (s : jsstring) :
  replace_all re_spaces [Text (lit " ")] s = collapse_from false s.
Proof. now apply (replace_spaces_bounded (List.length s)). Qed.

(** *** Escaped quotes *)

Lemma match_here_escaped_quote (c : N) (s : jsstring) :
  match_here re_escaped_quote (c :: s)
  = if N.eqb c ch_backslash
       && match s with d :: _ => N.eqb d ch_quote | [] => false end
    then Some (tl s, None) else None.
Proof.
  unfold match_here, re_escaped_quote, Chr. cbn [rmatch]. unfold is_char.
  rewrite (N.eqb_sym ch_backslash c).
  destruct (N.eqb c ch_backslash); [|reflexivity].
  destruct s as [|d s]; [reflexivity|].
  rewrite (N.eqb_sym ch_quote d). now destruct (N.eqb d ch_quote).
Qed.

(** Without a backslash before a double quote the second [replace]
    changes nothing. *)
Lemma replace_escaped_quote_id (tpl : list Piece) (s : jsstring) :
  has_escaped_quote s = false ->
  replace_all re_escaped_quote tpl s = s.
Proof.
  induction s as [|c s IH]; intros H; [reflexivity|].
  cbn [has_escaped_quote] in H. apply orb_false_elim in H.
  destruct H as [H1 H2].
  rewrite replace_all_cons, match_here_escaped_quote, H1.
  now rewrite (IH H2).
Qed.

Lemma includes_escaped_quote (s : jsstring) :
  includes s [ch_backslash; ch_quote] = has_escaped_quote s.
Proof.
  induction s as [|c s IH]; [reflexivity|].
  cbn [includes has_escaped_quote starts_with]. rewrite IH. f_equal.
  rewrite (N.eqb_sym ch_backslash c). f_equal.
  destruct s as [|d s]; [reflexivity|].
  rewrite (N.eqb_sym ch_quote d). apply andb_true_r.
Qed.

(** *** Commas before closing brackets *)

Lemma space_not_closer (x : N) : is_space x = true -> is_closer x = false.
Proof. intros H. unfold_chars. char_split x; reflexivity. Qed.

Lemma space_not_comma (x : N) : is_space x = true -> N.eqb x ch_comma = false.
Proof. intros H. unfold_chars. char_split x; reflexivity. Qed.

Lemma closer_not_comma (x : N) : is_closer x = true -> N.eqb x ch_comma = false.
Proof. intros H. unfold_chars. char_split x; reflexivity. Qed.

Lemma match_here_trailing_comma (c : N) (s : jsstring) :
  match_here re_trailing_comma (c :: s)
  = if N.eqb c ch_comma then
      match drop_space s with
      | d :: t =>
          if is_closer d
          then Some (t, Some (firstn (List.length s - List.length t) s))
          else None
      | [] => None
      end
    else None.
Proof.
  unfold match_here, re_trailing_comma, Chr. cbn [rmatch]. unfold is_char.
  rewrite (N.eqb_sym ch_comma c). destruct (N.eqb c ch_comma); [|reflexivity].
  rewrite star_greedy_drop.
  - destruct (drop_space s) as [|d t]; [reflexivity|].
    now destruct (is_closer d).
  - intros x t Hx. now rewrite (space_not_closer _ Hx).
Qed.

Lemma strip_commas_prefix (p r : jsstring) :
  forallb (fun x => negb (N.eqb x ch_comma)) p = true ->
  strip_commas (p ++ r) = p ++ strip_commas r.
Proof.
  induction p as [|x p IH]; intros H; [reflexivity|].
  cbn [forallb] in H. apply andb_prop in H. destruct H as [Hx Hp].
  cbn [app strip_commas]. apply negb_true_iff in Hx. rewrite Hx.
  cbn [andb]. now rewrite (IH Hp).
Qed.

Lemma spaces_no_comma (sp : jsstring) :
  forallb is_space sp = true ->
  forallb (fun x => negb (N.eqb x ch_comma)) sp = true.
Proof.
  induction sp as [|x sp IH]; [reflexivity|]. cbn [forallb].
  intros H. apply andb_prop in H. destruct H as [Hx Hsp].
  now rewrite (space_not_comma _ Hx), (IH Hsp).
Qed.

Lemma replace_trailing_comma_bounded (n : nat) :
  forall s, (List.length s <= n)%nat ->
            replace_all re_trailing_comma [Group1] s = strip_commas s.
Proof.
  induction n as [|n IH]; intros s Hn.
  - destruct s; [reflexivity | cbn in Hn; lia].
  - destruct s as [|c s]; [reflexivity|]. cbn [List.length] in Hn.
    rewrite replace_all_cons, match_here_trailing_comma.
    cbn [strip_commas]. unfold closer_ahead.
    destruct (N.eqb c ch_comma); cbn [andb]; [|now rewrite IH by lia].
    destruct (drop_space_split s) as (sp & Hs & Hsp).
    destruct (drop_space s) as [|d t] eqn:Hd; [now rewrite IH by lia|].
    destruct (is_closer d) eqn:Hc; [|now rewrite IH by lia].
    assert (Hl : List.length s = (List.length sp + S (List.length t))%nat).
    { rewrite Hs at 1. now rewrite length_app. }
    rewrite (proj2 (Nat.ltb_lt _ _)) by lia.
    rewrite IH by lia. unfold expand. cbn [List.map expand_piece List.concat].
    rewrite app_nil_r.
    replace (firstn (List.length s - List.length t) s) with (sp ++ [d]).
    + rewrite Hs. rewrite <- app_assoc. cbn [app].
      rewrite strip_commas_prefix by now apply spaces_no_comma.
      cbn [strip_commas]. now rewrite (closer_not_comma _ Hc).
    + rewrite Hs at 2.
      replace (List.length s - List.length t)%nat
        with (List.length sp + 1)%nat by lia.
      rewrite firstn_app_2. reflexivity.
Qed.

Lemma replace_trailing_comma (s : jsstring) :
  replace_all re_trailing_comma [Group1] s = strip_commas s.
Proof. now apply (replace_trailing_comma_bounded (List.length s)). Qed.

(** *** Strings broken over lines *)

Lemma not_space_not_newline (c : N) :
  is_space c = false -> N.eqb ch_newline c = false.
Proof. intros H. unfold_chars. char_split c; reflexivity. Qed.

Lemma space_not_quote (x : N) : is_space x = true -> N.eqb ch_quote x = false.
Proof. intros H. unfold_chars. char_split x; reflexivity. Qed.

Lemma greedy_to_quote (s : jsstring) :
  star_greedy is_space
    (fun s' => rmatch (Chr ch_quote) s' None (fun t c => Some (t, c))) s
  = after_quote (drop_space s).
Proof.
  rewrite star_greedy_drop.
  - unfold after_quote. destruct (drop_space s) as [|d t]; [reflexivity|].
    cbn [rmatch Chr]. unfold is_char. now rewrite (N.eqb_sym ch_quote d).
  - intros x t Hx. cbn [rmatch Chr]. unfold is_char.
    now rewrite (space_not_quote _ Hx).
Qed.

Lemma greedy_to_newline (s : jsstring) :
  star_greedy is_space
    (fun s1 =>
       rmatch (Cat (Chr ch_newline) (Cat (Star true is_space) (Chr ch_quote)))
         s1 None (fun t c => Some (t, c))) s
  = if newline_in_run s then after_quote (drop_space s) else None.
Proof.
  induction s as [|c s IH]; [reflexivity|].
  cbn [star_greedy newline_in_run drop_space].
  destruct (is_space c) eqn:Hc; cbn [andb].
  - rewrite IH.
    assert (Hk : rmatch (Cat (Chr ch_newline)
                           (Cat (Star true is_space) (Chr ch_quote)))
                   (c :: s) None (fun t c => Some (t, c))
                 = if N.eqb c ch_newline then after_quote (drop_space s)
                   else None).
    { cbn [rmatch Chr]. unfold is_char at 1. rewrite (N.eqb_sym ch_newline c).
      destruct (N.eqb c ch_newline); [|reflexivity]. apply greedy_to_quote. }
    rewrite Hk. destruct (newline_in_run s).
    + rewrite orb_true_r.
      destruct (after_quote (drop_space s)); [reflexivity|].
      now destruct (N.eqb c ch_newline).
    + now rewrite orb_false_r.
  - cbn [rmatch Chr]. unfold is_char at 1.
    now rewrite (not_space_not_newline _ Hc).
Qed.

(** The third pattern matches at a double quote that is followed by
    white space with a line feed in it and then by a double quote. *)
Lemma match_here_broken_string (c : N) (s : jsstring) :
  match_here re_broken_string (c :: s)
  = if N.eqb c ch_quote && newline_in_run s
    then after_quote (drop_space s) else None.
Proof.
  unfold match_here, re_broken_string. cbn [rmatch Chr]. unfold is_char at 1.
  rewrite (N.eqb_sym ch_quote c). destruct (N.eqb c ch_quote); [|reflexivity].
  cbn [andb]. apply greedy_to_newline.
Qed.

(** A string cannot hold a line feed. *)
Lemma string_rejects_run (s : jsstring) :
  forall acc, newline_in_run s = true -> lex_shape (LString acc) s = None.
Proof.
  induction s as [|c s IH]; intros acc H; [discriminate|].
  cbn [newline_in_run] in H. apply andb_prop in H. destruct H as [Hc H].
  rewrite lex_shape_cons, (space_step (LString acc) _ I Hc).
  destruct (N.eqb_spec c ch_newline) as [->|Hne]; [reflexivity|].
  cbn [orb] in H. destruct (c <? 32)%N; [reflexivity|].
  now rewrite (IH _ H).
Qed.

Lemma broken_pass (n : nat) :
  forall s st ts,
    (List.length s <= n)%nat -> state_ok st ->
    lex_shape st s = Some ts ->
    lex_shape st (replace_all re_broken_string [Text (quoted (lit " "))] s)
    = Some ts.
Proof.
  induction n as [|n IH]; intros s st ts Hn Hok H.
  - destruct s; [exact H | cbn in Hn; lia].
  - destruct s as [|c s]; [exact H|]. cbn [List.length] in Hn.
    rewrite replace_all_cons, match_here_broken_string.
    destruct (N.eqb_spec c ch_quote) as [->|Hne]; cbn [andb].
    + destruct (newline_in_run s) eqn:Hnl.
      * unfold after_quote.
        destruct (drop_space s) as [|d t] eqn:Hd.
        { rewrite lex_shape_cons in *.
          destruct (lex_step st ch_quote) as [[st1 out]|] eqn:E;
            [|discriminate].
          revert H. apply option_map_transfer. intros x.
          apply IH; [lia | eapply lex_step_ok; eassumption]. }
        destruct (N.eqb_spec d ch_quote) as [->|Hd'].
        -- (* the match: the closing quote of a string, white space, the
              opening quote of the next *)
           pose proof (drop_space_length s) as Hl. rewrite Hd in Hl.
           cbn [List.length] in Hl.
           rewrite (proj2 (Nat.ltb_lt _ _)) by lia.
           rewrite lex_shape_cons, (quote_step _ Hok) in H.
           destruct st; try discriminate.
           ++ rewrite option_map_app_nil, string_rejects_run in H by exact Hnl.
              discriminate.
           ++ change (expand [Text (quoted (lit " "))] None)
                with [ch_quote; ch_space; ch_quote].
              cbn [app]. rewrite lex_shape_cons, (quote_step _ Hok).
              revert H. apply option_map_transfer. intros x Hx.
              apply between_drop_space in Hx. rewrite Hd in Hx.
              rewrite lex_shape_cons, (quote_step LBetween I),
                option_map_app_nil in Hx.
              rewrite lex_shape_cons, (space_step LBetween _ I) by reflexivity.
              change (is_json_ws ch_space) with true. cbv iota.
              rewrite option_map_app_nil.
              rewrite lex_shape_cons, (quote_step LBetween I),
                option_map_app_nil.
              apply IH; [lia | exact I | exact Hx].
           ++ rewrite option_map_app_nil, string_rejects_run in H by exact Hnl.
              discriminate.
           ++ destruct (num_final st); [|discriminate].
              rewrite string_rejects_run in H by exact Hnl. discriminate.
        -- rewrite lex_shape_cons in *.
           destruct (lex_step st ch_quote) as [[st1 out]|] eqn:E;
             [|discriminate].
           revert H. apply option_map_transfer. intros x.
           apply IH; [lia | eapply lex_step_ok; eassumption].
      * rewrite lex_shape_cons in *.
        destruct (lex_step st ch_quote) as [[st1 out]|] eqn:E; [|discriminate].
        revert H. apply option_map_transfer. intros x.
        apply IH; [lia | eapply lex_step_ok; eassumption].
    + rewrite lex_shape_cons in *.
      destruct (lex_step st c) as [[st1 out]|] eqn:E; [|discriminate].
      revert H. apply option_map_transfer. intros x.
      apply IH; [lia | eapply lex_step_ok; eassumption].
Qed.

(** *** Commas before closing brackets, in the tokens *)

Lemma shape_tok_closer (t : Token) :
  is_closer_tok (shape_tok t) = is_closer_tok t.
Proof. now destruct t. Qed.

Lemma shape_tok_comma (t : Token) :
  is_comma_tok (shape_tok t) = is_comma_tok t.
Proof. now destruct t. Qed.

(** A state inside a token gives no token, or a first token that is
    not a closing bracket. *)
Lemma inside_step (st st1 : LexState) (c : N) (out : list Token) :
  inside_token st = true -> state_ok st ->
  lex_step st c = Some (st1, out) ->
  (out = [] /\ inside_token st1 = true)
  \/ (exists t rest, out = t :: rest /\ is_closer_tok t = false).
Proof.
  intros Hin Hok H.
  destruct st as [|acc|acc|acc more code|tok rest|ns a]; [discriminate| | | | |];
    cbn [lex_step] in H.
  - repeat match type of H with
           | (if ?b then _ else _) = _ => destruct b
           end; try discriminate; injection H as <- <-;
      [right; now do 2 eexists | now left | now left].
  - destruct (unescape c); [injection H as <- <-; now left|].
    destruct (N.eqb c 117); [injection H as <- <-; now left | discriminate].
  - destruct (hex_value c); [|discriminate].
    destruct more as [|[|more]]; injection H as <- <-; now left.
  - destruct rest as [|x rest]; [discriminate|].
    destruct (N.eqb c x); [|discriminate].
    destruct Hok as (_ & Hc & _).
    destruct rest; injection H as <- <-;
      [right; now do 2 eexists | now left].
  - destruct (num_step ns a c) as [[ns' a']|].
    + injection H as <- <-. now left.
    + destruct (num_final ns); [|discriminate].
      destruct (step_between c) as [[st' out']|]; [|discriminate].
      injection H as <- <-. right. now do 2 eexists.
Qed.

Lemma inside_first_token (s : jsstring) :
  forall st ts,
    inside_token st = true -> state_ok st ->
    lex_shape st s = Some ts -> starts_with_closer ts = false.
Proof.
  induction s as [|c s IH]; intros st ts Hin Hok H.
  - rewrite lex_shape_nil in H. destruct st; try discriminate.
    cbn [lex_finish] in H. destruct (num_final st); [|discriminate].
    now injection H as <-.
  - rewrite lex_shape_cons in H.
    destruct (lex_step st c) as [[st1 out]|] eqn:E; [|discriminate].
    destruct (lex_shape st1 s) as [ts1|] eqn:E1; [|discriminate].
    injection H as <-.
    destruct (inside_step _ _ _ _ Hin Hok E) as [[-> Hin1]|(t & r & -> & Ht)].
    + eapply IH; [exact Hin1 | eapply lex_step_ok; eassumption | exact E1].
    + cbn [List.map app starts_with_closer]. now rewrite shape_tok_closer.
Qed.

Lemma step_between_first (c : N) (st1 : LexState) (out : list Token) :
  is_space c = false ->
  step_between c = Some (st1, out) ->
  match out with
  | t :: _ => is_closer_tok t = is_closer c
  | [] => is_closer c = false /\ inside_token st1 = true
  end.
Proof.
  intros Hc. unfold step_between. unfold_chars.
  char_split c; intros Hstep; try discriminate; injection Hstep as <- <-;
    cbn; auto.
Qed.

(** Between tokens, the next token is a closing bracket exactly when a
    closing bracket comes next in the text, after white space at most. *)
Lemma closer_ahead_spec (s : jsstring) (ts : list Token) :
  lex_shape LBetween s = Some ts -> starts_with_closer ts = closer_ahead s.
Proof.
  revert ts. induction s as [|c s IH]; intros ts H.
  - injection H as <-. reflexivity.
  - unfold closer_ahead. cbn [drop_space]. rewrite lex_shape_cons in H.
    destruct (is_space c) eqn:Hc.
    + rewrite (space_step LBetween _ I Hc) in H.
      destruct (is_json_ws c); [|discriminate].
      rewrite option_map_app_nil in H. now apply IH.
    + cbn [lex_step] in H.
      destruct (step_between c) as [[st1 out]|] eqn:E; [|discriminate].
      destruct (lex_shape st1 s) as [ts1|] eqn:E1; [|discriminate].
      injection H as <-.
      pose proof (step_between_first _ _ _ Hc E) as Hf.
      destruct out as [|t out].
      * destruct Hf as [Hf Hin]. rewrite Hf. cbn [List.map app].
        eapply inside_first_token;
          [exact Hin | eapply step_between_ok; exact E | exact E1].
      * cbn [List.map app starts_with_closer].
        now rewrite shape_tok_closer.
Qed.

Lemma closer_ahead_cons (s : jsstring) :
  closer_ahead s = true ->
  exists x r, s = x :: r /\ is_space x || is_closer x = true.
Proof.
  destruct s as [|x r]; [discriminate|]. intros H. exists x, r.
  split; [reflexivity|]. unfold closer_ahead in H. cbn [drop_space] in H.
  destruct (is_space x); [reflexivity | exact H].
Qed.

(** A number ends where a code unit comes that cannot continue it. *)
Lemma number_delimited (ns : NumState) (a : NumAcc) (x : N) (r : jsstring) :
  num_final ns = true -> num_step ns a x = None ->
  lex_shape (LNumber ns a) (x :: r)
  = option_map (cons (shape_tok (num_value a))) (lex_shape LBetween (x :: r)).
Proof.
  intros Hf Hs. rewrite !lex_shape_cons. cbn [lex_step]. rewrite Hs, Hf.
  destruct (step_between x) as [[st' out]|]; [|reflexivity].
  now destruct (lex_shape st' r).
Qed.

Lemma no_comma_out (st st1 : LexState) (c : N) (out : list Token) :
  state_ok st -> N.eqb c ch_comma = false ->
  lex_step st c = Some (st1, out) ->
  forallb (fun t => negb (is_comma_tok t)) out = true.
Proof.
  intros Hok Hc H.
  assert (Hb : forall st' out',
             step_between c = Some (st', out') ->
             forallb (fun t => negb (is_comma_tok t)) out' = true).
  { intros st' out'. unfold step_between. rewrite Hc.
    repeat match goal with
           | |- (if ?b then _ else _) = _ -> _ => destruct b
           end; intros E; try discriminate; now injection E as <- <-. }
  destruct st as [|acc|acc|acc more code|tok rest|ns a]; cbn [lex_step] in H.
  - eapply Hb; eassumption.
  - repeat match type of H with
           | (if ?b then _ else _) = _ => destruct b
           end; try discriminate; now injection H as <- <-.
  - destruct (unescape c); [now injection H as <- <-|].
    destruct (N.eqb c 117); [now injection H as <- <- | discriminate].
  - destruct (hex_value c); [|discriminate].
    destruct more as [|[|more]]; now injection H as <- <-.
  - destruct rest as [|x rest]; [discriminate|].
    destruct (N.eqb c x); [|discriminate].
    destruct Hok as (_ & _ & Hk).
    destruct rest; injection H as <- <-; [|reflexivity].
    cbn [forallb]. now rewrite Hk.
  - destruct (num_step ns a c) as [[ns' a']|]; [now injection H as <- <-|].
    destruct (num_final ns); [|discriminate].
    destruct (step_between c) as [[st' out']|] eqn:E; [|discriminate].
    injection H as <- <-. cbn [forallb num_value is_comma_tok negb andb].
    exact (Hb st' out' eq_refl).
Qed.

Lemma strip_tc_app (out ts : list Token) :
  forallb (fun t => negb (is_comma_tok t)) out = true ->
  strip_tc (List.map shape_tok out ++ ts)
  = List.map shape_tok out ++ strip_tc ts.
Proof.
  induction out as [|t out IH]; intros H; [reflexivity|].
  cbn [forallb] in H. apply andb_prop in H. destruct H as [Ht Hout].
  cbn [List.map app]. rewrite strip_tc_keep.
  - now rewrite (IH Hout).
  - rewrite shape_tok_comma. now apply negb_true_iff.
Qed.

(** The first [replace] takes from the tokens the commas that stand
    before closing brackets, and changes no other token but in the
    contents of strings. *)
Lemma comma_pass (s : jsstring) :
  forall st ts,
    state_ok st -> lex_shape st s = Some ts ->
    lex_shape st (strip_commas s) = Some (strip_tc ts).
Proof.
  induction s as [|c s IH]; intros st ts Hok H.
  - rewrite lex_shape_nil in *. destruct st; try discriminate.
    + now injection H as <-.
    + cbn [lex_finish] in *. destruct (num_final st); [|discriminate].
      now injection H as <-.
  - cbn [strip_commas]. destruct (N.eqb_spec c ch_comma) as [->|Hne].
    + cbn [andb]. rewrite lex_shape_cons, (comma_step _ Hok) in H.
      destruct (closer_ahead s) eqn:Hca.
      * (* the comma is taken out *)
        destruct st; try discriminate.
        -- destruct (lex_shape LBetween s) as [ts1|] eqn:E; [|discriminate].
           injection H as <-. cbn [List.map app]. rewrite strip_tc_comma.
           rewrite (closer_ahead_spec _ _ E), Hca. now apply IH.
        -- rewrite option_map_app_nil, (lex_shape_string _ acc) in H.
           now apply IH.
        -- destruct (num_final st) eqn:Hf; [|discriminate].
           destruct (lex_shape LBetween s) as [ts1|] eqn:E; [|discriminate].
           injection H as <-. cbn [List.map app].
           rewrite strip_tc_keep by reflexivity. rewrite strip_tc_comma.
           rewrite (closer_ahead_spec _ _ E), Hca.
           destruct (closer_ahead_cons _ Hca) as (x & r & -> & Hx).
           assert (Hn : lex_shape (LNumber st a) (x :: r)
                        = Some (shape_tok (num_value a) :: ts1)).
           { rewrite number_delimited, E; [reflexivity | exact Hf |].
             apply num_step_delimiter. now rewrite Hx. }
           rewrite (IH _ _ Hok Hn). now rewrite strip_tc_keep.
      * (* the comma stays *)
        rewrite lex_shape_cons, (comma_step _ Hok).
        destruct st; try discriminate.
        -- destruct (lex_shape LBetween s) as [ts1|] eqn:E; [|discriminate].
           injection H as <-. cbn [List.map app]. rewrite strip_tc_comma.
           rewrite (closer_ahead_spec _ _ E), Hca.
           now rewrite (IH LBetween _ I E).
        -- revert H. rewrite !option_map_app_nil. now apply IH.
        -- destruct (num_final st) eqn:Hf; [|discriminate].
           destruct (lex_shape LBetween s) as [ts1|] eqn:E; [|discriminate].
           injection H as <-. cbn [List.map app].
           rewrite strip_tc_keep by reflexivity. rewrite strip_tc_comma.
           rewrite (closer_ahead_spec _ _ E), Hca.
           now rewrite (IH LBetween _ I E).
    + apply N.eqb_neq in Hne. cbn [andb].
      rewrite lex_shape_cons in *.
      destruct (lex_step st c) as [[st1 out]|] eqn:E; [|discriminate].
      destruct (lex_shape st1 s) as [ts1|] eqn:E1; [|discriminate].
      injection H as <-.
      rewrite (IH _ _ (lex_step_ok _ _ _ _ Hok E) E1). cbn [option_map].
      now rewrite (strip_tc_app _ _ (no_comma_out _ _ _ _ Hok Hne E)).
Qed.

(** *** The first [replace] makes no escaped quote *)

Lemma strip_commas_head (s : jsstring) :
  match strip_commas s with d :: _ => N.eqb d ch_quote | [] => false end = true ->
  match s with d :: _ => N.eqb d ch_quote | [] => false end = true.
Proof.
  destruct s as [|c s]; [discriminate|]. cbn [strip_commas].
  destruct (N.eqb_spec c ch_comma) as [->|Hne]; cbn [andb]; [|now intros H].
  destruct (closer_ahead s) eqn:Hca; [|now intros H].
  destruct (closer_ahead_cons _ Hca) as (x & r & -> & Hx).
  cbn [strip_commas].
  assert (Hxc : N.eqb x ch_comma = false).
  { apply orb_prop in Hx.
    destruct Hx as [Hx|Hx]; [now apply space_not_comma
                            | now apply closer_not_comma]. }
  rewrite Hxc. cbn [andb]. intros Hq. exfalso. revert Hx Hq. clear.
  unfold_chars. char_split x; discriminate.
Qed.

Lemma strip_commas_no_escaped_quote (s : jsstring) :
  has_escaped_quote s = false -> has_escaped_quote (strip_commas s) = false.
Proof.
  induction s as [|c s IH]; intros H; [reflexivity|].
  cbn [has_escaped_quote] in H. apply orb_false_elim in H.
  destruct H as [H1 H2]. cbn [strip_commas].
  destruct (N.eqb c ch_comma && closer_ahead s); [now apply IH|].
  cbn [has_escaped_quote]. rewrite (IH H2), orb_false_r.
  destruct (N.eqb c ch_backslash); [|reflexivity]. cbn [andb] in *.
  destruct (match strip_commas s with d :: _ => N.eqb d ch_quote | [] => false end)
    eqn:E; [|reflexivity].
  apply strip_commas_head in E. congruence.
Qed.

(* ------------------------------------------------------------------ *)
(** ** The repair pass on JSON with trailing commas *)
(* ------------------------------------------------------------------ *)

(** The tokens of the repaired text are the tokens of the text without
    the commas before closing brackets, up to the contents of strings. *)
Lemma repair_tokens (s : jsstring) (ts : list Token) :
  tokenize s = Some ts -> has_escaped_quote s = false ->
  exists ts', tokenize (repair s) = Some ts'
              /\ List.map shape_tok ts' = strip_tc (List.map shape_tok ts).
Proof.
  intros Ht Hq.
  assert (H : lex_shape LBetween s = Some (List.map shape_tok ts)).
  { unfold lex_shape. unfold tokenize in Ht. now rewrite Ht. }
  apply (comma_pass _ LBetween _ I) in H.
  apply (broken_pass _ _ LBetween _ (Nat.le_refl _) I) in H.
  apply (newline_pass _ LBetween _ I) in H.
  apply (collapse_pass _ false LBetween _ I) in H; [|discriminate].
  apply trim_pass in H.
  unfold repair. rewrite replace_trailing_comma.
  rewrite replace_escaped_quote_id
    by now apply strip_commas_no_escaped_quote.
  rewrite replace_newline, replace_spaces.
  unfold lex_shape in H. unfold tokenize.
  destruct (lex_run LBetween _) as [ts'|]; [|discriminate].
  injection H as H. now exists ts'.
Qed.

(** Text that is JSON but for trailing commas, and holds no backslash
    before a double quote, is JSON once repaired; an array stays an
    array. *)
Lemma repair_parses (s : jsstring) (items : list JsVal) :
  parse_lenient s = Some (JArr items) ->
  has_escaped_quote s = false ->
  exists items', JSON_parse (repair s) = Normal (JArr items').
Proof.
  unfold parse_lenient, parse_text. intros Hp Hq.
  destruct (tokenize s) as [ts|] eqn:Ht; [|discriminate].
  destruct (repair_tokens _ _ Ht Hq) as (ts' & Ht' & Hs).
  destruct (@parse_tokens_repaired ts ts' items Hp Hs) as (items' & Hp').
  exists items'. unfold JSON_parse, parse_text. now rewrite Ht', Hp'.
Qed.

(** The parser of JSON accepts no comma before a closing bracket. *)
Lemma strict_run_no_trailing (ts : list Token) :
  forall ps v, parse_run false ps ts = Some v -> trailing_comma_in ts = false.
Proof.
  induction ts as [|t ts IH]; intros ps v H; [reflexivity|].
  cbn [parse_run] in H.
  destruct (parse_step false ps t) as [ps1|] eqn:E; [|discriminate].
  cbn [trailing_comma_in]. rewrite (IH _ _ H), orb_false_r.
  destruct (is_comma_tok t) eqn:Hc; [|reflexivity].
  destruct t; try discriminate.
  destruct ts as [|t2 ts]; [reflexivity|]. cbn [starts_with_closer andb].
  destruct (is_closer_tok t2) eqn:Hc2; [|reflexivity].
  exfalso. destruct ps as [mode stack].
  destruct mode; try discriminate.
  destruct stack as [|[d|d|d k] stack]; try discriminate;
    cbn [parse_step] in E; injection E as <-;
    destruct t2; discriminate.
Qed.

Lemma JSON_parse_rejects_trailing_comma (s : jsstring) :
  has_trailing_comma s = true -> JSON_parse s = Throw syntax_error.
Proof.
  unfold has_trailing_comma, JSON_parse, parse_text, parse_tokens.
  destruct (tokenize s) as [ts|]; [|discriminate]. intros H.
  destruct (parse_run false (MValue, []) ts) as [v|] eqn:E; [|reflexivity].
  apply strict_run_no_trailing in E. congruence.
Qed.

Lemma strip_tc_none (ts : list Token) :
  trailing_comma_in ts = false -> strip_tc ts = ts.
Proof.
  induction ts as [|t ts IH]; intros H; [reflexivity|].
  cbn [trailing_comma_in] in H. apply orb_false_elim in H.
  destruct H as [H1 H2]. cbn [strip_tc].
  change (match ts with t' :: _ => is_closer_tok t' | [] => false end)
    with (starts_with_closer ts).
  now rewrite H1, (IH H2).
Qed.

(** A text the lenient parser accepts and [JSON.parse] rejects holds a
    comma before a closing bracket. *)
Lemma rejected_has_trailing_comma (s : jsstring) (v : JsVal) :
  parse_lenient s = Some v -> JSON_parse s = Throw syntax_error ->
  has_trailing_comma s = true.
Proof.
  unfold parse_lenient, JSON_parse, parse_text, has_trailing_comma.
  intros Hp Hj. destruct (tokenize s) as [ts|]; [|discriminate].
  destruct (trailing_comma_in ts) eqn:E; [reflexivity|].
  apply parse_tokens_strip in Hp. rewrite (strip_tc_none _ E) in Hp.
  now rewrite Hp in Hj.
Qed.

(** *** The candidate in a fenced block *)

Lemma after_last_app (x : N) (mid post : jsstring) :
  ~ In x post -> after_last x (mid ++ x :: post) = Some post.
Proof.
  intros Hn. induction mid as [|c mid IH]; cbn [app after_last].
  - apply after_last_none in Hn. rewrite Hn. now rewrite N.eqb_refl.
  - now rewrite IH.
Qed.

(** When no ['['] stands before the array and no [']'] after it, the
    array pattern matches the array and nothing else. *)
Lemma search_array_exact (pre mid post : jsstring) :
  ~ In ch_lbracket pre -> ~ In ch_rbracket post ->
  search re_array (pre ++ ch_lbracket :: mid ++ ch_rbracket :: post)
  = Some {| at0 := Some (ch_lbracket :: mid ++ [ch_rbracket]); at1 := None |}.
Proof.
  intros Hpre Hpost. induction pre as [|c pre IH]; cbn [app search].
  - rewrite match_here_array. change (N.eqb ch_lbracket ch_lbracket) with true.
    cbv iota. rewrite (after_last_app _ _ _ Hpost). cbn [option_map].
    do 2 f_equal. cbn [List.length]. rewrite length_app. cbn [List.length].
    replace (S (List.length mid + S (List.length post)) - List.length post)%nat
      with (S (List.length mid + 1))%nat by lia.
    cbn [firstn]. f_equal. now rewrite firstn_app_2.
  - rewrite match_here_array.
    destruct (N.eqb_spec c ch_lbracket) as [->|Hne].
    + exfalso. apply Hpre. now left.
    + apply IH. intros Hin. apply Hpre. now right.
Qed.

Lemma spaces_no_bracket (x : N) (w : jsstring) :
  (x = ch_lbracket \/ x = ch_rbracket) ->
  forallb is_space w = true -> ~ In x w.
Proof.
  intros Hx Hw Hin. rewrite forallb_forall in Hw. specialize (Hw _ Hin).
  revert Hw. clear -Hx. destruct Hx as [-> | ->]; discriminate.
Qed.

Lemma fenced_split (tagged : bool) (w1 mid w2 : jsstring) :
  fenced tagged w1 (ch_lbracket :: mid ++ [ch_rbracket]) w2
  = (lit "```" ++ (if tagged then lit "json" else []) ++ w1)
    ++ ch_lbracket :: mid ++ ch_rbracket :: (w2 ++ lit "```").
Proof.
  unfold fenced. rewrite <- !app_assoc. do 3 f_equal. cbn [app].
  rewrite <- !app_assoc. reflexivity.
Qed.

Lemma find_json_fenced (tagged : bool) (w1 mid w2 : jsstring) :
  forallb is_space w1 = true -> forallb is_space w2 = true ->
  find_json (fenced tagged w1 (ch_lbracket :: mid ++ [ch_rbracket]) w2)
  = Some {| at0 := Some (ch_lbracket :: mid ++ [ch_rbracket]); at1 := None |}.
Proof.
  intros H1 H2. rewrite find_json_is_array_search, fenced_split.
  apply search_array_exact.
  - intros Hin. apply in_app_or in Hin. destruct Hin as [Hin|Hin].
    + vm_compute in Hin. intuition discriminate.
    + apply in_app_or in Hin. destruct Hin as [Hin|Hin].
      * destruct tagged; vm_compute in Hin; intuition discriminate.
      * revert Hin. apply spaces_no_bracket; [now left | exact H1].
  - intros Hin. apply in_app_or in Hin. destruct Hin as [Hin|Hin].
    + revert Hin. apply spaces_no_bracket; [now right | exact H2].
    + vm_compute in Hin. intuition discriminate.
Qed.

(** C5, as the code has it: for a fenced block around an array literal
    that is JSON but for commas before closing brackets and braces, and
    that holds no backslash followed by a double quote, the candidate is
    the array literal, [JSON.parse] rejects it, and after the repair
    pass the one further [JSON.parse] yields an array, which is
    returned. *)
Theorem fenced_trailing_commas_repaired
  (tagged : bool) (w1 mid w2 : jsstring) (items : list JsVal) :
  forallb is_space w1 = true -> forallb is_space w2 = true ->
  parse_lenient (ch_lbracket :: mid ++ [ch_rbracket]) = Some (JArr items) ->
  has_trailing_comma (ch_lbracket :: mid ++ [ch_rbracket]) = true ->
  includes (ch_lbracket :: mid ++ [ch_rbracket]) [ch_backslash; ch_quote]
  = false ->
  find_json (fenced tagged w1 (ch_lbracket :: mid ++ [ch_rbracket]) w2)
  = Some {| at0 := Some (ch_lbracket :: mid ++ [ch_rbracket]); at1 := None |}
  /\ JSON_parse (ch_lbracket :: mid ++ [ch_rbracket]) = Throw syntax_error
  /\ exists items',
      JSON_parse (repair (ch_lbracket :: mid ++ [ch_rbracket]))
      = Normal (JArr items')
      /\ extract_questions
           (fenced tagged w1 (ch_lbracket :: mid ++ [ch_rbracket]) w2)
         = ([first_parse_failed], Normal (JArr items')).
Proof.
  intros H1 H2 Hl Hc Hq. rewrite includes_escaped_quote in Hq.
  pose proof (find_json_fenced tagged w1 mid w2 H1 H2) as Hf.
  pose proof (JSON_parse_rejects_trailing_comma _ Hc) as Hj.
  split; [exact Hf|]. split; [exact Hj|].
  destruct (repair_parses _ _ Hl Hq) as (items' & Hr).
  exists items'. split; [exact Hr|].
  exact (extract_repaired _ Hf eq_refl Hj Hr).
Qed.

Lemma fenced_trailing_commas_repaired_witness :
  find_json (fenced true [ch_newline] trailing_array [ch_newline])
  = Some {| at0 := Some trailing_array; at1 := None |}
  /\ JSON_parse trailing_array = Throw syntax_error
  /\ exists items',
      JSON_parse (repair trailing_array) = Normal (JArr items')
      /\ extract_questions (fenced true [ch_newline] trailing_array [ch_newline])
         = ([first_parse_failed], Normal (JArr items')).
Proof.
  unfold trailing_array.
  eapply (fenced_trailing_commas_repaired true [ch_newline] trailing_inner
            [ch_newline]).
  - reflexivity.
  - reflexivity.
  - vm_compute. reflexivity.
  - vm_compute. reflexivity.
  - vm_compute. reflexivity.
Defined.

(** C5 fails on the code: an array that is JSON but for one trailing
    comma, with an escaped quote in a string, is broken by the second
    [replace]; the parse of the repaired text fails and the fallback
    questions are returned. *)
Lemma fenced_escaped_quote_counterexample :
  JSON_parse (escaped_question false) = Normal escaped_quiz
  /\ parse_lenient escaped_array = Some escaped_quiz
  /\ has_trailing_comma escaped_array = true
  /\ find_json (fenced true [ch_newline] escaped_array [ch_newline])
     = Some {| at0 := Some escaped_array; at1 := None |}
  /\ JSON_parse escaped_array = Throw syntax_error
  /\ JSON_parse (repair escaped_array) = Throw syntax_error
  /\ snd (extract_questions (fenced true [ch_newline] escaped_array [ch_newline]))
     = Normal fallback_questions.
Proof. repeat split; vm_compute; reflexivity. Qed.

(** The lenient parser accepts all of JSON, with the same result. *)
Lemma lenient_accepts_json (ts : list Token) :
  forall strict lenient v,
    lenient_of strict lenient ->
    parse_run false strict ts = Some v ->
    parse_run true lenient ts = Some v.
Proof.
  induction ts as [|t ts IH]; intros strict lenient v HR H.
  - cbn [parse_run] in *.
    destruct HR as [-> | [(stack & -> & ->) | (stack & -> & ->)]];
      [exact H | discriminate | discriminate].
  - cbn [parse_run] in *.
    destruct (parse_step false strict t) as [ps1|] eqn:E; [|discriminate].
    assert (Hd : lenient = strict \/ lenient <> strict).
    { destruct HR as [-> | [(stack & -> & ->) | (stack & -> & ->)]];
        [now left | right; discriminate | right; discriminate]. }
    destruct Hd as [-> | Hne].
    + destruct (is_comma_tok t) eqn:Hc.
      * destruct t; try discriminate. destruct strict as [mode stack].
        destruct mode; try discriminate.
        destruct stack as [|[d|d|d k] stack]; try discriminate;
          cbn [parse_step] in *; injection E as <-.
        -- apply (IH (MValue, FArr d :: stack)); [|exact H].
           right; left. now eexists.
        -- apply (IH (MKey, FObj d :: stack)); [|exact H].
           right; right. now eexists.
      * rewrite (parse_step_flag _ _ Hc), E.
        apply (IH ps1); [now left | exact H].
    + assert (Hcl : is_closer_tok t = false).
      { destruct HR as [-> | [(stack & -> & ->) | (stack & -> & ->)]];
          [congruence | |]; destruct t; try reflexivity;
          cbn [parse_step scalar_of] in E; try discriminate;
          destruct stack as [|[]]; discriminate. }
      rewrite (parse_step_lenient_of t HR Hne Hcl), E.
      apply (IH ps1); [now left | exact H].
Qed.

(* ------------------------------------------------------------------ *)
(** ** Checks of the models on examples *)
(* ------------------------------------------------------------------ *)

Example parse_nested :
  JSON_parse (lit "{" ++ quoted (lit "a") ++ lit ": [true, null, -1.5e2, "
              ++ quoted (lit "xA\n") ++ lit "]}")
  = Normal (JObj [(lit "a",
                   JArr [JBool true; JNull; JNum (-15) 1;
                         JStr [120; 65; 10]%N])]).
Proof. vm_compute. reflexivity. Qed.

Example parse_rejects :
  List.map JSON_parse
    [lit "[1,2,]"; lit "[,]"; lit "01"; lit "1."; lit "tru"; lit "[1 2]";
     lit "{" ++ quoted (lit "a") ++ lit ":1,}"; quoted [ch_newline]; []]
  = repeat (Throw syntax_error) 9.
Proof. vm_compute. reflexivity. Qed.

Example lenient_accepts :
  (parse_lenient (lit "[1,2,]"), parse_lenient (lit "[,]"),
   parse_lenient (lit "[1,,]"))
  = (Some (JArr [JInt 1; JInt 2]), None, None).
Proof. vm_compute. reflexivity. Qed.

Example fenced_pattern_lazy :
  search re_fenced (lit "x```[1][2] ```[3]``` ")
  = Some {| at0 := Some (lit "```[1][2] ```"); at1 := Some (lit "[1][2]") |}.
Proof. vm_compute. reflexivity. Qed.

Example array_pattern_greedy :
  search re_array (lit "a [1] b [2] c")
  = Some {| at0 := Some (lit "[1] b [2]"); at1 := None |}.
Proof. vm_compute. reflexivity. Qed.

Example repair_steps :
  repair ([ch_space; ch_newline] ++ quoted (lit "a")
            ++ [ch_space; ch_newline; ch_tab] ++ quoted (lit "b")
            ++ lit ", ,  }" ++ [ch_newline; 160%N])
  = quoted (lit "a") ++ lit " " ++ quoted (lit "b") ++ lit ", }".
Proof. vm_compute. reflexivity. Qed.

Example split_pieces :
  str_split ch_space (lit " a  b ") = [[]; lit "a"; []; lit "b"; []].
Proof. vm_compute. reflexivity. Qed.

(* ================================================================== *)
(** * Part III: further properties of the code *)
(* ================================================================== *)

(* ------------------------------------------------------------------ *)
(** ** [getYouTubeTranscript]: every path *)
(* ------------------------------------------------------------------ *)

Lemma get_prop_throws (v : JsVal) (key : jsstring) (e : JsVal) :
  get_prop v key = Throw e -> exists m, e = JError KTypeError m.
Proof.
  destruct v; cbn [get_prop]; intros H; try discriminate;
    try (injection H as <-; now eexists).
  - destruct (own_prop props key); discriminate.
  - destruct (str_eqb key (lit "message")); discriminate.
Qed.

Lemma call_includes_throws (v : JsVal) (needle : jsstring) (e : JsVal) :
  call_includes v needle = Throw e -> exists m, e = JError KTypeError m.
Proof.
  destruct v; cbn [call_includes]; intros H; try discriminate;
    injection H as <-; now eexists.
Qed.

(** The [catch] block logs nothing; it returns one of its three error
    objects or throws a [TypeError]. *)
Lemma catch_outcomes (error : JsVal) :
  exists c, transcript_catch error = ([], c)
            /\ (c = Normal (error_object msg_no_captions)
                \/ c = Normal (error_object msg_invalid_id)
                \/ c = Normal (error_object msg_failed)
                \/ exists m, c = Throw (JError KTypeError m)).
Proof.
  unfold transcript_catch.
  destruct (get_prop error (lit "message")) as [message|x] eqn:G.
  - rewrite bind_lift_normal.
    destruct (call_includes message (lit "No captions")) as [[|]|x] eqn:C1.
    + rewrite bind_lift_normal. eexists. split; [reflexivity | now left].
    + rewrite !bind_lift_normal.
      destruct (call_includes message (lit "Invalid video ID"))
        as [[|]|x] eqn:C2.
      * rewrite bind_lift_normal. eexists. split; [reflexivity|].
        right; now left.
      * rewrite bind_lift_normal. eexists. split; [reflexivity|].
        right; right; now left.
      * rewrite bind_lift_throw. destruct (call_includes_throws _ _ _ C2) as [m ->].
        eexists. split; [reflexivity|]. right; right; right. now eexists.
    + rewrite bind_lift_throw. destruct (call_includes_throws _ _ _ C1) as [m ->].
      eexists. split; [reflexivity|]. right; right; right. now eexists.
  - rewrite bind_lift_throw. destruct (get_prop_throws _ _ _ G) as [m ->].
    eexists. split; [reflexivity|]. right; right; right. now eexists.
Qed.

Lemma catch_error_message (k : ErrorKind) (m : jsstring) :
  transcript_catch (JError k m)
  = ([], Normal (error_object
                   (if includes m (lit "No captions") then msg_no_captions
                    else if includes m (lit "Invalid video ID")
                         then msg_invalid_id
                         else msg_failed))).
Proof.
  unfold transcript_catch. rewrite get_message_of_error, bind_lift_normal.
  cbn [call_includes]. rewrite bind_lift_normal.
  destruct (includes m (lit "No captions")); [reflexivity|].
  rewrite bind_lift_normal. cbn [call_includes]. rewrite bind_lift_normal.
  destruct (includes m (lit "Invalid video ID")); reflexivity.
Qed.

Lemma valid_id_cases (videoId : JsVal) :
  negb (truthy videoId) || negb (is_string videoId) = false ->
  exists id, videoId = JStr id /\ id <> [].
Proof.
  destruct videoId; cbn; intros H; try discriminate;
    try (rewrite orb_true_r in H; discriminate).
  exists s. split; [reflexivity|]. now destruct s.
Qed.

(** The transcript assembler on a valid identifier, by what the
    provider does. *)
Lemma transcript_by_provider (getSubtitles : Provider) (id : jsstring) :
  id <> [] ->
  getYouTubeTranscript getSubtitles (JStr id)
  = match getSubtitles (JStr id) (lit "en") with
    | Resolves None | Resolves (Some []) =>
        ([EvGetSubtitles (JStr id) (lit "en")],
         Normal (error_object msg_no_captions))
    | Resolves (Some (c :: cs)) =>
        ([EvGetSubtitles (JStr id) (lit "en")],
         if (List.length (str_split ch_space (joined_text (c :: cs))) <? 50)%nat
         then Normal (error_object msg_not_enough)
         else Normal (JStr (joined_text (c :: cs))))
    | Rejects v =>
        ([EvGetSubtitles (JStr id) (lit "en")], snd (transcript_catch v))
    end.
Proof.
  intros Hid. unfold getYouTubeTranscript. rewrite (try_valid_id _ Hid).
  unfold await_getSubtitles.
  destruct (getSubtitles (JStr id) (lit "en")) as [[[|c cs]|]|v].
  - reflexivity.
  - unfold bind, ret. destruct (_ <? 50)%nat; reflexivity.
  - reflexivity.
  - destruct (catch_outcomes v) as (c & Hc & _).
    unfold bind, try_catch. rewrite Hc. reflexivity.
Qed.

(** X1: when the provider finds no captions (it resolves with [null],
    [undefined] or an empty array), the result is the error object that
    asks for a video with subtitles. *)
Theorem no_captions_reported (getSubtitles : Provider) (id : jsstring) :
  id <> [] ->
  getSubtitles (JStr id) (lit "en") = Resolves None
  \/ getSubtitles (JStr id) (lit "en") = Resolves (Some []) ->
  getYouTubeTranscript getSubtitles (JStr id)
  = ([EvGetSubtitles (JStr id) (lit "en")],
     Normal (error_object msg_no_captions)).
Proof.
  intros Hid H. rewrite (transcript_by_provider _ _ Hid).
  destruct H as [-> | ->]; reflexivity.
Qed.

Lemma no_captions_reported_witness :
  getYouTubeTranscript (const_provider (Resolves (Some []))) (JStr sample_id)
  = ([EvGetSubtitles (JStr sample_id) (lit "en")],
     Normal (error_object msg_no_captions)).
Proof.
  apply no_captions_reported; [discriminate | right; reflexivity].
Defined.

(** X2: a rejection of the provider with an [Error] is classified by the
    text of its message: the no-captions error when it holds
    ["No captions"], else the invalid-identifier error when it holds
    ["Invalid video ID"] (although the identifier passed the check),
    else the generic failure. *)
Theorem rejection_classified_by_message
  (getSubtitles : Provider) (id : jsstring) (k : ErrorKind) (m : jsstring) :
  id <> [] ->
  getSubtitles (JStr id) (lit "en") = Rejects (JError k m) ->
  getYouTubeTranscript getSubtitles (JStr id)
  = ([EvGetSubtitles (JStr id) (lit "en")],
     Normal (error_object
               (if includes m (lit "No captions") then msg_no_captions
                else if includes m (lit "Invalid video ID")
                     then msg_invalid_id
                     else msg_failed))).
Proof.
  intros Hid H. rewrite (transcript_by_provider _ _ Hid), H.
  now rewrite catch_error_message.
Qed.

Lemma rejection_classified_by_message_witness :
  getYouTubeTranscript
    (const_provider (Rejects (new_Error (lit "Invalid video ID or No captions"))))
    (JStr sample_id)
  = ([EvGetSubtitles (JStr sample_id) (lit "en")],
     Normal (error_object msg_no_captions)).
Proof.
  apply (rejection_classified_by_message
           (const_provider
              (Rejects (new_Error (lit "Invalid video ID or No captions"))))
           sample_id KError (lit "Invalid video ID or No captions"));
    [discriminate | reflexivity].
Defined.

(** X3: whatever is returned is the joined text of the fragments, in at
    least 50 pieces and so not empty, or one of the four error
    objects. *)
Theorem transcript_outcomes
  (getSubtitles : Provider) (videoId : JsVal) (l : list Event) (r : JsVal) :
  getYouTubeTranscript getSubtitles videoId = (l, Normal r) ->
  (exists captions,
      getSubtitles videoId (lit "en") = Resolves (Some captions)
      /\ r = JStr (joined_text captions)
      /\ (50 <= List.length (str_split ch_space (joined_text captions)))%nat
      /\ (49 <= List.length (joined_text captions))%nat)
  \/ In r (List.map error_object
             [msg_not_enough; msg_no_captions; msg_invalid_id; msg_failed]).
Proof.
  intros H.
  destruct (negb (truthy videoId) || negb (is_string videoId)) eqn:G.
  - right. unfold getYouTubeTranscript, transcript_try in H. rewrite G in H.
    unfold throw, try_catch in H. rewrite catch_invalid_id in H.
    injection H as _ Hr; subst r. cbn. tauto.
  - destruct (valid_id_cases _ G) as (id & -> & Hid).
    rewrite (transcript_by_provider _ _ Hid) in H.
    destruct (getSubtitles (JStr id) (lit "en")) as [[[|c cs]|]|v] eqn:P.
    + injection H as _ Hr; subst r. right. cbn. tauto.
    + destruct (_ <? 50)%nat eqn:L; injection H as _ Hr; subst r.
      * right. cbn. tauto.
      * left. exists (c :: cs). apply Nat.ltb_ge in L.
        split; [reflexivity|]. split; [reflexivity|]. split; [exact L|].
        rewrite split_length in L.
        pose proof (count_occ_bound N.eq_dec ch_space (joined_text (c :: cs))).
        lia.
    + injection H as _ Hr; subst r. right. cbn. tauto.
    + destruct (catch_outcomes v) as (c & Hc & Hcase). rewrite Hc in H.
      cbn [snd] in H. injection H as _ Hr; subst c.
      destruct Hcase as [E|[E|[E|[m E]]]]; try discriminate;
        injection E as ->; right; cbn; tauto.
Qed.

Lemma transcript_outcomes_witness :
  (exists captions,
      const_provider (Resolves (Some fifty_fragments)) (JStr sample_id) (lit "en")
      = Resolves (Some captions)
      /\ JStr (joined_text fifty_fragments) = JStr (joined_text captions)
      /\ (50 <= List.length (str_split ch_space (joined_text captions)))%nat
      /\ (49 <= List.length (joined_text captions))%nat)
  \/ In (JStr (joined_text fifty_fragments))
       (List.map error_object
          [msg_not_enough; msg_no_captions; msg_invalid_id; msg_failed]).
Proof.
  apply (transcript_outcomes
           (const_provider (Resolves (Some fifty_fragments))) (JStr sample_id)
           [EvGetSubtitles (JStr sample_id) (lit "en")]).
  vm_compute. reflexivity.
Defined.

(** X4: the provider is contacted once, for English captions of the
    identifier that passed the check, and not at all for an identifier
    that did not; nothing else is logged. *)
Theorem provider_contacted_at_most_once
  (getSubtitles : Provider) (videoId : JsVal) :
  fst (getYouTubeTranscript getSubtitles videoId)
  = if negb (truthy videoId) || negb (is_string videoId) then []
    else [EvGetSubtitles videoId (lit "en")].
Proof.
  destruct (negb (truthy videoId) || negb (is_string videoId)) eqn:G.
  - unfold getYouTubeTranscript, transcript_try. rewrite G.
    unfold throw, try_catch. now rewrite catch_invalid_id.
  - destruct (valid_id_cases _ G) as (id & -> & Hid).
    rewrite (transcript_by_provider _ _ Hid).
    destruct (getSubtitles (JStr id) (lit "en")) as [[[|c cs]|]|v];
      reflexivity.
Qed.



(* ------------------------------------------------------------------ *)
(** ** The candidate, and what the extraction returns *)
(* ------------------------------------------------------------------ *)

Lemma bracket_pair_has_closer (s : jsstring) :
  bracket_pair s -> In ch_rbracket s.
Proof.
  intros (a & b & c & ->). apply in_or_app. right. right.
  apply in_or_app. right. now left.
Qed.

Lemma bracket_pair_split (s : jsstring) :
  bracket_pair s ->
  exists pre mid post,
    s = pre ++ ch_lbracket :: mid ++ ch_rbracket :: post
    /\ ~ In ch_lbracket pre /\ ~ In ch_rbracket post.
Proof.
  induction s as [|c s IH]; intros H.
  - destruct H as (a & b & d & H). destruct a; discriminate.
  - destruct (N.eqb_spec c ch_lbracket) as [->|Hne].
    + assert (Hin : In ch_rbracket s).
      { apply bracket_pair_cons in H. destruct H as [[_ H]|H];
          [exact H | now apply bracket_pair_has_closer]. }
      destruct (after_last ch_rbracket s) as [post|] eqn:E.
      * destruct (after_last_split _ _ E) as (mid & -> & Hpost).
        exists [], mid, post. now repeat split.
      * apply after_last_none in E. contradiction.
    + apply bracket_pair_cons in H. destruct H as [[Hc _]|H]; [congruence|].
      destruct (IH H) as (pre & mid & post & -> & Hpre & Hpost).
      exists (c :: pre), mid, post. repeat split; [|exact Hpost].
      intros [Hc|Hin]; [congruence | contradiction].
Qed.

Lemma search_array_some_pair (s : jsstring) (m : MatchArray) :
  search re_array s = Some m -> bracket_pair s.
Proof.
  intros H. apply search_some_suffix in H. destruct H as (t & Ht & Hm).
  apply (bracket_pair_suffix Ht). rewrite match_here_array in Hm.
  destruct t as [|c t]; [congruence|].
  destruct (N.eqb_spec c ch_lbracket) as [->|]; [|congruence].
  destruct (after_last ch_rbracket t) as [r|] eqn:E; [|now cbn in Hm].
  destruct (after_last_split _ _ E) as (mid & -> & _).
  now exists [], mid, r.
Qed.

Lemma find_json_candidate (content : jsstring) (m : MatchArray) :
  find_json content = Some m ->
  exists mid,
    m = {| at0 := Some (ch_lbracket :: mid ++ [ch_rbracket]); at1 := None |}.
Proof.
  intros H. rewrite find_json_is_array_search in H.
  pose proof (search_array_some_pair _ _ H) as Hp.
  destruct (bracket_pair_split _ Hp) as (pre & mid & post & -> & Hpre & Hpost).
  rewrite (search_array_exact pre mid post Hpre Hpost) in H.
  injection H as <-. now exists mid.
Qed.

(** *** A text that starts with ['['] parses to an array *)

Lemma bottom_array_cons (f : Frame) (st : list Frame) :
  st <> [] -> bottom_array (f :: st) = bottom_array st.
Proof. destruct st; [congruence | reflexivity]. Qed.

Lemma bottom_array_nonempty (st : list Frame) :
  bottom_array st = true -> st <> [].
Proof. destruct st; [discriminate | discriminate]. Qed.

Lemma deliver_in_array (v : JsVal) (stack : list Frame) (ps : PState) :
  (stack = [] -> is_array v = true) ->
  (stack <> [] -> bottom_array stack = true) ->
  deliver v stack = Some ps -> in_array ps = true.
Proof.
  intros Hv Hs H. destruct stack as [|[d|d|d k] st]; cbn [deliver] in H;
    try discriminate; injection H as <-; cbn [in_array].
  - now apply Hv.
  - specialize (Hs ltac:(discriminate)). destruct st; [reflexivity | exact Hs].
  - specialize (Hs ltac:(discriminate)). destruct st; [discriminate | exact Hs].
Qed.

Lemma deliver_popped (v : JsVal) (f : Frame) (st : list Frame) (ps : PState) :
  bottom_array (f :: st) = true ->
  (st = [] -> is_array v = true) ->
  deliver v st = Some ps -> in_array ps = true.
Proof.
  intros Hb Hv. apply deliver_in_array; [exact Hv|].
  intros Hne. now rewrite (bottom_array_cons f st Hne) in Hb.
Qed.

Lemma step_in_array (trailing : bool) (ps ps' : PState) (t : Token) :
  in_array ps = true -> parse_step trailing ps t = Some ps' ->
  in_array ps' = true.
Proof.
  destruct ps as [mode stack]. intros Hin H.
  destruct mode; cbn [in_array] in Hin; try discriminate;
    pose proof (bottom_array_nonempty _ Hin) as Hne;
    pose proof (fun f => eq_trans (bottom_array_cons f stack Hne) Hin)
      as Hpush;
    destruct t; cbn [parse_step scalar_of] in H; try discriminate;
    try (injection H as <-; cbn [in_array];
         first [exact Hin | apply Hpush]);
    try (apply (deliver_in_array _ _ _ ltac:(congruence)
                  ltac:(intros _; exact Hin) H)).
  all: destruct stack as [|[d|d|d k] st]; try discriminate.
  all: try (injection H as <-; cbn [in_array]; try (destruct trailing);
            first [exact Hin | destruct st; [discriminate | exact Hin]]).
  all: eapply deliver_popped; [exact Hin | | exact H]; intros Hst;
    first [reflexivity | subst st; discriminate].
Qed.

Lemma run_in_array (trailing : bool) (ts : list Token) :
  forall ps v, in_array ps = true -> parse_run trailing ps ts = Some v ->
               is_array v = true.
Proof.
  induction ts as [|t ts IH]; intros [mode stack] v Hin H; cbn [parse_run] in H.
  - destruct mode; try discriminate. injection H as <-. exact Hin.
  - destruct (parse_step trailing (mode, stack) t) as [ps'|] eqn:E;
      [|discriminate].
    exact (IH ps' v (step_in_array _ _ _ _ Hin E) H).
Qed.

(** [JSON.parse] of a text that starts with ['['] is an array. *)
Lemma bracket_text_parses_to_array (x : jsstring) (v : JsVal) :
  JSON_parse (ch_lbracket :: x) = Normal v -> is_array v = true.
Proof.
  unfold JSON_parse, parse_text, tokenize. cbn [lex_run].
  change (lex_step LBetween ch_lbracket) with (Some (LBetween, [TLBracket])).
  cbv iota beta. destruct (lex_run LBetween x) as [ts|]; [|discriminate].
  cbn [app]. unfold parse_tokens. cbn [parse_run parse_step].
  destruct (parse_run false (MValueOrClose, [FArr []]) ts) as [w|] eqn:E;
    [|discriminate].
  intros H. injection H as <-.
  exact (run_in_array false ts (MValueOrClose, [FArr []]) w eq_refl E).
Qed.

(** *** The repair pass keeps the opening bracket *)

Lemma replace_all_keep (r : regex) (tpl : list Piece) (c : N) (s : jsstring) :
  match_here r (c :: s) = None ->
  replace_all r tpl (c :: s) = c :: replace_all r tpl s.
Proof. intros H. now rewrite replace_all_cons, H. Qed.

Lemma drop_space_snoc (c : N) (l : jsstring) :
  is_space c = false -> exists l', drop_space (l ++ [c]) = l' ++ [c].
Proof.
  intros Hc. induction l as [|x l (l' & IH)]; cbn [app drop_space].
  - rewrite Hc. now exists [].
  - destruct (is_space x); [now exists l' | now exists (x :: l)].
Qed.

Lemma trim_keeps_head (c : N) (x : jsstring) :
  is_space c = false -> exists y, trim (c :: x) = c :: y.
Proof.
  intros Hc. unfold trim. cbn [drop_space]. rewrite Hc. cbn [rev].
  destruct (drop_space_snoc c (rev x) Hc) as (l' & ->).
  rewrite rev_unit. now eexists.
Qed.

Lemma repair_keeps_bracket (x : jsstring) :
  exists y, repair (ch_lbracket :: x) = ch_lbracket :: y.
Proof.
  unfold repair. rewrite replace_trailing_comma. cbn [strip_commas].
  change (N.eqb ch_lbracket ch_comma) with false. cbn [andb].
  rewrite (replace_all_keep re_escaped_quote)
    by (now rewrite match_here_escaped_quote).
  rewrite (replace_all_keep re_broken_string)
    by (now rewrite match_here_broken_string).
  rewrite replace_newline. cbn [List.map].
  change (nl_to_space ch_lbracket) with ch_lbracket.
  rewrite replace_spaces. cbn [collapse_from].
  change (is_space ch_lbracket) with false. cbv iota.
  now apply trim_keeps_head.
Qed.

(** *** What the extraction does, by cases *)

Lemma extract_cases (content : jsstring) :
  (~ bracket_pair content
   /\ extract_questions content
      = ([EvConsoleError [JStr (lit "No JSON found in AI response:");
                          JStr content]],
         Throw (new_Error msg_no_json)))
  \/ (exists mid l v,
         find_json content
         = Some {| at0 := Some (ch_lbracket :: mid ++ [ch_rbracket]);
                   at1 := None |}
         /\ extract_questions content = (l, Normal v)
         /\ existsb is_fetch l = false
         /\ is_array v = true).
Proof.
  destruct (find_json content) as [m|] eqn:F.
  - right. destruct (find_json_candidate _ _ F) as (mid & ->).
    exists mid.
    destruct (JSON_parse_cases (ch_lbracket :: mid ++ [ch_rbracket]))
      as [[v Hp]|Hp].
    + exists [], v. rewrite (@extract_direct content _ _ v F eq_refl Hp).
      repeat split. exact (bracket_text_parses_to_array _ _ Hp).
    + destruct (JSON_parse_cases (repair (ch_lbracket :: mid ++ [ch_rbracket])))
        as [[v Hr]|Hr].
      * eexists _, v.
        rewrite (@extract_repaired content _ _ v F eq_refl Hp Hr).
        repeat split.
        destruct (repair_keeps_bracket (mid ++ [ch_rbracket])) as (y & Hy).
        rewrite Hy in Hr. exact (bracket_text_parses_to_array _ _ Hr).
      * eexists _, fallback_questions.
        rewrite (@extract_fallback content _ _ F eq_refl Hp Hr).
        repeat split.
  - left. split.
    + apply search_array_none. now rewrite <- find_json_is_array_search.
    + now apply extract_none.
Qed.

(* ------------------------------------------------------------------ *)
(** ** [generateQuizQuestions]: every path *)
(* ------------------------------------------------------------------ *)

Lemma bind_pair_normal A B (l : list Event) (a : A) (f : A -> Eff B) :
  bind (l, Normal a) f = (l ++ fst (f a), snd (f a)).
Proof. unfold bind. now destruct (f a). Qed.

Lemma bind_pair_throw A B (l : list Event) (e : JsVal) (f : A -> Eff B) :
  bind (l, Throw e) f = (l, Throw e).
Proof. reflexivity. Qed.

Lemma get_index0_throws (v e : JsVal) :
  get_index0 v = Throw e -> exists m, e = JError KTypeError m.
Proof.
  destruct v as [| | | |s|items|props|]; cbn [get_index0]; intros H;
    try discriminate; try (injection H as <-; now eexists).
  - destruct s; discriminate.
  - destruct items; discriminate.
  - destruct (own_prop props (lit "0")); discriminate.
Qed.

Lemma content_of_throws (data e : JsVal) :
  content_of data = Throw e -> exists m, e = JError KTypeError m.
Proof.
  unfold content_of. intros H.
  destruct (get_prop data (lit "choices")) as [choices|x] eqn:G1.
  - destruct (get_index0 choices) as [choice|x] eqn:G2.
    + destruct (get_prop choice (lit "message")) as [message|x] eqn:G3.
      * exact (get_prop_throws _ _ _ H).
      * injection H as <-. exact (get_prop_throws _ _ _ G3).
    + injection H as <-. exact (get_index0_throws _ _ G2).
  - injection H as <-. exact (get_prop_throws _ _ _ G1).
Qed.

(** The [try] block: it throws after the request, or the network
    answered with model output that holds a bracket pair and the
    extraction returned an array. *)
Lemma quiz_try_cases (fetch : Network) (key prompt : jsstring) :
  (exists rest e,
      quiz_try fetch key prompt
      = (EvFetch (make_request key prompt) :: rest, Throw e)
      /\ existsb is_fetch rest = false
      /\ (rejects_with_errors fetch -> is_error e = true))
  \/ (exists content l v,
         answers_with fetch (make_request key prompt) content
         /\ extract_questions content = (l, Normal v)
         /\ existsb is_fetch l = false
         /\ is_array v = true
         /\ quiz_try fetch key prompt
            = (EvFetch (make_request key prompt)
                 :: EvConsoleLog [JStr (lit "AI Response:"); JStr content] :: l,
               Normal v)).
Proof.
  unfold quiz_try, await_fetch.
  destruct (fetch (make_request key prompt)) as [resp|e] eqn:F.
  - rewrite bind_pair_normal. destruct (ok resp) eqn:O; cbn [negb].
    + destruct (body_json resp) as [data|e] eqn:J.
      * rewrite bind_lift_normal.
        destruct (content_of data) as [content|e] eqn:C.
        -- rewrite bind_lift_normal, bind_emit.
           destruct content as [| | | |s| | |];
             try (left; do 2 eexists; split; [reflexivity|];
                  split; [reflexivity | intros _; reflexivity]).
           cbn [extract_from].
           destruct (extract_cases s) as [[Hn E]|(mid & l & v & Hf & E & Hl & Hv)].
           ++ left. rewrite E. do 2 eexists. split; [reflexivity|].
              split; [reflexivity | intros _; reflexivity].
           ++ right. exists s, l, v. rewrite E.
              split; [now exists resp, data|]. repeat split; assumption.
        -- left. rewrite bind_lift_throw. do 2 eexists.
           split; [reflexivity|]. split; [reflexivity|]. intros _.
           destruct (content_of_throws _ _ C) as [m ->]. reflexivity.
      * left. rewrite bind_lift_throw. do 2 eexists.
        split; [reflexivity|]. split; [reflexivity|]. intros Hr.
        specialize (Hr (make_request key prompt)). rewrite F, J in Hr.
        exact (proj2 Hr).
    + destruct (body_text resp) as [text|e] eqn:T.
      * left. rewrite bind_lift_normal, bind_emit.
        destruct (N.eqb (status resp) 401); [|destruct (N.eqb (status resp) 429)];
          do 2 eexists; (split; [reflexivity|]);
          (split; [reflexivity | intros _; reflexivity]).
      * left. rewrite bind_lift_throw. do 2 eexists.
        split; [reflexivity|]. split; [reflexivity|]. intros Hr.
        specialize (Hr (make_request key prompt)). rewrite F, T in Hr.
        exact (proj1 Hr).
  - left. rewrite bind_pair_throw. exists [], e.
    split; [reflexivity|]. split; [reflexivity|]. intros Hr.
    specialize (Hr (make_request key prompt)). now rewrite F in Hr.
Qed.

(** The whole function behind a usable key, on a string. *)
Lemma generate_cases (fetch : Network) (key t : jsstring) :
  usable_key key ->
  (exists rest e,
      generateQuizQuestions (Some key) fetch (JStr t)
      = (EvFetch (request_for key t)
           :: rest ++ [EvConsoleError [JStr (lit "Error generating quiz:"); e]],
         Throw e)
      /\ existsb is_fetch rest = false
      /\ (rejects_with_errors fetch -> is_error e = true))
  \/ (exists content l v,
         answers_with fetch (request_for key t) content
         /\ extract_questions content = (l, Normal v)
         /\ existsb is_fetch l = false
         /\ is_array v = true
         /\ generateQuizQuestions (Some key) fetch (JStr t)
            = (EvFetch (request_for key t)
                 :: EvConsoleLog [JStr (lit "AI Response:"); JStr content] :: l,
               Normal v)).
Proof.
  intros Hk. rewrite (@generate_with_key fetch key (JStr t) Hk).
  cbn [call_substring]. rewrite bind_lift_normal.
  fold (request_for key t).
  destruct (quiz_try_cases fetch key (make_prompt (substring0 3000 t)))
    as [(rest & e & E & Hr & He)|(content & l & v & Ha & Ex & Hl & Hv & E)];
    rewrite E.
  - left. exists rest, e. split; [reflexivity|]. now split.
  - right. exists content, l, v. now repeat split.
Qed.

(** Without a usable key, or on a transcript that is not a string, an
    [Error] is thrown before anything else happens. *)
Lemma generate_no_request (key : option jsstring) (fetch : Network)
  (transcript : JsVal) :
  (forall k t, key = Some k -> transcript = JStr t -> ~ usable_key k) ->
  exists e, generateQuizQuestions key fetch transcript = ([], Throw e)
            /\ is_error e = true.
Proof.
  intros H. unfold generateQuizQuestions.
  destruct key as [[|c k]|]; try (eexists; split; reflexivity).
  destruct (str_eqb (c :: k) placeholder_key) eqn:P;
    [eexists; split; reflexivity|].
  destruct transcript as [| | | |t| | |];
    try (eexists; split; reflexivity).
  exfalso. apply (H (c :: k) t eq_refl eq_refl). split; [discriminate|exact P].
Qed.

Lemma usable_key_dec (k : jsstring) : usable_key k \/ ~ usable_key k.
Proof.
  unfold usable_key. destruct k as [|c k]; [right; intros [H _]; congruence|].
  destruct (str_eqb (c :: k) placeholder_key).
  - right. intros [_ H]. discriminate.
  - left. split; [discriminate | reflexivity].
Qed.

Lemma generate_reaches_try (key : option jsstring) (transcript : JsVal) :
  (exists k t, key = Some k /\ transcript = JStr t /\ usable_key k)
  \/ (forall k t, key = Some k -> transcript = JStr t -> ~ usable_key k).
Proof.
  destruct key as [k|]; [|right; discriminate].
  destruct transcript as [| | | |t| | |]; try (right; discriminate).
  destruct (usable_key_dec k) as [H|H].
  - left. now exists k, t.
  - right. intros k' t' [= <-] _. exact H.
Qed.

(** X6: whatever [generateQuizQuestions] returns is an array, for every
    key, network and transcript: the parsed candidate starts with a
    bracket, and the fallback is an array literal. *)
Theorem quiz_result_is_array
  (key : option jsstring) (fetch : Network) (transcript v : JsVal) :
  snd (generateQuizQuestions key fetch transcript) = Normal v ->
  is_array v = true.
Proof.
  intros H.
  destruct (generate_reaches_try key transcript) as [(k & t & -> & -> & Hk)|Hn].
  - destruct (generate_cases fetch k t Hk)
      as [(rest & e & E & _)|(content & l & w & _ & _ & _ & Hw & E)];
      rewrite E in H; [discriminate|].
    injection H as <-. exact Hw.
  - destruct (generate_no_request key fetch transcript Hn) as (e & E & _).
    rewrite E in H. discriminate.
Qed.

Lemma quiz_result_is_array_witness : is_array sure_quiz = true.
Proof.
  apply (quiz_result_is_array (Some sample_key) (model_says sure_output)
           (JStr (lit "a transcript")) sure_quiz).
  vm_compute. reflexivity.
Defined.


(** X8: behind a usable key, whatever the function throws was thrown
    after the request, is the last thing logged, under
    ["Error generating quiz:"], and is rethrown as it is. *)
Theorem failure_logged_and_rethrown
  (fetch : Network) (key t : jsstring) (l : list Event) (e : JsVal) :
  usable_key key ->
  generateQuizQuestions (Some key) fetch (JStr t) = (l, Throw e) ->
  exists rest,
    l = EvFetch (request_for key t)
          :: rest ++ [EvConsoleError [JStr (lit "Error generating quiz:"); e]]
    /\ existsb is_fetch rest = false.
Proof.
  intros Hk H.
  destruct (generate_cases fetch key t Hk)
    as [(rest & x & E & Hr & _)|(content & l' & w & _ & _ & _ & _ & E)];
    rewrite E in H; [|discriminate].
  injection H as <- <-. now exists rest.
Qed.

Lemma failure_logged_and_rethrown_witness :
  exists rest,
    [EvFetch (request_for sample_key (lit "a transcript"));
     EvConsoleError [JStr (lit "Error generating quiz:");
                     JError KTypeError (lit "fetch failed")]]
    = EvFetch (request_for sample_key (lit "a transcript"))
        :: rest ++ [EvConsoleError [JStr (lit "Error generating quiz:");
                                    JError KTypeError (lit "fetch failed")]]
    /\ existsb is_fetch rest = false.
Proof.
  apply (failure_logged_and_rethrown unreachable sample_key
           (lit "a transcript")); [exact sample_key_usable|].
  vm_compute. reflexivity.
Defined.

(** X9: a response outside the 2xx range is read as text, logged, and
    turned into an [Error] by its status: the invalid-key message for
    401, the rate-limit message for 429, and for any other status a
    message that holds the status and the text of the response. *)
Theorem upstream_status_classified
  (fetch : Network) (key t : jsstring) (resp : Response) (errorText : jsstring) :
  usable_key key ->
  fetch (request_for key t) = Normal resp ->
  ok resp = false ->
  body_text resp = Normal errorText ->
  generateQuizQuestions (Some key) fetch (JStr t)
  = ([EvFetch (request_for key t);
      EvConsoleError [JStr (lit "OpenRouter API error response:");
                      JStr errorText];
      EvConsoleError [JStr (lit "Error generating quiz:");
                      new_Error (status_message (status resp) errorText)]],
     Throw (new_Error (status_message (status resp) errorText))).
Proof.
  intros Hk F O T. rewrite (@generate_with_key fetch key (JStr t) Hk).
  cbn [call_substring]. rewrite bind_lift_normal. fold (request_for key t).
  unfold quiz_try, await_fetch. fold (request_for key t). rewrite F.
  rewrite bind_pair_normal, O. cbn [negb]. rewrite T, bind_lift_normal, bind_emit.
  unfold status_message.
  destruct (N.eqb (status resp) 401); [|destruct (N.eqb (status resp) 429)];
    reflexivity.
Qed.

Lemma upstream_status_classified_witness :
  generateQuizQuestions (Some sample_key) (refuses_with 429 (lit "slow down"))
    (JStr (lit "a transcript"))
  = ([EvFetch (request_for sample_key (lit "a transcript"));
      EvConsoleError [JStr (lit "OpenRouter API error response:");
                      JStr (lit "slow down")];
      EvConsoleError [JStr (lit "Error generating quiz:");
                      new_Error msg_rate_limit]],
     Throw (new_Error msg_rate_limit)).
Proof.
  apply (upstream_status_classified (refuses_with 429 (lit "slow down"))
           sample_key (lit "a transcript")
           {| ok := false; status := 429;
              body_text := Normal (lit "slow down");
              body_json := Throw (JError KSyntaxError
                                    (lit "Unexpected token in JSON")) |}
           (lit "slow down") sample_key_usable);
    reflexivity.
Defined.

(** X10: once the model's output holds a ['['] with a [']'] after it,
    the function returns an array and throws nothing: a candidate that
    does not parse, as it is or repaired, is answered with the
    fallback. *)
Theorem bracketed_answer_never_throws
  (fetch : Network) (key t content : jsstring) :
  usable_key key ->
  answers_with fetch (request_for key t) content ->
  bracket_pair content ->
  exists l v,
    generateQuizQuestions (Some key) fetch (JStr t)
    = (EvFetch (request_for key t)
         :: EvConsoleLog [JStr (lit "AI Response:"); JStr content] :: l,
       Normal v)
    /\ is_array v = true
    /\ existsb is_fetch l = false.
Proof.
  intros Hk Ha Hb. rewrite (@generate_on_answer fetch key t content Hk Ha).
  destruct (extract_cases content) as [[Hn _]|(mid & l & v & _ & E & Hl & Hv)];
    [contradiction|].
  rewrite E. now exists l, v.
Qed.

Lemma bracketed_answer_never_throws_witness :
  exists l v,
    generateQuizQuestions (Some sample_key) (model_says (lit "[oops]"))
      (JStr (lit "a transcript"))
    = (EvFetch (request_for sample_key (lit "a transcript"))
         :: EvConsoleLog [JStr (lit "AI Response:"); JStr (lit "[oops]")] :: l,
       Normal v)
    /\ is_array v = true
    /\ existsb is_fetch l = false.
Proof.
  apply (bracketed_answer_never_throws (model_says (lit "[oops]")) sample_key
           (lit "a transcript") (lit "[oops]") sample_key_usable
           (model_says_answers (lit "[oops]")
              (request_for sample_key (lit "a transcript")))).
  exists [], (lit "oops"), []. reflexivity.
Defined.

(** X11: the candidate is the widest span there is, from the first
    ['['] of the output to its last [']'], whatever lies between them
    (other brackets, prose, a second array); the group of the fenced
    pattern is never set. *)
Theorem candidate_spans_first_to_last (pre mid post : jsstring) :
  ~ In ch_lbracket pre -> ~ In ch_rbracket post ->
  find_json (pre ++ ch_lbracket :: mid ++ ch_rbracket :: post)
  = Some {| at0 := Some (ch_lbracket :: mid ++ [ch_rbracket]); at1 := None |}.
Proof.
  intros Hpre Hpost. rewrite find_json_is_array_search.
  now apply search_array_exact.
Qed.

Lemma candidate_spans_first_to_last_witness :
  find_json (lit "One: " ++ ch_lbracket :: lit "1] and two: [2"
               ++ ch_rbracket :: lit ".")
  = Some {| at0 := Some (ch_lbracket :: lit "1] and two: [2" ++ [ch_rbracket]);
            at1 := None |}.
Proof.
  apply (candidate_spans_first_to_last (lit "One: ") (lit "1] and two: [2")
           (lit ".")).
  - vm_compute. intuition discriminate.
  - vm_compute. intuition discriminate.
Defined.

(** X12: only the first 3000 code units of the transcript are used:
    two transcripts that agree on them give the same request, the same
    log and the same result. *)
Theorem transcript_beyond_limit_ignored
  (key : option jsstring) (fetch : Network) (t1 t2 : jsstring) :
  firstn 3000 t1 = firstn 3000 t2 ->
  generateQuizQuestions key fetch (JStr t1)
  = generateQuizQuestions key fetch (JStr t2).
Proof.
  intros H. unfold generateQuizQuestions, call_substring, substring0.
  now rewrite H.
Qed.

Lemma transcript_beyond_limit_ignored_witness :
  generateQuizQuestions (Some sample_key) (model_says sure_output)
    (JStr (repeat ch_space 3000 ++ lit "the end"))
  = generateQuizQuestions (Some sample_key) (model_says sure_output)
      (JStr (repeat ch_space 3000 ++ lit "another end")).
Proof.
  apply (transcript_beyond_limit_ignored (Some sample_key)
           (model_says sure_output)
           (repeat ch_space 3000 ++ lit "the end")
           (repeat ch_space 3000 ++ lit "another end")).
  vm_compute. reflexivity.
Defined.

(* ------------------------------------------------------------------ *)
(** ** The white space of the repaired text *)
(* ------------------------------------------------------------------ *)

Lemma collapse_spaced (s : jsstring) :
  forall b, spaced_singly b (collapse_from b s) = true.
Proof.
  induction s as [|c s IH]; intros b; [reflexivity|].
  cbn [collapse_from]. destruct (is_space c) eqn:Hc.
  - destruct b; [apply IH|]. cbn [spaced_singly].
    change (is_space ch_space) with true. cbv iota.
    rewrite N.eqb_refl. cbn [negb andb]. apply IH.
  - cbn [spaced_singly]. rewrite Hc. apply IH.
Qed.

Lemma spaced_no_leading (s : jsstring) :
  spaced_singly true s = true -> drop_space s = s.
Proof.
  destruct s as [|c s]; [reflexivity|]. cbn [spaced_singly drop_space].
  destruct (is_space c); [|reflexivity].
  rewrite andb_false_r. discriminate.
Qed.

Lemma spaced_drop_space (s : jsstring) :
  spaced_singly false s = true -> spaced_singly true (drop_space s) = true.
Proof.
  destruct s as [|c s]; [reflexivity|]. cbn [spaced_singly drop_space].
  destruct (is_space c) eqn:Hc.
  - intros H. apply andb_prop in H. destruct H as [_ H].
    now rewrite (spaced_no_leading s H).
  - intros H. cbn [spaced_singly]. now rewrite Hc.
Qed.

Lemma spaced_prefix (x y : jsstring) :
  forall b, spaced_singly b (x ++ y) = true -> spaced_singly b x = true.
Proof.
  induction x as [|c x IH]; intros b H; [reflexivity|].
  cbn [app spaced_singly] in *. destruct (is_space c).
  - apply andb_prop in H. destruct H as [H1 H2]. rewrite H1. now apply IH.
  - now apply IH.
Qed.

Lemma drop_space_suffix (l : jsstring) : exists w, l = w ++ drop_space l.
Proof.
  induction l as [|c l [w IH]]; [now exists []|]. cbn [drop_space].
  destruct (is_space c).
  - exists (c :: w). cbn [app]. now f_equal.
  - now exists [].
Qed.

Lemma drop_space_head (l r : jsstring) (c : N) :
  drop_space l = c :: r -> is_space c = false.
Proof.
  induction l as [|d l IH]; [discriminate|]. cbn [drop_space].
  destruct (is_space d) eqn:Hd; [exact IH|]. now intros [= <- _].
Qed.

Lemma trim_spaced (s : jsstring) :
  spaced_singly false s = true ->
  spaced_singly true (trim s) = true
  /\ forall x c, trim s = x ++ [c] -> is_space c = false.
Proof.
  intros H. unfold trim. split.
  - destruct (drop_space_suffix (rev (drop_space s))) as [w Hw].
    apply (spaced_prefix _ (rev w)).
    rewrite <- rev_app_distr, <- Hw, rev_involutive.
    now apply spaced_drop_space.
  - intros x c E. apply (f_equal (@rev N)) in E.
    rewrite rev_involutive, rev_unit in E.
    exact (drop_space_head _ _ _ E).
Qed.

(** X13: in the repaired text every white-space code unit is a single
    space between two other code units: no line break, no tab, no run
    of spaces, none at the start or at the end, inside the strings of
    the candidate as well as between its tokens. *)
Theorem repair_spacing (jsonString : jsstring) :
  spaced_singly true (repair jsonString) = true
  /\ forall x c, repair jsonString = x ++ [c] -> is_space c = false.
Proof.
  unfold repair. rewrite replace_spaces. apply trim_spaced, collapse_spaced.
Qed.

(* ------------------------------------------------------------------ *)
(** ** The two routes *)
(* ------------------------------------------------------------------ *)

Lemma rbind_rlift_normal A B (a : A) (f : A -> Route B) :
  rbind (rlift (Normal a)) f = f a.
Proof. unfold rbind, rlift. now destruct (f a). Qed.

Lemma rbind_remit B (e : RouteEvent) (k : Route B) :
  rbind (remit e) (fun _ => k) = (e :: fst k, snd k).
Proof. unfold rbind, remit. now destruct k. Qed.

Lemma rbind_core A B (m : Eff A) (f : A -> Route B) :
  rbind (core m) f
  = match snd m with
    | Normal a => (List.map Core (fst m) ++ fst (f a), snd (f a))
    | Throw e => (List.map Core (fst m), Throw e)
    end.
Proof.
  unfold rbind, core. destruct m as [l [a|e]]; cbn [fst snd]; [|reflexivity].
  now destruct (f a).
Qed.

Lemma message_includes_error (k : ErrorKind) (m phrase : jsstring) :
  message_includes (JError k m) phrase = Normal (includes m phrase).
Proof. reflexivity. Qed.

(** The [catch] block of [/generate-quiz] on an [Error]. *)
Lemma quiz_route_catch_error (k : ErrorKind) (m : jsstring) :
  quiz_route_catch (JError k m)
  = ([Core (EvConsoleError [JStr (lit "Error generating quiz:"); JError k m])],
     Normal (error_response m)).
Proof.
  unfold quiz_route_catch, error_response.
  rewrite rbind_remit, !message_includes_error, rbind_rlift_normal.
  destruct (includes m (lit "API key not configured")); cbn [orb].
  - unfold rret at 1. cbn [rbind].
    rewrite get_message_of_error, rbind_rlift_normal. reflexivity.
  - rewrite rbind_rlift_normal.
    destruct (includes m (lit "Invalid OpenRouter API key")).
    + rewrite get_message_of_error, rbind_rlift_normal. reflexivity.
    + rewrite rbind_rlift_normal. destruct (includes m (lit "Rate limit")).
      * rewrite get_message_of_error, rbind_rlift_normal. reflexivity.
      * rewrite rbind_rlift_normal. now destruct (includes m (lit "parse")).
Qed.


(** The [catch] block never answers with 200. *)
Lemma quiz_route_catch_not_ok (e : JsVal) (l : list RouteEvent)
  (resp : HttpResponse) :
  quiz_route_catch e = (l, Normal resp) -> http_status resp <> 200%N.
Proof.
  intros H. unfold quiz_route_catch, message_includes in H.
  destruct (get_prop e (lit "message")) as [msg|x]; [|discriminate H].
  destruct (call_includes msg (lit "API key not configured")) as [[|]|];
    destruct (call_includes msg (lit "Invalid OpenRouter API key")) as [[|]|];
    destruct (call_includes msg (lit "Rate limit")) as [[|]|];
    destruct (call_includes msg (lit "parse")) as [[|]|];
    try discriminate H; injection H as _ <-; discriminate.
Qed.

(** What [generateQuizQuestions] completes with. *)
Lemma generate_outcome (key : option jsstring) (fetch : Network)
  (transcript : JsVal) :
  (exists l items,
      generateQuizQuestions key fetch transcript = (l, Normal (JArr items)))
  \/ (exists l e,
         generateQuizQuestions key fetch transcript = (l, Throw e)
         /\ (rejects_with_errors fetch -> is_error e = true)).
Proof.
  destruct (generate_reaches_try key transcript) as [(k & t & -> & -> & Hk)|Hn].
  - destruct (generate_cases fetch k t Hk)
      as [(rest & e & E & _ & He)|(content & l & w & _ & _ & _ & Hw & E)].
    + right. do 2 eexists. split; [exact E | exact He].
    + left. destruct w; try discriminate. do 2 eexists. exact E.
  - right. destruct (generate_no_request key fetch transcript Hn) as (e & E & He).
    exists [], e. now split.
Qed.


(** *** [/generate-quiz] *)

Lemma quiz_route_returned (key : option jsstring) (fetch : Network)
  (body transcript : JsVal) (l : list Event) (items : list JsVal) :
  get_prop body (lit "transcript") = Normal transcript ->
  truthy transcript = true ->
  generateQuizQuestions key fetch transcript = (l, Normal (JArr items)) ->
  generate_quiz_route key fetch body
  = (log_generating :: List.map Core l ++ [log_generated items],
     Normal {| http_status := 200; http_body := quiz_payload (JArr items) |}).
Proof.
  intros Hb Ht Hg. unfold generate_quiz_route.
  rewrite Hb, rbind_rlift_normal, Ht. cbn [negb].
  rewrite rbind_remit, rbind_core, Hg. reflexivity.
Qed.

Lemma quiz_route_thrown (key : option jsstring) (fetch : Network)
  (body transcript : JsVal) (l : list Event) (e : JsVal) :
  get_prop body (lit "transcript") = Normal transcript ->
  truthy transcript = true ->
  generateQuizQuestions key fetch transcript = (l, Throw e) ->
  generate_quiz_route key fetch body
  = (log_generating :: List.map Core l ++ fst (quiz_route_catch e),
     snd (quiz_route_catch e)).
Proof.
  intros Hb Ht Hg. unfold generate_quiz_route.
  rewrite Hb, rbind_rlift_normal, Ht. cbn [negb].
  rewrite rbind_remit, rbind_core, Hg. cbn [fst snd rtry].
  destruct (quiz_route_catch e). reflexivity.
Qed.

Lemma quiz_route_falsy (key : option jsstring) (fetch : Network)
  (body transcript : JsVal) :
  get_prop body (lit "transcript") = Normal transcript ->
  truthy transcript = false ->
  generate_quiz_route key fetch body
  = ([], Normal {| http_status := 400;
                   http_body := error_object msg_transcript_required |}).
Proof.
  intros Hb Ht. unfold generate_quiz_route.
  now rewrite Hb, rbind_rlift_normal, Ht.
Qed.




(** X15: a response with status 200 carries [success: true] and, as
    [questions], the array [generateQuizQuestions] returned for the
    transcript of the body, which was truthy. *)
Theorem quiz_route_ok_payload
  (key : option jsstring) (fetch : Network) (body : JsVal)
  (l : list RouteEvent) (resp : HttpResponse) :
  generate_quiz_route key fetch body = (l, Normal resp) ->
  http_status resp = 200%N ->
  exists transcript items,
    get_prop body (lit "transcript") = Normal transcript
    /\ truthy transcript = true
    /\ snd (generateQuizQuestions key fetch transcript) = Normal (JArr items)
    /\ http_body resp = quiz_payload (JArr items).
Proof.
  intros H Hs.
  destruct (get_prop body (lit "transcript")) as [transcript|x] eqn:Hb.
  - destruct (truthy transcript) eqn:Ht.
    + destruct (generate_outcome key fetch transcript)
        as [(l' & items & E)|(l' & e & E & He)].
      * rewrite (quiz_route_returned key fetch body transcript l' items Hb Ht E)
          in H.
        injection H as _ <-. exists transcript, items. rewrite E. now repeat split.
      * rewrite (quiz_route_thrown key fetch body transcript l' e Hb Ht E) in H.
        injection H as _ H. exfalso.
        apply (quiz_route_catch_not_ok e (fst (quiz_route_catch e)) resp);
          [|exact Hs].
        rewrite <- H. now destruct (quiz_route_catch e).
    + rewrite (quiz_route_falsy key fetch body transcript Hb Ht) in H.
      injection H as _ <-. discriminate.
  - unfold generate_quiz_route in H. rewrite Hb in H. discriminate.
Qed.

Lemma quiz_route_ok_payload_witness :
  exists transcript items,
    get_prop (body_with (lit "transcript") (JStr (lit "a transcript")))
      (lit "transcript") = Normal transcript
    /\ truthy transcript = true
    /\ snd (generateQuizQuestions (Some sample_key) (model_says sure_output)
              transcript) = Normal (JArr items)
    /\ quiz_payload sure_quiz = quiz_payload (JArr items).
Proof.
  apply (quiz_route_ok_payload (Some sample_key) (model_says sure_output)
           (body_with (lit "transcript") (JStr (lit "a transcript")))
           (fst (generate_quiz_route (Some sample_key) (model_says sure_output)
                   (body_with (lit "transcript") (JStr (lit "a transcript")))))
           {| http_status := 200; http_body := quiz_payload sure_quiz |}).
  - vm_compute. reflexivity.
  - reflexivity.
Defined.

(** X16: when OpenRouter answers outside the 2xx range, the response of
    the route is decided by the text of the thrown message: status 401
    gives 400 with the invalid-key message, status 429 gives 429 with
    the rate-limit message, and for any other status the message holds
    the text OpenRouter sent, which is then searched for the same
    phrases and, on a match, sent back to the client. *)
Theorem quiz_route_upstream_status
  (fetch : Network) (key t : jsstring) (body : JsVal) (resp : Response)
  (errorText : jsstring) :
  usable_key key ->
  get_prop body (lit "transcript") = Normal (JStr t) -> t <> [] ->
  fetch (request_for key t) = Normal resp ->
  ok resp = false ->
  body_text resp = Normal errorText ->
  snd (generate_quiz_route (Some key) fetch body)
  = Normal (error_response (status_message (status resp) errorText))
  /\ (status resp = 401%N ->
      error_response (status_message (status resp) errorText)
      = {| http_status := 400; http_body := error_object msg_bad_key |})
  /\ (status resp = 429%N ->
      error_response (status_message (status resp) errorText)
      = {| http_status := 429; http_body := error_object msg_rate_limit |}).
Proof.
  intros Hk Hb Ht F O T. split; [|split].
  - assert (Htr : truthy (JStr t) = true) by now destruct t.
    assert (E : generateQuizQuestions (Some key) fetch (JStr t)
                = (fst (generateQuizQuestions (Some key) fetch (JStr t)),
                   Throw (new_Error (status_message (status resp) errorText)))).
    { rewrite (@generate_with_key fetch key (JStr t) Hk).
      cbn [call_substring]. rewrite bind_lift_normal.
      unfold quiz_try, await_fetch. fold (request_for key t). rewrite F.
      rewrite bind_pair_normal, O. cbn [negb].
      rewrite T, bind_lift_normal, bind_emit. unfold status_message.
      destruct (N.eqb (status resp) 401); [|destruct (N.eqb (status resp) 429)];
        reflexivity. }
    rewrite (quiz_route_thrown (Some key) fetch body (JStr t) _ _ Hb Htr E).
    unfold new_Error. now rewrite quiz_route_catch_error.
  - intros ->. reflexivity.
  - intros ->. reflexivity.
Qed.

Lemma quiz_route_upstream_status_witness :
  snd (generate_quiz_route (Some sample_key)
         (refuses_with 503 (lit "Rate limit of the provider reached"))
         (body_with (lit "transcript") (JStr (lit "a transcript"))))
  = Normal {| http_status := 429;
              http_body :=
                error_object
                  (lit "OpenRouter API error: 503 - Rate limit of the provider reached") |}.
Proof.
  apply (quiz_route_upstream_status
           (refuses_with 503 (lit "Rate limit of the provider reached"))
           sample_key (lit "a transcript")
           (body_with (lit "transcript") (JStr (lit "a transcript")))
           {| ok := false; status := 503;
              body_text := Normal (lit "Rate limit of the provider reached");
              body_json := Throw (JError KSyntaxError
                                    (lit "Unexpected token in JSON")) |}
           (lit "Rate limit of the provider reached") sample_key_usable);
    [reflexivity | discriminate | reflexivity | reflexivity | reflexivity].
Defined.

(** X17: without a configured key (none, empty, or the placeholder) a
    request with a truthy transcript is answered with 400 and the
    message that asks for the key, after the two log lines and without
    any request to OpenRouter. *)
Theorem quiz_route_missing_key
  (key : option jsstring) (fetch : Network) (body transcript : JsVal) :
  get_prop body (lit "transcript") = Normal transcript ->
  truthy transcript = true ->
  key = None \/ key = Some [] \/ key = Some placeholder_key ->
  generate_quiz_route key fetch body
  = ([log_generating;
      Core (EvConsoleError [JStr (lit "Error generating quiz:");
                            new_Error msg_no_key])],
     Normal {| http_status := 400; http_body := error_object msg_no_key |}).
Proof.
  intros Hb Ht Hk.
  assert (E : generateQuizQuestions key fetch transcript
              = ([], Throw (new_Error msg_no_key))).
  { destruct Hk as [->|[->| ->]]; reflexivity. }
  rewrite (quiz_route_thrown key fetch body transcript [] _ Hb Ht E).
  unfold new_Error. rewrite quiz_route_catch_error. reflexivity.
Qed.

Lemma quiz_route_missing_key_witness :
  generate_quiz_route None (model_says sure_output)
    (body_with (lit "transcript") (JStr (lit "a transcript")))
  = ([log_generating;
      Core (EvConsoleError [JStr (lit "Error generating quiz:");
                            new_Error msg_no_key])],
     Normal {| http_status := 400; http_body := error_object msg_no_key |}).
Proof.
  apply (quiz_route_missing_key None (model_says sure_output)
           (body_with (lit "transcript") (JStr (lit "a transcript")))
           (JStr (lit "a transcript")));
    [reflexivity | reflexivity | now left].
Defined.

(** X18: model output without a bracket pair is answered with 500 and
    the generic message: the text of the thrown error holds none of
    the phrases the [catch] block looks for, [parse] included. *)
Theorem quiz_route_no_json
  (fetch : Network) (key t content : jsstring) (body : JsVal) :
  usable_key key ->
  get_prop body (lit "transcript") = Normal (JStr t) -> t <> [] ->
  answers_with fetch (request_for key t) content ->
  ~ bracket_pair content ->
  snd (generate_quiz_route (Some key) fetch body)
  = Normal {| http_status := 500; http_body := error_object msg_quiz_failed |}.
Proof.
  intros Hk Hb Ht Ha Hn.
  assert (Htr : truthy (JStr t) = true) by now destruct t.
  assert (E : generateQuizQuestions (Some key) fetch (JStr t)
              = (fst (generateQuizQuestions (Some key) fetch (JStr t)),
                 Throw (new_Error msg_no_json))).
  { rewrite (@generate_on_answer fetch key t content Hk Ha).
    destruct (extract_cases content) as [[_ Ex]|(mid & l & v & Hf & _)].
    - rewrite Ex. reflexivity.
    - rewrite find_json_is_array_search in Hf.
      rewrite (proj2 (search_array_none content) Hn) in Hf. discriminate. }
  rewrite (quiz_route_thrown (Some key) fetch body (JStr t) _ _ Hb Htr E).
  unfold new_Error. rewrite quiz_route_catch_error. reflexivity.
Qed.

Lemma quiz_route_no_json_witness :
  snd (generate_quiz_route (Some sample_key) (model_says plain_output)
         (body_with (lit "transcript") (JStr (lit "a transcript"))))
  = Normal {| http_status := 500; http_body := error_object msg_quiz_failed |}.
Proof.
  apply (quiz_route_no_json (model_says plain_output) sample_key
           (lit "a transcript") plain_output
           (body_with (lit "transcript") (JStr (lit "a transcript")))
           sample_key_usable);
    [reflexivity | discriminate
     | exact (model_says_answers plain_output
                (request_for sample_key (lit "a transcript")))
     | exact plain_output_no_pair].
Defined.

(** X19: the route checks the transcript for truthiness only; one
    that is truthy but not a string (a number, [true], an array, an
    object) fails in the call of [substring], before any request, and
    is answered with 500 and the generic message. *)
Theorem quiz_route_non_string_transcript
  (fetch : Network) (key : jsstring) (body transcript : JsVal) :
  usable_key key ->
  get_prop body (lit "transcript") = Normal transcript ->
  truthy transcript = true -> is_string transcript = false ->
  exists e,
    generate_quiz_route (Some key) fetch body
    = ([log_generating;
        Core (EvConsoleError [JStr (lit "Error generating quiz:"); e])],
       Normal {| http_status := 500;
                 http_body := error_object msg_quiz_failed |}).
Proof.
  intros Hk Hb Ht Hs. exists (type_error_call (lit "substring")).
  assert (E : generateQuizQuestions (Some key) fetch transcript
              = ([], Throw (type_error_call (lit "substring")))).
  { rewrite (@generate_with_key fetch key transcript Hk).
    destruct transcript; try discriminate; reflexivity. }
  rewrite (quiz_route_thrown (Some key) fetch body transcript [] _ Hb Ht E).
  unfold type_error_call. rewrite quiz_route_catch_error. reflexivity.
Qed.

Lemma quiz_route_non_string_transcript_witness :
  exists e,
    generate_quiz_route (Some sample_key) (model_says sure_output)
      (body_with (lit "transcript") (JArr [JStr (lit "a transcript")]))
    = ([log_generating;
        Core (EvConsoleError [JStr (lit "Error generating quiz:"); e])],
       Normal {| http_status := 500;
                 http_body := error_object msg_quiz_failed |}).
Proof.
  apply (quiz_route_non_string_transcript (model_says sure_output) sample_key
           (body_with (lit "transcript") (JArr [JStr (lit "a transcript")]))
           (JArr [JStr (lit "a transcript")]) sample_key_usable);
    reflexivity.
Defined.

(** *** [/get-transcript] *)

(** What [getYouTubeTranscript] completes with. *)
Lemma transcript_result_cases (getSubtitles : Provider) (videoId : JsVal) :
  (exists id captions,
      videoId = JStr id
      /\ getSubtitles (JStr id) (lit "en") = Resolves (Some captions)
      /\ snd (getYouTubeTranscript getSubtitles videoId)
         = Normal (JStr (joined_text captions))
      /\ (50 <= List.length (str_split ch_space (joined_text captions)))%nat)
  \/ (exists m,
         snd (getYouTubeTranscript getSubtitles videoId)
         = Normal (error_object m)
         /\ In m [msg_not_enough; msg_no_captions; msg_invalid_id; msg_failed])
  \/ (exists m,
         snd (getYouTubeTranscript getSubtitles videoId)
         = Throw (JError KTypeError m)).
Proof.
  destruct (negb (truthy videoId) || negb (is_string videoId)) eqn:G.
  - right. left. exists msg_invalid_id.
    unfold getYouTubeTranscript, transcript_try. rewrite G.
    unfold throw, try_catch. rewrite catch_invalid_id. cbn. tauto.
  - destruct (valid_id_cases _ G) as (id & -> & Hid).
    rewrite (transcript_by_provider _ _ Hid).
    destruct (getSubtitles (JStr id) (lit "en")) as [[[|c cs]|]|v] eqn:P.
    + right. left. exists msg_no_captions. cbn. tauto.
    + destruct (_ <? 50)%nat eqn:L.
      * right. left. exists msg_not_enough. cbn. tauto.
      * left. exists id, (c :: cs). apply Nat.ltb_ge in L. cbn [snd].
        now repeat split.
    + right. left. exists msg_no_captions. cbn. tauto.
    + right. cbn [snd]. destruct (catch_outcomes v) as (c & Hc & Hcase).
      rewrite Hc. cbn [snd].
      destruct Hcase as [->|[->|[->|[m ->]]]].
      * left. exists msg_no_captions. cbn. tauto.
      * left. exists msg_invalid_id. cbn. tauto.
      * left. exists msg_failed. cbn. tauto.
      * right. now exists m.
Qed.

Lemma transcript_route_falsy (getSubtitles : Provider) (body videoId : JsVal) :
  get_prop body (lit "videoId") = Normal videoId ->
  truthy videoId = false ->
  get_transcript_route getSubtitles body
  = ([], Normal {| http_status := 400;
                   http_body := error_object msg_id_required |}).
Proof.
  intros Hb Ht. unfold get_transcript_route.
  now rewrite Hb, rbind_rlift_normal, Ht.
Qed.

Lemma transcript_route_text (getSubtitles : Provider) (body videoId : JsVal)
  (t : jsstring) :
  get_prop body (lit "videoId") = Normal videoId ->
  truthy videoId = true ->
  snd (getYouTubeTranscript getSubtitles videoId) = Normal (JStr t) ->
  t <> [] ->
  snd (get_transcript_route getSubtitles body)
  = Normal {| http_status := 200;
              http_body :=
                transcript_payload videoId (JStr t)
                  (JInt (Z.of_nat (List.length t)))
                  (JInt (Z.of_nat (List.length (str_split ch_space t)))) |}.
Proof.
  intros Hb Ht Hg Hne. unfold get_transcript_route.
  rewrite Hb, rbind_rlift_normal, Ht. cbn [negb].
  rewrite rbind_core, Hg. destruct t as [|c t]; [congruence|]. reflexivity.
Qed.

Lemma transcript_route_error_object (getSubtitles : Provider)
  (body videoId : JsVal) (m : jsstring) :
  get_prop body (lit "videoId") = Normal videoId ->
  truthy videoId = true ->
  snd (getYouTubeTranscript getSubtitles videoId) = Normal (error_object m) ->
  m <> [] ->
  get_transcript_route getSubtitles body
  = (List.map Core (fst (getYouTubeTranscript getSubtitles videoId)),
     Normal {| http_status := 404; http_body := error_object m |}).
Proof.
  intros Hb Ht Hg Hne. unfold get_transcript_route.
  rewrite Hb, rbind_rlift_normal, Ht. cbn [negb].
  rewrite rbind_core, Hg. destruct m as [|c m]; [congruence|].
  cbn. now rewrite app_nil_r.
Qed.

Lemma transcript_route_thrown (getSubtitles : Provider)
  (body videoId e : JsVal) :
  get_prop body (lit "videoId") = Normal videoId ->
  truthy videoId = true ->
  snd (getYouTubeTranscript getSubtitles videoId) = Throw e ->
  get_transcript_route getSubtitles body
  = (List.map Core (fst (getYouTubeTranscript getSubtitles videoId))
       ++ [Core (EvConsoleError [JStr (lit "Error in transcript route:"); e])],
     Normal {| http_status := 500; http_body := error_object msg_failed |}).
Proof.
  intros Hb Ht Hg. unfold get_transcript_route.
  rewrite Hb, rbind_rlift_normal, Ht. cbn [negb].
  rewrite rbind_core, Hg. reflexivity.
Qed.

Lemma split_nonempty (t : jsstring) :
  (50 <= List.length (str_split ch_space t))%nat -> t <> [].
Proof. intros H ->. cbn in H. lia. Qed.

Lemma error_messages_nonempty (m : jsstring) :
  In m [msg_not_enough; msg_no_captions; msg_invalid_id; msg_failed] ->
  m <> [].
Proof. intros [<-|[<-|[<-|[<-|[]]]]]; discriminate. Qed.

Lemma pair_of_snd A B (p : A * B) (b : B) : snd p = b -> p = (fst p, b).
Proof. intros <-. now destruct p. Qed.

(** X20: the handler of [/get-transcript] answers every request whose
    body can be read, whatever the provider does, with one of the
    statuses 200, 400, 404 and 500; a rejection that escapes
    [getYouTubeTranscript] is caught here. *)
Theorem transcript_route_always_responds
  (getSubtitles : Provider) (body videoId : JsVal) :
  get_prop body (lit "videoId") = Normal videoId ->
  exists l resp,
    get_transcript_route getSubtitles body = (l, Normal resp)
    /\ In (http_status resp) [200; 400; 404; 500]%N.
Proof.
  intros Hb. destruct (truthy videoId) eqn:Ht.
  - destruct (transcript_result_cases getSubtitles videoId)
      as [(id & captions & _ & _ & Hg & Hn)|[(m & Hg & Hm)|(m & Hg)]].
    + rewrite (pair_of_snd _ _ _ _
                 (transcript_route_text getSubtitles body videoId _ Hb Ht Hg
                    (split_nonempty _ Hn))).
      do 2 eexists. split; [reflexivity|]. cbn. tauto.
    + rewrite (transcript_route_error_object getSubtitles body videoId m
                 Hb Ht Hg (error_messages_nonempty m Hm)).
      do 2 eexists. split; [reflexivity|]. cbn. tauto.
    + rewrite (transcript_route_thrown getSubtitles body videoId _ Hb Ht Hg).
      do 2 eexists. split; [reflexivity|]. cbn. tauto.
  - rewrite (transcript_route_falsy getSubtitles body videoId Hb Ht).
    do 2 eexists. split; [reflexivity|]. cbn. tauto.
Qed.

Lemma transcript_route_always_responds_witness :
  exists l resp,
    get_transcript_route
      (const_provider (Rejects (JStr (lit "Request timed out"))))
      (body_with (lit "videoId") (JStr sample_id))
    = (l, Normal resp)
    /\ In (http_status resp) [200; 400; 404; 500]%N.
Proof.
  apply (transcript_route_always_responds
           (const_provider (Rejects (JStr (lit "Request timed out"))))
           (body_with (lit "videoId") (JStr sample_id)) (JStr sample_id)).
  reflexivity.
Defined.

(** X21: a response with status 200 carries the identifier, the joined
    text of the fragments the provider gave for it, the number of code
    units of that text as [transcriptLength] and the number of its
    pieces between single spaces, at least 50, as [wordCount]. *)
Theorem transcript_route_ok_payload
  (getSubtitles : Provider) (body : JsVal) (l : list RouteEvent)
  (resp : HttpResponse) :
  get_transcript_route getSubtitles body = (l, Normal resp) ->
  http_status resp = 200%N ->
  exists id captions,
    get_prop body (lit "videoId") = Normal (JStr id)
    /\ getSubtitles (JStr id) (lit "en") = Resolves (Some captions)
    /\ http_body resp
       = transcript_payload (JStr id) (JStr (joined_text captions))
           (JInt (Z.of_nat (List.length (joined_text captions))))
           (JInt (Z.of_nat (List.length
                              (str_split ch_space (joined_text captions)))))
    /\ (50 <= List.length (str_split ch_space (joined_text captions)))%nat.
Proof.
  intros H Hs.
  destruct (get_prop body (lit "videoId")) as [videoId|x] eqn:Hb.
  - destruct (truthy videoId) eqn:Ht.
    + destruct (transcript_result_cases getSubtitles videoId)
        as [(id & captions & -> & Hp & Hg & Hn)|[(m & Hg & Hm)|(m & Hg)]].
      * pose proof (transcript_route_text getSubtitles body (JStr id) _ Hb Ht Hg
                      (split_nonempty _ Hn)) as E.
        rewrite H in E. cbn [snd] in E. injection E as ->.
        exists id, captions. now repeat split.
      * rewrite (transcript_route_error_object getSubtitles body videoId m
                   Hb Ht Hg (error_messages_nonempty m Hm)) in H.
        injection H as _ <-. discriminate.
      * rewrite (transcript_route_thrown getSubtitles body videoId _ Hb Ht Hg)
          in H.
        injection H as _ <-. discriminate.
    + rewrite (transcript_route_falsy getSubtitles body videoId Hb Ht) in H.
      injection H as _ <-. discriminate.
  - unfold get_transcript_route in H. rewrite Hb in H. discriminate.
Qed.

Lemma transcript_route_ok_payload_witness :
  exists id captions,
    get_prop (body_with (lit "videoId") (JStr sample_id)) (lit "videoId")
    = Normal (JStr id)
    /\ const_provider (Resolves (Some fifty_fragments)) (JStr id) (lit "en")
       = Resolves (Some captions)
    /\ transcript_payload (JStr sample_id) (JStr (joined_text fifty_fragments))
         (JInt (Z.of_nat (List.length (joined_text fifty_fragments))))
         (JInt (Z.of_nat (List.length
                            (str_split ch_space (joined_text fifty_fragments)))))
       = transcript_payload (JStr id) (JStr (joined_text captions))
           (JInt (Z.of_nat (List.length (joined_text captions))))
           (JInt (Z.of_nat (List.length
                              (str_split ch_space (joined_text captions)))))
    /\ (50 <= List.length (str_split ch_space (joined_text captions)))%nat.
Proof.
  apply (transcript_route_ok_payload
           (const_provider (Resolves (Some fifty_fragments)))
           (body_with (lit "videoId") (JStr sample_id))
           (fst (get_transcript_route
                   (const_provider (Resolves (Some fifty_fragments)))
                   (body_with (lit "videoId") (JStr sample_id))))
           {| http_status := 200;
              http_body :=
                transcript_payload (JStr sample_id)
                  (JStr (joined_text fifty_fragments))
                  (JInt (Z.of_nat (List.length (joined_text fifty_fragments))))
                  (JInt (Z.of_nat
                           (List.length
                              (str_split ch_space
                                 (joined_text fifty_fragments))))) |}).
  - vm_compute. reflexivity.
  - reflexivity.
Defined.

(** X22: whenever [getYouTubeTranscript] returns an error object for a
    truthy identifier, the route answers 404 with that object and logs
    nothing of its own; so a truthy identifier that is not a string is
    answered with 404, not with 400. *)
Theorem transcript_route_not_found
  (getSubtitles : Provider) (body videoId : JsVal) (m : jsstring) :
  get_prop body (lit "videoId") = Normal videoId ->
  truthy videoId = true ->
  snd (getYouTubeTranscript getSubtitles videoId) = Normal (error_object m) ->
  get_transcript_route getSubtitles body
  = (List.map Core (fst (getYouTubeTranscript getSubtitles videoId)),
     Normal {| http_status := 404; http_body := error_object m |}).
Proof.
  intros Hb Ht Hg.
  apply (transcript_route_error_object getSubtitles body videoId m Hb Ht Hg).
  destruct (transcript_result_cases getSubtitles videoId)
    as [(id & captions & _ & _ & Hg' & _)|[(m' & Hg' & Hm)|(m' & Hg')]];
    rewrite Hg in Hg'; try discriminate.
  injection Hg' as ->. exact (error_messages_nonempty m' Hm).
Qed.

Lemma transcript_route_not_found_witness :
  get_transcript_route (const_provider (Resolves (Some fifty_fragments)))
    (body_with (lit "videoId") (JInt 5))
  = ([], Normal {| http_status := 404;
                   http_body := error_object msg_invalid_id |}).
Proof.
  apply (transcript_route_not_found
           (const_provider (Resolves (Some fifty_fragments)))
           (body_with (lit "videoId") (JInt 5)) (JInt 5) msg_invalid_id);
    reflexivity.
Defined.

(** X23: when the provider rejects with a string, the [TypeError] that
    escapes the [catch] block of [getYouTubeTranscript] is caught by
    the route, logged, and answered with 500 and the generic
    message. *)
Theorem transcript_route_string_rejection
  (getSubtitles : Provider) (body : JsVal) (id reason : jsstring) :
  get_prop body (lit "videoId") = Normal (JStr id) -> id <> [] ->
  getSubtitles (JStr id) (lit "en") = Rejects (JStr reason) ->
  exists m,
    get_transcript_route getSubtitles body
    = ([Core (EvGetSubtitles (JStr id) (lit "en"));
        Core (EvConsoleError [JStr (lit "Error in transcript route:");
                              JError KTypeError m])],
       Normal {| http_status := 500; http_body := error_object msg_failed |}).
Proof.
  intros Hb Hid Hp.
  assert (Ht : truthy (JStr id) = true) by now destruct id.
  pose proof (transcript_by_provider getSubtitles id Hid) as E.
  rewrite Hp in E. eexists.
  rewrite (transcript_route_thrown getSubtitles body (JStr id) _ Hb Ht
             (f_equal snd E)).
  rewrite E. reflexivity.
Qed.

Lemma transcript_route_string_rejection_witness :
  exists m,
    get_transcript_route
      (const_provider (Rejects (JStr (lit "Request timed out"))))
      (body_with (lit "videoId") (JStr sample_id))
    = ([Core (EvGetSubtitles (JStr sample_id) (lit "en"));
        Core (EvConsoleError [JStr (lit "Error in transcript route:");
                              JError KTypeError m])],
       Normal {| http_status := 500; http_body := error_object msg_failed |}).
Proof.
  apply (transcript_route_string_rejection
           (const_provider (Rejects (JStr (lit "Request timed out"))))
           (body_with (lit "videoId") (JStr sample_id)) sample_id
           (lit "Request timed out"));
    [reflexivity | discriminate | reflexivity].
Defined.

(* ------------------------------------------------------------------ *)
(** ** A candidate that parses is not inspected *)
(* ------------------------------------------------------------------ *)

(** X24: when the span from the first ['['] to the last [']'] of the
    model's output is JSON, its value is returned as it is, after the
    request and the one log line: nothing checks that its elements are
    questions with four options and an index. *)
Theorem parsed_candidate_returned_unchecked
  (fetch : Network) (key t pre mid post : jsstring) (v : JsVal) :
  usable_key key ->
  answers_with fetch (request_for key t)
    (pre ++ ch_lbracket :: mid ++ ch_rbracket :: post) ->
  ~ In ch_lbracket pre -> ~ In ch_rbracket post ->
  JSON_parse (ch_lbracket :: mid ++ [ch_rbracket]) = Normal v ->
  generateQuizQuestions (Some key) fetch (JStr t)
  = ([EvFetch (request_for key t);
      EvConsoleLog [JStr (lit "AI Response:");
                    JStr (pre ++ ch_lbracket :: mid ++ ch_rbracket :: post)]],
     Normal v).
Proof.
  intros Hk Ha Hpre Hpost Hp.
  rewrite (@generate_on_answer fetch key t _ Hk Ha).
  assert (Hf : find_json (pre ++ ch_lbracket :: mid ++ ch_rbracket :: post)
               = Some {| at0 := Some (ch_lbracket :: mid ++ [ch_rbracket]);
                         at1 := None |}).
  { rewrite find_json_is_array_search. now apply search_array_exact. }
  now rewrite (@extract_direct _ _ _ v Hf eq_refl Hp).
Qed.

Lemma parsed_candidate_returned_unchecked_witness :
  generateQuizQuestions (Some sample_key)
    (model_says (lit "Here: " ++ ch_lbracket :: lit "1, 2" ++ ch_rbracket
                   :: lit " done"))
    (JStr (lit "a transcript"))
  = ([EvFetch (request_for sample_key (lit "a transcript"));
      EvConsoleLog [JStr (lit "AI Response:");
                    JStr (lit "Here: " ++ ch_lbracket :: lit "1, 2"
                            ++ ch_rbracket :: lit " done")]],
     Normal (JArr [JInt 1; JInt 2])).
Proof.
  apply (parsed_candidate_returned_unchecked
           (model_says (lit "Here: " ++ ch_lbracket :: lit "1, 2" ++ ch_rbracket
                          :: lit " done"))
           sample_key (lit "a transcript") (lit "Here: ") (lit "1, 2")
           (lit " done") (JArr [JInt 1; JInt 2]) sample_key_usable
           (model_says_answers _ _)).
  - vm_compute. intuition discriminate.
  - vm_compute. intuition discriminate.
  - vm_compute. reflexivity.
Defined.
